(** * spf.net.scripts: a shallow embedding of the script loader

    The loader of [src/net/scripts.js] works against one shared, mutable
    document.  The embedding threads that document explicitly: a store of
    elements addressed by reference, the list of attached elements in
    document order, the subscriptions of the publish/subscribe facility,
    the queue of zero-delay timers, the closures created by [execute], and
    a ghost trace of the observable actions (callbacks run, texts
    evaluated, requests issued, completion bodies run, cursors moved).

    The page and the browser are the environment: the page calls the
    public functions, the browser raises [onload] and
    [onreadystatechange] on elements and fires timers, in any order.  A
    callback of the page is opaque: its call is recorded and it does not
    call back into the loader; nested loads are those of [execute], whose
    closure [getNextScript] is modelled in full. *)

From Stdlib Require Import ZArith Ascii.
From stdpp Require Import base list gmap strings pretty.

Local Open Scope string_scope.
Local Open Scope list_scope.
Local Open Scope Z_scope.

(** ** Data model *)

Inductive tagName := SCRIPT | OBJECT | IFRAME.

(** A function value that can be handed to the loader: an opaque function
    of the caller, known by a number, whose call is recorded in the trace;
    or the closure [getNextScript] of the [n]-th call of [execute]. *)
Inductive callback :=
  | Fn (n : nat)
  | GetNextScript (r : nat).

(** The closure passed by [load] to [load_]: it captures the old script
    elements to remove and the element id (and, through the variable [el],
    the element that carries it). *)
Record wiring := {
  scriptElsToRemove : list nat;
  channel : string;
}.

Record element := {
  tag : tagName;
  id : string;
  className : string;
  src : string;            (* [src] of a script, [data] of an object *)
  body : string;           (* text node of an evaluated script *)
  loaded : bool;           (* dataset entry 'loaded' *)
  onload : option wiring;  (* handlers installed by [load_] *)
  contentDocument : list nat;  (* children of an iframe's own document *)
}.

(** An item of [ParseResult.queue]. *)
Record item := {
  url : string;
  text : string;
  name : string;
}.

Record ParseResult := {
  original : string;
  parsed : string;
  queue : list item;
}.

(** The variables captured by one [getNextScript] closure. *)
Record run := {
  run_queue : list item;
  index : Z;
  opt_callback : option nat;
}.

Inductive task :=
  | LoadFn (el : nat)
  | PrefetchFn (u : string) (i : string) (iframeEl : nat).

Inductive event :=
  | Called (n : nat)
  | Evaluated (t : string)
  | LoadCall (u : string)
  | Fetch (primary : bool) (u : string)
  | Completed (el : nat) (ch : string)
  | Next (r : nat) (k : Z).

Record state := {
  nodes : list element;
  document : list nat;
  subscriptions : gmap string (list callback);
  timers : list task;
  runs : list run;
  trace : list event;
}.

#[export] Instance wiring_eq_dec : EqDecision wiring.
Proof. solve_decision. Defined.
#[export] Instance tagName_eq_dec : EqDecision tagName.
Proof. solve_decision. Defined.
#[export] Instance callback_eq_dec : EqDecision callback.
Proof. solve_decision. Defined.
#[export] Instance task_eq_dec : EqDecision task.
Proof. solve_decision. Defined.
#[export] Instance event_eq_dec : EqDecision event.
Proof. solve_decision. Defined.

Definition set_nodes (f : list element → list element) (st : state) : state :=
  {| nodes := f (nodes st); document := document st;
     subscriptions := subscriptions st; timers := timers st;
     runs := runs st; trace := trace st |}.

Definition set_document (f : list nat → list nat) (st : state) : state :=
  {| nodes := nodes st; document := f (document st);
     subscriptions := subscriptions st; timers := timers st;
     runs := runs st; trace := trace st |}.

Definition set_subscriptions
    (f : gmap string (list callback) → gmap string (list callback))
    (st : state) : state :=
  {| nodes := nodes st; document := document st;
     subscriptions := f (subscriptions st); timers := timers st;
     runs := runs st; trace := trace st |}.

Definition set_timers (f : list task → list task) (st : state) : state :=
  {| nodes := nodes st; document := document st;
     subscriptions := subscriptions st; timers := f (timers st);
     runs := runs st; trace := trace st |}.

Definition set_runs (f : list run → list run) (st : state) : state :=
  {| nodes := nodes st; document := document st;
     subscriptions := subscriptions st; timers := timers st;
     runs := f (runs st); trace := trace st |}.

Definition log (e : event) (st : state) : state :=
  {| nodes := nodes st; document := document st;
     subscriptions := subscriptions st; timers := timers st;
     runs := runs st; trace := trace st ++ [e] |}.

(** ** The collaborators: DOM, dataset, publish/subscribe, timers *)

(** Modelled from the spec: the DOM capability set (create, insert and
    remove an element, look one up by id, query the script elements that
    carry a group tag).  [spf.dom] is not part of the sources at hand. *)
Definition createElement (e : element) (st : state) : nat * state :=
  (length (nodes st), set_nodes (λ ns, ns ++ [e]) st).

Definition has_id (st : state) (i : string) (n : nat) : bool :=
  match nodes st !! n with
  | Some e => bool_decide (id e = i)
  | None => false
  end.

Definition getElementById (i : string) (st : state) : option nat :=
  head (filter (λ n, has_id st i n = true) (document st)).

(** The names of a [class] attribute: the runs of code units between
    HTML white space (tab, line feed, form feed, carriage return,
    space). *)
Definition is_class_space (c : ascii) : bool :=
  let n := nat_of_ascii c in
  bool_decide (n = 9)%nat || bool_decide (n = 10)%nat || bool_decide (n = 12)%nat
  || bool_decide (n = 13)%nat || bool_decide (n = 32)%nat.

Fixpoint class_list (s cur : string) : list string :=
  match s with
  | EmptyString => match cur with EmptyString => [] | _ => [cur] end
  | String c s' =>
      if is_class_space c
      then match cur with
           | EmptyString => class_list s' EmptyString
           | _ => cur :: class_list s' EmptyString
           end
      else class_list s' (String.append cur (String c EmptyString))
  end.





(** An element that the selector ['script.' + cls] matches, for [cls] a
    class name: a script element whose [class] attribute lists [cls]. *)
Definition is_script_of_class (st : state) (cls : string) (n : nat) : bool :=
  match nodes st !! n with
  | Some e =>
      bool_decide (tag e = SCRIPT)
      && bool_decide (cls ∈ class_list (className e) EmptyString)
  | None => false
  end.

Definition query_script (cls : string) (st : state) : list nat :=
  filter (λ n, is_script_of_class st cls n = true) (document st).

Definition insertFirst (n : nat) (st : state) : state :=
  set_document (λ d, n :: d) st.

Definition appendLast (n : nat) (st : state) : state :=
  set_document (λ d, d ++ [n]) st.

Definition removeChild (n : nat) (st : state) : state :=
  set_document (filter (λ m, m ≠ n)) st.

(** Modelled from the spec: the tagging mechanism [spf.dom.dataset], here
    the one key 'loaded' that the loader reads and writes. *)
Definition dataset_get_loaded (n : nat) (st : state) : bool :=
  match nodes st !! n with
  | Some e => loaded e
  | None => false
  end.

Definition mark_loaded (e : element) : element :=
  {| tag := tag e; id := id e; className := className e; src := src e;
     body := body e; loaded := true; onload := onload e;
     contentDocument := contentDocument e |}.

Definition dataset_set_loaded (n : nat) (st : state) : state :=
  set_nodes (alter mark_loaded n) st.

(** Modelled from the spec: the notification facility [spf.pubsub], with
    [subscribe], [publish] (delivery in registration order) and [clear].
    [publish] is defined further down, once calling a callback is. *)
Definition subscribers (i : string) (st : state) : list callback :=
  default [] (subscriptions st !! i).

Definition subscribe (i : string) (cb : callback) (st : state) : state :=
  set_subscriptions (λ m, <[i := subscribers i st ++ [cb]]> m) st.

Definition clear (i : string) (st : state) : state :=
  set_subscriptions (delete i) st.

Definition setTimeout (t : task) (st : state) : state :=
  set_timers (λ q, q ++ [t]) st.

Definition el_id (n : nat) (st : state) : string :=
  match nodes st !! n with
  | Some e => id e
  | None => ""
  end.

Definition call_opt (call : callback → state → state)
    (opt_cb : option callback) (st : state) : state :=
  match opt_cb with
  | Some cb => call cb st
  | None => st
  end.

Definition subscribe_opt (i : string) (opt_cb : option callback)
    (st : state) : state :=
  match opt_cb with
  | Some cb => subscribe i cb st
  | None => st
  end.

(** How a function body ends: normally, or by the TypeError that reading
    a property of [null] or [undefined] raises.  Either way the effects
    performed so far stay. *)
Inductive completion :=
  | Normal (st : state)
  | TypeError (st : state).

Definition state_of (c : completion) : state :=
  match c with
  | Normal st => st
  | TypeError st => st
  end.

(** ** The queue parser

    Strings are sequences of code units below 256.  The three regular
    expressions of the source are matched by hand, the way the regular
    expression engine does: leftmost match, lazy [[\s\S]*?] up to the
    first continuation that works, greedy [[\S]+] back to the last one. *)

Definition dquote : ascii := Eval cbv in ascii_of_nat 34.

Definition lower (c : ascii) : ascii :=
  let n := nat_of_ascii c in
  if bool_decide (65 ≤ n ≤ 90)%nat then ascii_of_nat (n + 32) else c.

(** The white space of [\s] among the code units below 256. *)
Definition is_space (c : ascii) : bool :=
  let n := nat_of_ascii c in
  bool_decide (9 ≤ n ≤ 13)%nat || bool_decide (n = 32)%nat
  || bool_decide (n = 160)%nat.

(** [strip p s]: what follows [p] when [s] starts with it; with [ci] set
    letters match whatever their case (the flag [i]). *)
Fixpoint strip (ci : bool) (p s : string) : option string :=
  match p, s with
  | EmptyString, _ => Some s
  | String _ _, EmptyString => None
  | String a p', String b s' =>
      if bool_decide ((if ci then lower a else a) = (if ci then lower b else b))
      then strip ci p' s'
      else None
  end.

(** [cut p s]: the text before and after the first occurrence of [p]. *)
Fixpoint cut (ci : bool) (p s : string) : option (string * string) :=
  match strip ci p s with
  | Some rest => Some (EmptyString, rest)
  | None =>
      match s with
      | EmptyString => None
      | String c s' =>
          match cut ci p s' with
          | Some (before, after) => Some (String c before, after)
          | None => None
          end
      end
  end.

(** A match of [SCRIPT_TAG_REGEXP] at the start of [s]: the two groups
    and the length of the match. *)
Definition match_script_tag (s : string) : option (string * string * nat) :=
  match strip true "<script" s with
  | Some s1 =>
      match cut false ">" s1 with
      | Some (attr, s2) =>
          match cut true "</script>" s2 with
          | Some (t, s3) =>
              Some (attr, t, (String.length s - String.length s3)%nat)
          | None => None
          end
      | None => None
      end
  | None => None
  end.

(** The longest run of [\S] at the start of [s]. *)
Fixpoint non_space_run (s : string) : string :=
  match s with
  | EmptyString => EmptyString
  | String c s' => if is_space c then EmptyString else String c (non_space_run s')
  end.

(** What precedes the last double quote of [s]. *)
Fixpoint before_last_quote (s : string) : option string :=
  match s with
  | EmptyString => None
  | String c s' =>
      match before_last_quote s' with
      | Some p => Some (String c p)
      | None => if bool_decide (c = dquote) then Some EmptyString else None
      end
  end.

(** The first group of SRC_ATTR_REGEXP or CLASS_ATTR_REGEXP in [attr],
    for [key] one of [src] and [class]: after the key, the equals sign and
    a double quote, the longest run of [\S] that a double quote follows;
    [None] when there is no match. *)
Fixpoint attr_match (key : string) (attr : string) : option string :=
  let here :=
    match strip false (key +:+ "=" +:+ String dquote EmptyString) attr with
    | Some rest =>
        match before_last_quote (non_space_run rest) with
        | Some (String c p) => Some (String c p)
        | _ => None
        end
    | None => None
    end in
  match here with
  | Some v => Some v
  | None =>
      match attr with
      | EmptyString => None
      | String _ attr' => attr_match key attr'
      end
  end.

(** The function passed to [replace], as the item it pushes. *)
Definition script_item (attr t : string) : item :=
  {| url := default "" (attr_match "src" attr); text := t;
     name := default "" (attr_match "class" attr) |}.

(** [html.replace(SCRIPT_TAG_REGEXP, ...)]: the text left and the items
    pushed, in order; [skip] counts the code units of the current match
    still to pass over. *)
Fixpoint replace_script_tags (s : string) (skip : nat) : string * list item :=
  match s with
  | EmptyString => (EmptyString, [])
  | String c s' =>
      match skip with
      | S k => replace_script_tags s' k
      | O =>
          match match_script_tag s with
          | Some (attr, t, len) =>
              let '(out, q) := replace_script_tags s' (len - 1) in
              (out, script_item attr t :: q)
          | None =>
              let '(out, q) := replace_script_tags s' 0 in
              (String c out, q)
          end
      end
  end.

(** [spf.net.scripts.parse]; [None] is an absent argument. *)
Definition parse (html : option string) : ParseResult :=
  let result := {| original := ""; parsed := ""; queue := [] |} in
  match html with
  | None => result
  | Some EmptyString => result
  | Some h =>
      let '(out, q) := replace_script_tags h 0 in
      {| original := h; parsed := out; queue := q |}
  end.

(** ** The loader *)

Section Loader.

(** [spf.string.hashCode], the browser switch [spf.dom.IS_IE] and the
    presence of [window.execScript] come from outside the loader. *)
Variable hashCode : string → Z.
Variable IS_IE : bool.
Variable execScript : bool.

Definition ID_PREFIX : string := "js-".

Definition script_id (u : string) : string :=
  ID_PREFIX +:+ pretty (hashCode u).

Definition blank (t : tagName) : element :=
  {| tag := t; id := ""; className := ""; src := ""; body := "";
     loaded := false; onload := None; contentDocument := [] |}.

(** [spf.net.scripts.eval]; [call] is how a function value is called. *)
Definition eval (call : callback → state → state) (t : string)
    (opt_cb : option callback) (st : state) : state :=
  let st :=
    if execScript then log (Evaluated t) st
    else
      let '(scriptEl, st) :=
        createElement
          {| tag := SCRIPT; id := ""; className := ""; src := ""; body := t;
             loaded := false; onload := None; contentDocument := [] |} st in
      log (Evaluated t) (insertFirst scriptEl st) in
  call_opt call opt_cb st.

(** [spf.net.scripts.load_]: the element is created with both handlers
    installed, its [src] is set (the request goes out) and it is inserted
    first. *)
Definition load_ (u i cls : string) (fn : wiring) (st : state) : nat * state :=
  let '(scriptEl, st) :=
    createElement
      {| tag := SCRIPT; id := i; className := cls; src := u; body := "";
         loaded := false; onload := Some fn; contentDocument := [] |} st in
  (scriptEl, insertFirst scriptEl (log (Fetch true u) st)).

(** [spf.net.scripts.unload_]: [parentNode] of a detached element is
    [null], and calling [removeChild] on it raises. *)
Fixpoint unload_ (scriptEls : list nat) (st : state) : completion :=
  match scriptEls with
  | [] => Normal st
  | el :: rest =>
      let st := clear (el_id el st) st in
      if bool_decide (el ∈ document st)
      then unload_ rest (removeChild el st)
      else TypeError st
  end.

(** [spf.net.scripts.unload] *)
Definition unload (u : string) (st : state) : completion :=
  match getElementById (script_id u) st with
  | Some scriptEl => unload_ [scriptEl] st
  | None => Normal st
  end.

(** [spf.net.scripts.load] *)
Definition load (call : callback → state → state) (u : string)
    (opt_cb : option callback) (opt_name : option string) (st : state)
    : nat * state :=
  let st := log (LoadCall u) st in
  let i := script_id u in
  let cls := default "" opt_name in
  match getElementById i st with
  | Some scriptEl =>
      if dataset_get_loaded scriptEl st
      then (scriptEl, call_opt call opt_cb st)
      else (scriptEl, subscribe_opt i opt_cb st)
  | None =>
      let st := subscribe_opt i opt_cb st in
      let els := if bool_decide (cls = "") then [] else query_script cls st in
      load_ u i cls {| scriptElsToRemove := els; channel := i |} st
  end.

(** *** [execute] and its closure [getNextScript] *)

Definition step_index (r : run) : run :=
  {| run_queue := run_queue r; index := index r + 1;
     opt_callback := opt_callback r |}.

(** [index++] in the closure of the run [r]; the trace records the new
    value of the cursor. *)
Definition advance (r : nat) (st : state) : state :=
  match runs st !! r with
  | Some c => log (Next r (index c + 1)) (set_runs (alter step_index r) st)
  | None => st
  end.

Definition call_Fn (opt_fn : option nat) (st : state) : state :=
  match opt_fn with
  | Some n => log (Called n) st
  | None => st
  end.

(** The body of [getNextScript] once [index++] is done, with [items] the
    part of the queue from [index] on.  The function value handed to
    [load] and [eval] is [getNextScript] itself: called back at once, it
    does [index++] and goes on with the rest of the queue. *)
Fixpoint getNextScript_at (r : nat) (opt_fn : option nat) (items : list item)
    (st : state) : state :=
  match items with
  | [] => call_Fn opt_fn st
  | it :: rest =>
      let again (_ : callback) (st : state) :=
        getNextScript_at r opt_fn rest (advance r st) in
      if bool_decide (url it ≠ "")
      then (load again (url it) (Some (GetNextScript r)) (Some (name it)) st).2
      else if bool_decide (text it ≠ "")
      then eval again (text it) (Some (GetNextScript r)) st
      else again (GetNextScript r) st
  end.

Definition getNextScript (r : nat) (st : state) : state :=
  match runs st !! r with
  | Some c =>
      getNextScript_at r (opt_callback c)
        (drop (Z.to_nat (index c + 1)) (run_queue c)) (advance r st)
  | None => st
  end.

(** Calling a function value. *)
Definition call (cb : callback) (st : state) : state :=
  match cb with
  | Fn n => log (Called n) st
  | GetNextScript r => getNextScript r st
  end.

(** [spf.pubsub.publish]: the functions subscribed at the time of the
    call are called in the order of their subscription. *)
Definition publish (i : string) (st : state) : state :=
  foldl (λ st cb, call cb st) st (subscribers i st).

(** [spf.net.scripts.execute] *)
Definition execute (result : ParseResult) (opt_fn : option nat)
    (st : state) : state :=
  if bool_decide (length (queue result) ≤ 0)%nat
  then call_Fn opt_fn st
  else
    let r := length (runs st) in
    let st :=
      set_runs (λ rs, rs ++ [ {| run_queue := queue result; index := -1;
                                 opt_callback := opt_fn |} ]) st in
    getNextScript r st.

(** *** Completion of a load *)

(** The function that [load] passes to [load_], for the element [el]. *)
Definition load_fn (el : nat) (st : state) : state :=
  match nodes st !! el ≫= onload with
  | Some w =>
      if dataset_get_loaded el st then st
      else
        let st := log (Completed el (channel w)) (dataset_set_loaded el st) in
        match unload_ (scriptElsToRemove w) st with
        | Normal st => clear (channel w) (publish (channel w) st)
        | TypeError st => st
        end
  | None => st
  end.

(** [scriptEl.onload]: the call of [fn] is put off to the next tick. *)
Definition fire_onload (el : nat) (st : state) : state :=
  match nodes st !! el ≫= onload with
  | Some _ => setTimeout (LoadFn el) st
  | None => st
  end.

(** [scriptEl.onreadystatechange] with the element's [readyState]. *)
Definition fire_onreadystatechange (el : nat) (readyState : string)
    (st : state) : state :=
  if bool_decide (readyState = "loaded") || bool_decide (readyState = "complete")
  then fire_onload el st
  else st.

(** *** Prefetching *)

Definition is_iframe (f : nat) (st : state) : bool :=
  match nodes st !! f with
  | Some e => bool_decide (tag e = IFRAME)
  | None => false
  end.

(** Modelled from the spec: [spf.dom.createIframe], which creates the
    isolated secondary context and attaches it at the end of the body. *)
Definition createIframe (i : string) (st : state) : nat * state :=
  let '(f, st) :=
    createElement
      {| tag := IFRAME; id := i; className := ""; src := ""; body := "";
         loaded := false; onload := None; contentDocument := [] |} st in
  (f, appendLast f st).

(** [iframeEl.contentWindow.document.getElementById] *)
Definition frame_getElementById (i : string) (f : nat) (st : state)
    : option nat :=
  match nodes st !! f with
  | Some e => head (filter (λ n, has_id st i n = true) (contentDocument e))
  | None => None
  end.

Definition appendChild (n : nat) (e : element) : element :=
  {| tag := tag e; id := id e; className := className e; src := src e;
     body := body e; loaded := loaded e; onload := onload e;
     contentDocument := contentDocument e ++ [n] |}.

(** [spf.net.scripts.prefetch_], on the document of the iframe [f]. *)
Definition prefetch_ (u i : string) (f : nat) (st : state) : state :=
  let '(objectEl, st) :=
    createElement
      {| tag := OBJECT; id := i; className := "";
         src := if IS_IE then "" else u; body := "";
         loaded := false; onload := None; contentDocument := [] |} st in
  let st :=
    if IS_IE
    then (createElement
            {| tag := SCRIPT; id := ""; className := ""; src := u; body := "";
               loaded := false; onload := None; contentDocument := [] |} st).2
    else st in
  set_nodes (alter (appendChild objectEl) f) (log (Fetch false u) st).

(** [spf.net.scripts.prefetch]; an element that carries the iframe's id
    without being an iframe has no [contentWindow]. *)
Definition prefetch (u : string) (st : state) : completion :=
  let i := script_id u in
  match getElementById i st with
  | Some _ => Normal st
  | None =>
      let iframeId := ID_PREFIX +:+ "prefetch" in
      match getElementById iframeId st with
      | None =>
          let '(f, st) := createIframe iframeId st in
          Normal (setTimeout (PrefetchFn u i f) st)
      | Some f =>
          if is_iframe f st
          then
            match frame_getElementById i f st with
            | Some _ => Normal st
            | None => Normal (setTimeout (PrefetchFn u i f) st)
            end
          else TypeError st
      end
  end.

(** [spf.net.scripts.preexecute] *)
Fixpoint preexecute_at (items : list item) (st : state) : completion :=
  match items with
  | [] => Normal st
  | it :: rest =>
      if bool_decide (url it ≠ "")
      then
        match prefetch (url it) st with
        | Normal st => preexecute_at rest st
        | TypeError st => TypeError st
        end
      else preexecute_at rest st
  end.

Definition preexecute (result : ParseResult) (st : state) : completion :=
  preexecute_at (queue result) st.

(** *** The event loop *)

Definition run_task (t : task) (st : state) : state :=
  match t with
  | LoadFn el => load_fn el st
  | PrefetchFn u i f => if is_iframe f st then prefetch_ u i f st else st
  end.

(** One tick: the oldest timer fires. *)
Definition tick (st : state) : state :=
  match timers st with
  | [] => st
  | t :: q => run_task t (set_timers (λ _, q) st)
  end.

(** What can happen to the document: a call of the public interface by
    the page, or an event raised by the browser. *)
Inductive action :=
  | DoLoad (u : string) (opt_fn : option nat) (opt_name : option string)
  | DoUnload (u : string)
  | DoPrefetch (u : string)
  | DoExecute (result : ParseResult) (opt_fn : option nat)
  | DoPreexecute (result : ParseResult)
  | DoEval (t : string) (opt_fn : option nat)
  | Onload (el : nat)
  | Onreadystatechange (el : nat) (readyState : string)
  | Tick.

Definition step (a : action) (st : state) : state :=
  match a with
  | DoLoad u opt_fn opt_name => (load call u (Fn <$> opt_fn) opt_name st).2
  | DoUnload u => state_of (unload u st)
  | DoPrefetch u => state_of (prefetch u st)
  | DoExecute result opt_fn => execute result opt_fn st
  | DoPreexecute result => state_of (preexecute result st)
  | DoEval t opt_fn => eval call t (Fn <$> opt_fn) st
  | Onload el => fire_onload el st
  | Onreadystatechange el readyState => fire_onreadystatechange el readyState st
  | Tick => tick st
  end.

Definition steps (l : list action) (st : state) : state :=
  foldl (λ st a, step a st) st l.

(** The document before anything was loaded. *)
Definition init : state :=
  {| nodes := []; document := []; subscriptions := ∅; timers := [];
     runs := []; trace := [] |}.

(** The callbacks called, the texts evaluated, the requests issued and the
    completion bodies run, as the trace records them. *)
Definition called (tr : list event) : list nat :=
  omap (λ e, match e with Called n => Some n | _ => None end) tr.

Definition evaluated (tr : list event) : list string :=
  omap (λ e, match e with Evaluated t => Some t | _ => None end) tr.

Definition fetched (tr : list event) : list string :=
  omap (λ e, match e with Fetch true u => Some u | _ => None end) tr.

Definition completed (tr : list event) : list nat :=
  omap (λ e, match e with Completed el _ => Some el | _ => None end) tr.

(** ** Properties of the loader *)

Lemma getNextScript_at_cons r opt_fn it rest st :
  getNextScript_at r opt_fn (it :: rest) st =
  let again (_ : callback) (st : state) :=
    getNextScript_at r opt_fn rest (advance r st) in
  if bool_decide (url it ≠ "")
  then (load again (url it) (Some (GetNextScript r)) (Some (name it)) st).2
  else if bool_decide (text it ≠ "")
  then eval again (text it) (Some (GetNextScript r)) st
  else again (GetNextScript r) st.
Proof. reflexivity. Qed.

Lemma getNextScript_unfold r st c it rest :
  runs st !! r = Some c →
  0 ≤ index c →
  drop (Z.to_nat (index c)) (run_queue c) = it :: rest →
  getNextScript r st = getNextScript_at r (opt_callback c) rest (advance r st).
Proof.
  intros Hc Hidx Hdrop. unfold getNextScript. rewrite Hc. do 2 f_equal.
  replace (Z.to_nat (index c + 1)) with (Z.to_nat (index c) + 1)%nat by lia.
  by rewrite <- drop_drop, Hdrop.
Qed.

(** The body of [getNextScript] as the source has it, with the closure
    itself handed to [load] and [eval]: while the cursor of the run is on
    the item, the loop above is that body. *)
Lemma getNextScript_at_body r st c it rest :
  runs st !! r = Some c →
  0 ≤ index c →
  drop (Z.to_nat (index c)) (run_queue c) = it :: rest →
  getNextScript_at r (opt_callback c) (it :: rest) st
  = if bool_decide (url it ≠ "")
    then (load call (url it) (Some (GetNextScript r)) (Some (name it)) st).2
    else if bool_decide (text it ≠ "")
    then eval call (text it) (Some (GetNextScript r)) st
    else call (GetNextScript r) st.
Proof.
  intros Hc Hidx Hdrop. rewrite getNextScript_at_cons. cbv zeta.
  assert (Hcall : ∀ s, runs s = runs st →
            getNextScript_at r (opt_callback c) rest (advance r s)
            = call (GetNextScript r) s).
  { intros s Hs. simpl. symmetry.
    apply (getNextScript_unfold r s c it rest); [by rewrite Hs | done | done]. }
  case_bool_decide; [| case_bool_decide].
  - unfold load. destruct (getElementById _ _) as [el|]; [| done].
    destruct (dataset_get_loaded _ _); [| done].
    simpl. by rewrite Hcall.
  - unfold eval. simpl. destruct execScript; by rewrite Hcall.
  - by rewrite Hcall.
Qed.

(** *** Well-formed documents *)

Definition wiring_ok (e : element) : Prop :=
  match onload e with
  | Some w => channel w = id e
  | None => True
  end.

#[export] Instance wiring_ok_dec e : Decision (wiring_ok e).
Proof. unfold wiring_ok. destruct (onload e); apply _. Defined.

(** No element is attached twice, every attached element exists, and the
    handlers of an element publish on the channel of its id. *)
Definition wf (st : state) : Prop :=
  NoDup (document st)
  ∧ Forall (λ n, n < length (nodes st))%nat (document st)
  ∧ Forall wiring_ok (nodes st).

#[export] Instance wf_dec st : Decision (wf st).
Proof. unfold wf. apply _. Defined.

(** *** What the calls are built from

    Whatever a call back into the loader does, it does with four updates:
    it records an action, moves a cursor of [execute], subscribes a
    function, or creates an element and inserts it first.  A preorder
    between the state before and the state after that holds of these four
    holds of every call.  The texts that may be evaluated are those of the
    queued items without a url; [E] says which texts the relation
    tolerates. *)
Section Frame.

Variable E : string → Prop.
Variable R : relation state.
Context `{!PreOrder R}.

Definition item_ok (it : item) : Prop :=
  url it = "" → text it ≠ "" → E (text it).

Definition queues_ok (st : state) : Prop :=
  ∀ c, c ∈ runs st → Forall item_ok (run_queue c).

Definition event_ok (e : event) : Prop :=
  match e with
  | Evaluated t => E t
  | Completed _ _ => False
  | _ => True
  end.

Hypothesis R_log : ∀ e st, event_ok e → R st (log e st).
Hypothesis R_step : ∀ r st, R st (advance r st).
Hypothesis R_subscribe : ∀ i cb st, R st (subscribe i cb st).
Hypothesis R_insert : ∀ e st,
  wiring_ok e →
  R st (insertFirst (createElement e st).1 (createElement e st).2).
Hypothesis R_queues : ∀ st st', R st st' → queues_ok st → queues_ok st'.

Lemma frame_call_opt k opt_cb st :
  (∀ cb st, R st (k cb st)) → R st (call_opt k opt_cb st).
Proof. intros Hk. destruct opt_cb; simpl; [apply Hk | reflexivity]. Qed.

Lemma frame_subscribe_opt i opt_cb st : R st (subscribe_opt i opt_cb st).
Proof. destruct opt_cb; simpl; [apply R_subscribe | reflexivity]. Qed.

Lemma frame_load_ u i cls fn st :
  channel fn = i → R st (load_ u i cls fn st).2.
Proof.
  intros Hch. unfold load_. simpl.
  etransitivity; [by apply (R_log (Fetch true u)) |].
  by apply (R_insert _ (log (Fetch true u) st)).
Qed.

Lemma frame_load k u opt_cb opt_name st :
  (∀ cb st, R st (k cb st)) → R st (load k u opt_cb opt_name st).2.
Proof.
  intros Hk. unfold load.
  etransitivity; [by apply (R_log (LoadCall u)) |].
  destruct (getElementById _ _) as [scriptEl|].
  - destruct (dataset_get_loaded _ _); simpl.
    + by apply frame_call_opt.
    + apply frame_subscribe_opt.
  - etransitivity; [apply frame_subscribe_opt | by apply frame_load_].
Qed.

Lemma frame_eval k t opt_cb st :
  E t → (∀ cb st, R st (k cb st)) → R st (eval k t opt_cb st).
Proof.
  intros Ht Hk. unfold eval.
  etransitivity; [| by apply frame_call_opt].
  destruct execScript; [by apply R_log |].
  simpl. etransitivity; [| by apply R_log]. by apply R_insert.
Qed.

Lemma frame_call_Fn opt_fn st : R st (call_Fn opt_fn st).
Proof. destruct opt_fn; simpl; [by apply R_log | reflexivity]. Qed.

Lemma frame_getNextScript_at r opt_fn items st :
  Forall item_ok items → R st (getNextScript_at r opt_fn items st).
Proof.
  intros Hok. revert st.
  induction Hok as [|it rest Hit _ IH]; intros st.
  - apply frame_call_Fn.
  - rewrite getNextScript_at_cons.
    assert (Hk : ∀ (cb : callback) st,
               R st (getNextScript_at r opt_fn rest (advance r st))).
    { intros _ st'. etransitivity; [apply R_step | apply IH]. }
    cbv zeta. case_bool_decide as Hu; [by apply frame_load |].
    case_bool_decide as Ht; [| apply (Hk (GetNextScript r))].
    apply frame_eval; [| done].
    apply Hit; [| done]. by destruct (decide (url it = "")).
Qed.

Lemma frame_call cb st : queues_ok st → R st (call cb st).
Proof.
  intros Hq. destruct cb as [n|r]; simpl; [by apply R_log |].
  unfold getNextScript. destruct (runs st !! r) as [c|] eqn:Hc; [| reflexivity].
  etransitivity; [apply R_step |]. apply frame_getNextScript_at.
  apply Forall_drop, Hq. by eapply list_elem_of_lookup_2.
Qed.

Lemma frame_publish_list cbs st :
  queues_ok st → R st (foldl (λ st cb, call cb st) st cbs).
Proof.
  revert st. induction cbs as [|cb cbs IH]; intros st Hq; simpl; [reflexivity |].
  etransitivity; [by apply frame_call |].
  apply IH. eapply R_queues; [by apply frame_call | done].
Qed.

Lemma frame_publish i st : queues_ok st → R st (publish i st).
Proof. apply frame_publish_list. Qed.

End Frame.

(** *** Elementary facts *)

Ltac case_if :=
  match goal with
  | |- context [if ?b then _ else _] => destruct b eqn:?
  end.

Lemma getElementById_log i e st :
  getElementById i (log e st) = getElementById i st.
Proof. reflexivity. Qed.

Lemma getElementById_Some i st el :
  getElementById i st = Some el → el ∈ document st ∧ el_id el st = i.
Proof.
  unfold getElementById. intros H. apply head_Some_elem_of in H.
  apply list_elem_of_filter in H as [H ?]. split; [done |].
  unfold has_id, el_id in *. destruct (nodes st !! el); [| done].
  by apply bool_decide_eq_true in H.
Qed.

Lemma subscribers_subscribe i j cb st :
  subscribers i (subscribe j cb st) =
  if decide (j = i) then subscribers i st ++ [cb] else subscribers i st.
Proof.
  unfold subscribers at 1. unfold subscribe; simpl.
  rewrite lookup_insert. by destruct (decide (j = i)) as [->|].
Qed.

Lemma subscribers_clear i j st :
  subscribers i (clear j st) = if decide (j = i) then [] else subscribers i st.
Proof.
  unfold subscribers, clear; simpl.
  rewrite lookup_delete. by destruct (decide (j = i)).
Qed.

Lemma load_loaded k u opt_cb opt_name st el :
  getElementById (script_id u) st = Some el →
  dataset_get_loaded el st = true →
  load k u opt_cb opt_name st = (el, call_opt k opt_cb (log (LoadCall u) st)).
Proof.
  intros Hel Hl. unfold load. rewrite getElementById_log, Hel.
  change (dataset_get_loaded el (log (LoadCall u) st))
    with (dataset_get_loaded el st).
  by rewrite Hl.
Qed.

Lemma load_loading k u opt_cb opt_name st el :
  getElementById (script_id u) st = Some el →
  dataset_get_loaded el st = false →
  load k u opt_cb opt_name st =
  (el, subscribe_opt (script_id u) opt_cb (log (LoadCall u) st)).
Proof.
  intros Hel Hl. unfold load. rewrite getElementById_log, Hel.
  change (dataset_get_loaded el (log (LoadCall u) st))
    with (dataset_get_loaded el st).
  by rewrite Hl.
Qed.

Lemma load_absent k u opt_cb opt_name st :
  getElementById (script_id u) st = None →
  load k u opt_cb opt_name st =
  let st1 := subscribe_opt (script_id u) opt_cb (log (LoadCall u) st) in
  let cls := default "" opt_name in
  load_ u (script_id u) cls
    {| scriptElsToRemove :=
         if bool_decide (cls = "") then [] else query_script cls st;
       channel := script_id u |} st1.
Proof.
  intros Hel. unfold load. rewrite getElementById_log, Hel.
  cbv zeta. do 3 f_equal. case_bool_decide; [done |].
  by destruct opt_cb.
Qed.

(** *** Requesting a script that is already loaded *)

(** C6: when the element of a url is in the document with its loaded
    marker set, [load] returns that element and its effect is the call of
    the callback, at once, on the state as it was; with a function of the
    caller as callback, the elements, the document, the subscriptions, the
    timers and the cursors are unchanged, and the trace records the call
    of [load] and the call of the function. *)
Theorem load_already_loaded st u opt_cb opt_fn opt_name el :
  getElementById (script_id u) st = Some el →
  dataset_get_loaded el st = true →
  load call u opt_cb opt_name st
    = (el, call_opt call opt_cb (log (LoadCall u) st))
  ∧ (load call u (Fn <$> opt_fn) opt_name st).1 = el
  ∧ nodes (load call u (Fn <$> opt_fn) opt_name st).2 = nodes st
  ∧ document (load call u (Fn <$> opt_fn) opt_name st).2 = document st
  ∧ subscriptions (load call u (Fn <$> opt_fn) opt_name st).2 = subscriptions st
  ∧ timers (load call u (Fn <$> opt_fn) opt_name st).2 = timers st
  ∧ runs (load call u (Fn <$> opt_fn) opt_name st).2 = runs st
  ∧ trace (load call u (Fn <$> opt_fn) opt_name st).2
    = trace st ++ LoadCall u :: (Called <$> option_list opt_fn).
Proof.
  intros Hel Hl. split; [by apply load_loaded |].
  rewrite (load_loaded _ _ _ _ _ _ Hel Hl).
  destruct opt_fn as [n|]; simpl; rewrite <- ?(assoc_L (++)); done.
Qed.

(** *** Parsing *)

Definition example_markup : string :=
  "<script src=" +:+ String dquote "a.js" +:+ String dquote "></script>rest".

(** C9: the markup of a script element with the source a.js followed by
    the text rest parses to the one item with the url a.js, the stripped
    markup rest and the markup itself as original; an empty or absent
    markup parses to the empty result. *)
Theorem parse_example :
  parse (Some example_markup)
    = {| original := example_markup; parsed := "rest";
         queue := [ {| url := "a.js"; text := ""; name := "" |} ] |}
  ∧ parse (Some "") = {| original := ""; parsed := ""; queue := [] |}
  ∧ parse None = {| original := ""; parsed := ""; queue := [] |}.
Proof. repeat split; vm_compute; reflexivity. Qed.

(** *** Removing elements *)

Lemma filter_keeps_all {A} (P : A → Prop) `{!∀ x, Decision (P x)} (l : list A) :
  (∀ x, x ∈ l → P x) → filter P l = l.
Proof.
  induction l as [|x l IH]; intros Hall; [done |].
  rewrite filter_cons_True by (apply Hall; left).
  f_equal. apply IH. intros y Hy. apply Hall. by right.
Qed.

Lemma unload__attached els st :
  NoDup els →
  Forall (λ n, n ∈ document st) els →
  ∃ st',
    unload_ els st = Normal st'
    ∧ nodes st' = nodes st ∧ timers st' = timers st
    ∧ runs st' = runs st ∧ trace st' = trace st
    ∧ document st' = filter (λ n, n ∉ els) (document st)
    ∧ ∀ i, subscribers i st' =
           if decide (i ∈ (λ n, el_id n st) <$> els) then []
           else subscribers i st.
Proof.
  intros Hnd. revert st.
  induction Hnd as [|el els Hel Hnd IH]; intros st Hin.
  - eexists; split; [reflexivity |]. repeat split; try done.
    symmetry. apply filter_keeps_all. intros n _. apply not_elem_of_nil.
  - simpl. apply Forall_cons in Hin as [Hin1 Hin2].
    change (document (clear (el_id el st) st)) with (document st).
    rewrite bool_decide_eq_true_2 by done.
    destruct (IH (removeChild el (clear (el_id el st) st)))
      as (st' & -> & Hn & Ht & Hr & Htr & Hd & Hs).
    { simpl. apply Forall_forall. intros n Hn.
      apply list_elem_of_filter. split; [by intros -> |].
      by eapply Forall_forall in Hin2. }
    exists st'. split; [done |]. repeat split; try done.
    + rewrite Hd. simpl. rewrite list_filter_filter.
      apply list_filter_iff. intros n. rewrite not_elem_of_cons. tauto.
    + intros i. rewrite Hs. simpl.
      change (subscribers i (removeChild el (clear (el_id el st) st)))
        with (subscribers i (clear (el_id el st) st)).
      rewrite subscribers_clear.
      destruct (decide (el_id el st = i)) as [<-|Hne].
      * rewrite (decide_True (P := _ ∈ _ :: _)) by left.
        by destruct (decide _).
      * destruct (decide (i ∈ _ <$> els)) as [Hi|Hi].
        -- by rewrite decide_True by (by right).
        -- rewrite decide_False; [done |].
           rewrite elem_of_cons. intros [?|?]; [by subst | done].
Qed.

(** *** Completion of a load in flight *)

(** A load of [u] is in flight: its element is attached and not marked,
    its handlers publish on the channel of [u], and the elements it
    captured for removal are attached and carry other ids. *)
Definition in_flight (st : state) (u : string) (el : nat) (w : wiring) : Prop :=
  getElementById (script_id u) st = Some el
  ∧ dataset_get_loaded el st = false
  ∧ nodes st !! el ≫= onload = Some w
  ∧ channel w = script_id u
  ∧ NoDup (scriptElsToRemove w)
  ∧ Forall (λ n, n ∈ document st ∧ el_id n st ≠ script_id u)
      (scriptElsToRemove w).

#[export] Instance in_flight_dec st u el w : Decision (in_flight st u el w).
Proof. unfold in_flight. apply _. Defined.

(** The completion signals of one element, and ticks. *)
Definition signal (el : nat) (a : action) : Prop :=
  match a with
  | Onload el' => el' = el
  | Onreadystatechange el' _ => el' = el
  | Tick => True
  | _ => False
  end.

#[export] Instance signal_dec el a : Decision (signal el a).
Proof. destruct a; simpl; apply _. Defined.

Lemma foldl_call_Fn fns st :
  foldl (λ st cb, call cb st) st (Fn <$> fns)
  = foldl (λ st n, log (Called n) st) st fns.
Proof. revert st. induction fns as [|n fns IH]; intros st; simpl; [done | apply IH]. Qed.


Lemma dataset_get_set_loaded el st :
  is_Some (nodes st !! el) →
  dataset_get_loaded el (dataset_set_loaded el st) = true.
Proof.
  intros [e He]. unfold dataset_get_loaded, dataset_set_loaded; simpl.
  by rewrite list_lookup_alter_eq, He.
Qed.

Lemma load_fn_loaded el st :
  dataset_get_loaded el st = true → load_fn el st = st.
Proof.
  intros Hl. unfold load_fn. destruct (nodes st !! el ≫= onload); [| done].
  by rewrite Hl.
Qed.


Lemma steps_cons a l st : steps (a :: l) st = steps l (step a st).
Proof. reflexivity. Qed.


Lemma fire_onload_timers el st :
  fire_onload el st = st ∨ fire_onload el st = setTimeout (LoadFn el) st.
Proof. unfold fire_onload. destruct (_ ≫= _); auto. Qed.


(** *** Requesting a script that is being loaded *)


(** *** What calls, requests and signals leave in place *)

(** Elements are only added, the elements that exist stay attached or
    detached as they were, and the document stays well formed. *)
Definition grows (st st' : state) : Prop :=
  nodes st `prefix_of` nodes st'
  ∧ (∀ n, (n < length (nodes st))%nat → n ∈ document st' ↔ n ∈ document st)
  ∧ (wf st → wf st').

#[export] Instance grows_preorder : PreOrder grows.
Proof.
  split.
  - intros st. split; [done | split; [done | done]].
  - intros st1 st2 st3 (Hn1 & Hd1 & Hw1) (Hn2 & Hd2 & Hw2).
    split; [by etransitivity | split; [| by auto]].
    intros n Hlt. rewrite Hd2, Hd1; [done | done |].
    apply prefix_length in Hn1. lia.
Qed.


Lemma wiring_ok_nodes e ns :
  wiring_ok e → Forall wiring_ok ns → Forall wiring_ok (ns ++ [e]).
Proof. intros. apply Forall_app. split; [done |]. by constructor. Qed.

Lemma grows_insert e st :
  wiring_ok e →
  grows st (insertFirst (createElement e st).1 (createElement e st).2).
Proof.
  intros He. split; [by apply prefix_app_r | split]; simpl.
  - intros n Hlt. rewrite elem_of_cons. split; [intros [?|?] | by right].
    + lia.
    + done.
  - intros (Hnd & Hb & Hw). split; [| split]; simpl.
    + apply NoDup_cons. split; [| done]. intros Hin.
      eapply Forall_forall in Hb; [| exact Hin]. simpl in Hb. lia.
    + apply Forall_cons. rewrite length_app. simpl. split; [lia |].
      eapply Forall_impl; [exact Hb |]. simpl. intros; lia.
    + by apply wiring_ok_nodes.
Qed.

Lemma grows_append e st :
  wiring_ok e →
  grows st (appendLast (createElement e st).1 (createElement e st).2).
Proof.
  intros He. split; [by apply prefix_app_r | split]; simpl.
  - intros n Hlt. rewrite elem_of_app, list_elem_of_singleton.
    split; [intros [?|?] | by left].
    + done.
    + lia.
  - intros (Hnd & Hb & Hw). split; [| split]; simpl.
    + apply NoDup_app. split; [done | split; [| apply NoDup_singleton]].
      intros n Hn Hn'. apply list_elem_of_singleton in Hn'.
      eapply Forall_forall in Hb; [| exact Hn]. simpl in Hb. lia.
    + apply Forall_app. rewrite length_app. simpl. split.
      * eapply Forall_impl; [exact Hb |]. simpl. intros; lia.
      * constructor; [lia | constructor].
    + by apply wiring_ok_nodes.
Qed.


Lemma queues_ok_True st : queues_ok (λ _, True) st.
Proof. intros c _. apply Forall_forall. by intros it _ _ _. Qed.










(** *** Replacing the scripts of a group *)

(** The actions that run no completion body and unload nothing. *)
Definition quiet (a : action) : Prop :=
  match a with
  | Tick => False
  | DoUnload _ => False
  | _ => True
  end.

#[export] Instance quiet_dec a : Decision (quiet a).
Proof. destruct a; simpl; apply _. Defined.



(** The element that [load] creates for a url without one. *)
Definition new_script (u : string) (opt_name : option string) (st : state)
    : element :=
  {| tag := SCRIPT; id := script_id u; className := default "" opt_name;
     src := u; body := ""; loaded := false;
     onload := Some {| scriptElsToRemove :=
                         if bool_decide (default "" opt_name = "") then []
                         else query_script (default "" opt_name) st;
                       channel := script_id u |};
     contentDocument := [] |}.

Lemma load_absent_state k u opt_cb opt_name st :
  getElementById (script_id u) st = None →
  (load k u opt_cb opt_name st).1 = length (nodes st)
  ∧ nodes (load k u opt_cb opt_name st).2
    = nodes st ++ [new_script u opt_name st]
  ∧ document (load k u opt_cb opt_name st).2 = length (nodes st) :: document st
  ∧ timers (load k u opt_cb opt_name st).2 = timers st
  ∧ runs (load k u opt_cb opt_name st).2 = runs st
  ∧ trace (load k u opt_cb opt_name st).2
    = trace st ++ [LoadCall u; Fetch true u]
  ∧ (∀ i, subscribers i (load k u opt_cb opt_name st).2
          = subscribers i (subscribe_opt (script_id u) opt_cb st)).
Proof.
  intros Habs. rewrite (load_absent _ _ _ _ _ Habs).
  destruct opt_cb; simpl; rewrite <- ?(assoc_L (++)); by repeat split.
Qed.

Lemma is_script_of_class_query cls st n :
  n ∈ query_script cls st ↔ n ∈ document st ∧ is_script_of_class st cls n = true.
Proof. unfold query_script. rewrite list_elem_of_filter. tauto. Qed.


Lemma getElementById_None i st n :
  getElementById i st = None → n ∈ document st → has_id st i n = false.
Proof.
  unfold getElementById. intros Hnone Hn. apply head_None in Hnone.
  destruct (has_id st i n) eqn:Hid; [| done].
  assert (Hin : n ∈ filter (λ m, has_id st i m = true) (document st))
    by (by apply list_elem_of_filter).
  rewrite Hnone in Hin. by apply elem_of_nil in Hin.
Qed.

(** The state a first request leaves: its load is in flight. *)
Lemma load_absent_in_flight k u opt_cb opt_name st :
  wf st →
  getElementById (script_id u) st = None →
  in_flight (load k u opt_cb opt_name st).2 u (length (nodes st))
    {| scriptElsToRemove :=
         if bool_decide (default "" opt_name = "") then []
         else query_script (default "" opt_name) st;
       channel := script_id u |}.
Proof.
  intros (Hnd & Hb & _) Habs.
  destruct (load_absent_state k u opt_cb opt_name st Habs)
    as (_ & Hn1 & Hd1 & _).
  set (st1 := (load k u opt_cb opt_name st).2) in *.
  assert (Hel : nodes st1 !! length (nodes st) = Some (new_script u opt_name st)).
  { rewrite Hn1. by apply list_lookup_middle. }
  split; [| split; [| split; [| split; [| split]]]].
  - unfold getElementById. rewrite Hd1, filter_cons_True; [done |].
    unfold has_id. rewrite Hel. simpl. by apply bool_decide_eq_true_2.
  - unfold dataset_get_loaded. by rewrite Hel.
  - by rewrite Hel.
  - done.
  - simpl. case_bool_decide; [constructor | by apply NoDup_filter].
  - simpl. case_bool_decide; [constructor |].
    apply Forall_forall. intros n [Hn _]%is_script_of_class_query.
    split; [rewrite Hd1; by right |].
    pose proof (getElementById_None _ _ _ Habs Hn) as Hid.
    eapply Forall_forall in Hb; [| exact Hn]. simpl in Hb.
    unfold el_id. rewrite Hn1, lookup_app_l by done.
    unfold has_id in Hid. destruct (nodes st !! n); [| done].
    by apply bool_decide_eq_false in Hid.
Qed.

(** *** The completion body runs once *)

(** Marks stay, and no completion body ran in between. *)
Definition keeps_completed (st st' : state) : Prop :=
  (∀ el, dataset_get_loaded el st = true → dataset_get_loaded el st' = true)
  ∧ completed (trace st') = completed (trace st).

(** Every completion body that ran did so once, and marked its element. *)
Definition completed_once (st : state) : Prop :=
  NoDup (completed (trace st))
  ∧ ∀ el, el ∈ completed (trace st) → dataset_get_loaded el st = true.

#[export] Instance keeps_completed_preorder : PreOrder keeps_completed.
Proof.
  split.
  - by intros st.
  - intros st1 st2 st3 [Hl1 Ht1] [Hl2 Ht2].
    split; [by auto | congruence].
Qed.

Lemma keeps_completed_once st st' :
  keeps_completed st st' → completed_once st → completed_once st'.
Proof.
  intros [Hl Ht] [Hnd Hc]. unfold completed_once. rewrite Ht.
  split; [done | by auto].
Qed.

Lemma keeps_same st st' :
  nodes st' = nodes st → trace st' = trace st → keeps_completed st st'.
Proof.
  intros Hn Ht. unfold keeps_completed, dataset_get_loaded.
  by rewrite Hn, Ht.
Qed.

Lemma keeps_log e st :
  (∀ el ch, e ≠ Completed el ch) → keeps_completed st (log e st).
Proof.
  intros He. split; [done |]. simpl. unfold completed.
  rewrite omap_app. simpl. destruct e; try by rewrite app_nil_r.
  by destruct (He el ch).
Qed.

Lemma keeps_more l st st' :
  nodes st' = nodes st ++ l → trace st' = trace st → keeps_completed st st'.
Proof.
  intros Hn Ht. split; [| by rewrite Ht].
  intros el. unfold dataset_get_loaded. rewrite Hn.
  destruct (nodes st !! el) as [e'|] eqn:He; [| done].
  by rewrite (lookup_app_l_Some _ _ _ _ He).
Qed.

Lemma keeps_create e st :
  keeps_completed st (createElement e st).2.
Proof. by eapply keeps_more. Qed.

Lemma keeps_alter f n st :
  (∀ e, loaded e = true → loaded (f e) = true) →
  keeps_completed st (set_nodes (alter f n) st).
Proof.
  intros Hf. split; [| done]. intros el. unfold dataset_get_loaded. simpl.
  destruct (decide (n = el)) as [->|Hne].
  - rewrite list_lookup_alter_eq. destruct (nodes st !! el); simpl; auto.
  - by rewrite list_lookup_alter_ne.
Qed.

Lemma keeps_advance r st : keeps_completed st (advance r st).
Proof.
  unfold advance. destruct (runs st !! r); [| reflexivity].
  etransitivity; [| by apply keeps_log]. by apply keeps_same.
Qed.

Lemma keeps_call cb st : keeps_completed st (call cb st).
Proof.
  apply (frame_call (λ _, True) keeps_completed).
  - intros e st' He. apply keeps_log. intros el ch ->. done.
  - apply keeps_advance.
  - intros i c st'. by apply keeps_same.
  - intros e st' _. etransitivity; [apply (keeps_create e) | by apply keeps_same].
  - apply queues_ok_True.
Qed.

Lemma keeps_publish i st : keeps_completed st (publish i st).
Proof.
  apply (frame_publish (λ _, True) keeps_completed).
  - intros e st' He. apply keeps_log. intros el ch ->. done.
  - apply keeps_advance.
  - intros j c st'. by apply keeps_same.
  - intros e st' _. etransitivity; [apply (keeps_create e) | by apply keeps_same].
  - intros. apply queues_ok_True.
  - apply queues_ok_True.
Qed.

Lemma keeps_load u opt_cb opt_name st :
  keeps_completed st (load call u opt_cb opt_name st).2.
Proof.
  apply (frame_load (λ _, True) keeps_completed).
  - intros e st' He. apply keeps_log. intros el ch ->. done.
  - intros j c st'. by apply keeps_same.
  - intros e st' _. etransitivity; [apply (keeps_create e) | by apply keeps_same].
  - apply keeps_call.
Qed.

Lemma keeps_eval t opt_cb st : keeps_completed st (eval call t opt_cb st).
Proof.
  apply (frame_eval (λ _, True) keeps_completed); [| | done | apply keeps_call].
  - intros e st' He. apply keeps_log. intros el ch ->. done.
  - intros e st' _. etransitivity; [apply (keeps_create e) | by apply keeps_same].
Qed.

Lemma keeps_execute result opt_fn st :
  keeps_completed st (execute result opt_fn st).
Proof.
  unfold execute. case_bool_decide.
  - destruct opt_fn; [by apply keeps_log | reflexivity].
  - etransitivity; [| apply (keeps_call (GetNextScript _))].
    by apply keeps_same.
Qed.

Lemma unload__same els st :
  nodes (state_of (unload_ els st)) = nodes st
  ∧ trace (state_of (unload_ els st)) = trace st
  ∧ timers (state_of (unload_ els st)) = timers st
  ∧ runs (state_of (unload_ els st)) = runs st.
Proof.
  revert st. induction els as [|el els IH]; intros st; simpl; [done |].
  case_bool_decide; [| done].
  by destruct (IH (removeChild el (clear (el_id el st) st))) as (-> & -> & -> & ->).
Qed.

Lemma keeps_unload u st : keeps_completed st (state_of (unload u st)).
Proof.
  unfold unload. destruct (getElementById _ _) as [el|]; [| reflexivity].
  destruct (unload__same [el] st) as (Hn & Ht & _). by apply keeps_same.
Qed.

Lemma keeps_prefetch u st : keeps_completed st (state_of (prefetch u st)).
Proof.
  unfold prefetch. destruct (getElementById _ _); [reflexivity |].
  destruct (getElementById _ _) as [f|].
  - destruct (is_iframe f st); [| reflexivity].
    destruct (frame_getElementById _ _ _); [reflexivity |].
    by apply keeps_same.
  - simpl. by eapply keeps_more.
Qed.

Lemma keeps_preexecute_at items st :
  keeps_completed st (state_of (preexecute_at items st)).
Proof.
  revert st. induction items as [|it rest IH]; intros st; simpl; [reflexivity |].
  case_bool_decide; [| apply IH].
  pose proof (keeps_prefetch (url it) st) as Hp.
  destruct (prefetch (url it) st) as [st'|st']; simpl in *; [| done].
  etransitivity; [exact Hp | apply IH].
Qed.

Lemma keeps_prefetch_ u i f st : keeps_completed st (prefetch_ u i f st).
Proof.
  unfold prefetch_. simpl.
  etransitivity; [| by apply keeps_alter].
  etransitivity; [| by apply keeps_log].
  destruct IS_IE; simpl.
  - eapply keeps_more; [| done]. simpl. by rewrite <- (assoc_L (++)).
  - by eapply keeps_more.
Qed.

Lemma load_fn_cases el st :
  (nodes st !! el ≫= onload = None ∧ load_fn el st = st)
  ∨ (dataset_get_loaded el st = true ∧ load_fn el st = st)
  ∨ ∃ w st',
      nodes st !! el ≫= onload = Some w
      ∧ dataset_get_loaded el st = false
      ∧ nodes st' = alter mark_loaded el (nodes st)
      ∧ trace st' = trace st ++ [Completed el (channel w)]
      ∧ timers st' = timers st ∧ runs st' = runs st
      ∧ (load_fn el st = st'
         ∨ load_fn el st = clear (channel w) (publish (channel w) st')).
Proof.
  unfold load_fn. destruct (nodes st !! el ≫= onload) as [w|]; [| by left].
  destruct (dataset_get_loaded el st) eqn:Hl; [by right; left |].
  right; right.
  set (st1 := log (Completed el (channel w)) (dataset_set_loaded el st)).
  destruct (unload__same (scriptElsToRemove w) st1) as (Hn & Ht & Htm & Hr).
  exists w, (state_of (unload_ (scriptElsToRemove w) st1)).
  rewrite Hn, Ht, Htm, Hr.
  split; [done |]. split; [done |]. split; [done |]. split; [done |].
  split; [done |]. split; [done |].
  destruct (unload_ _ _); simpl; auto.
Qed.

Lemma load_fn_marks el st :
  is_Some (nodes st !! el ≫= onload) →
  dataset_get_loaded el (load_fn el st) = true.
Proof.
  intros [w Hw].
  destruct (load_fn_cases el st)
    as [[Hn _]|[[Hl ->]|(w' & st' & _ & Hl & Hn & Ht & _ & _ & Heq)]];
    [congruence | done |].
  assert (Hl' : dataset_get_loaded el st' = true).
  { unfold dataset_get_loaded. rewrite Hn, list_lookup_alter_eq.
    destruct (nodes st !! el); [done | by simpl in Hw]. }
  destruct Heq as [-> | ->]; [done |].
  by apply (keeps_publish (channel w') st').
Qed.




Lemma load_fn_idempotent el st : load_fn el (load_fn el st) = load_fn el st.
Proof.
  destruct (nodes st !! el ≫= onload) as [w|] eqn:Hw.
  - apply load_fn_loaded, load_fn_marks. by rewrite Hw.
  - unfold load_fn at 2. rewrite Hw. unfold load_fn. by rewrite Hw.
Qed.

Lemma load_fn_once el st : completed_once st → completed_once (load_fn el st).
Proof.
  intros Hc.
  destruct (load_fn_cases el st)
    as [[_ ->]|[[_ ->]|(w & st' & Hw & Hl & Hn & Ht & _ & _ & Heq)]];
    [done | done |].
  assert (Hc' : completed_once st').
  { destruct Hc as [Hnd Hc]. unfold completed_once, completed.
    rewrite Ht, omap_app. simpl. split.
    - apply NoDup_app. split; [done | split; [| apply NoDup_singleton]].
      intros n Hin ->%list_elem_of_singleton.
      apply Hc in Hin. congruence.
    - intros n [Hin| ->%list_elem_of_singleton]%elem_of_app.
      + apply Hc in Hin. unfold dataset_get_loaded in *. rewrite Hn.
        destruct (decide (el = n)) as [->|Hne].
        * rewrite list_lookup_alter_eq. by destruct (nodes st !! n).
        * by rewrite list_lookup_alter_ne.
      + unfold dataset_get_loaded. rewrite Hn, list_lookup_alter_eq.
        destruct (nodes st !! el); [done | by simpl in Hw]. }
  destruct Heq as [-> | ->]; [done |].
  eapply keeps_completed_once; [| exact Hc'].
  etransitivity; [apply keeps_publish | by apply keeps_same].
Qed.

Lemma step_once a st : completed_once st → completed_once (step a st).
Proof.
  intros Hc. destruct a; simpl.
  - eapply keeps_completed_once; [apply keeps_load | done].
  - eapply keeps_completed_once; [apply keeps_unload | done].
  - eapply keeps_completed_once; [apply keeps_prefetch | done].
  - eapply keeps_completed_once; [apply keeps_execute | done].
  - eapply keeps_completed_once; [apply keeps_preexecute_at | done].
  - eapply keeps_completed_once; [apply keeps_eval | done].
  - destruct (fire_onload_timers el st) as [->| ->]; [done |].
    eapply keeps_completed_once; [| exact Hc]. by apply keeps_same.
  - unfold fire_onreadystatechange. case_if; [| done].
    destruct (fire_onload_timers el st) as [->| ->]; [done |].
    eapply keeps_completed_once; [| exact Hc]. by apply keeps_same.
  - unfold tick. destruct (timers st) as [|t q]; [done |].
    assert (Hc' : completed_once (set_timers (λ _, q) st)) by done.
    destruct t as [el|u i f]; simpl.
    + by apply load_fn_once.
    + case_if; [| done].
      eapply keeps_completed_once; [apply keeps_prefetch_ | done].
Qed.

(** C4: whatever the page calls and whatever the browser signals, and
    however often, no completion body runs twice for one element: in the
    trace of every run that starts from a state where this holds, each
    element is completed at most once, and is marked as loaded when it is.
    Calling the completion function of an element a second time changes
    nothing. *)
Theorem completion_body_once st l :
  completed_once st →
  completed_once (steps l st)
  ∧ NoDup (completed (trace (steps l st)))
  ∧ ∀ el, load_fn el (load_fn el (steps l st)) = load_fn el (steps l st).
Proof.
  intros Hc.
  assert (H : completed_once (steps l st)).
  { revert st Hc. induction l as [|a l IH]; intros st Hc; [done |].
    rewrite steps_cons. by apply IH, step_once. }
  split; [done |]. split; [by destruct H |].
  intros el. apply load_fn_idempotent.
Qed.

(** *** Unloading a script that is being loaded *)

Lemma unload__subscribers els st i :
  subscribers i st = [] → subscribers i (state_of (unload_ els st)) = [].
Proof.
  revert st. induction els as [|el els IH]; intros st Hs; simpl; [done |].
  assert (Hc : subscribers i (clear (el_id el st) st) = []).
  { rewrite subscribers_clear. by case_decide. }
  case_bool_decide; [| done]. by apply IH.
Qed.

(** What holds from the unloading on, under the signals of the element:
    its channel has no subscriber, only its own completion function is
    queued, no function is called and no cursor of [execute] moves. *)
Definition abandoned (u : string) (el : nat) (fns : list nat)
    (rs : list run) (st : state) : Prop :=
  subscribers (script_id u) st = []
  ∧ Forall (λ t, t = LoadFn el) (timers st)
  ∧ called (trace st) = fns
  ∧ runs st = rs
  ∧ ∀ w, nodes st !! el ≫= onload = Some w → channel w = script_id u.

Lemma abandoned_load_fn u el fns rs st :
  abandoned u el fns rs st → abandoned u el fns rs (load_fn el st).
Proof.
  intros (Hs & Ht & Hc & Hr & Hw).
  destruct (load_fn_cases el st)
    as [[_ ->]|[[_ ->]|(w & st' & Hw' & Hl & Hn & Htr & Htm & Hrs & Heq)]];
    [done | done |].
  unfold load_fn in Heq |- *. rewrite Hw', Hl in Heq |- *. clear Heq.
  set (st1 := log (Completed el (channel w)) (dataset_set_loaded el st)).
  pose proof (unload__subscribers (scriptElsToRemove w) st1 (script_id u) Hs)
    as Hs1.
  destruct (unload__same (scriptElsToRemove w) st1) as (Hn1 & Ht1 & Htm1 & Hr1).
  assert (Hab : abandoned u el fns rs (state_of (unload_ (scriptElsToRemove w) st1))).
  { split; [done |]. rewrite Htm1, Ht1, Hr1, Hn1. simpl.
    split; [done |]. split.
    - unfold called. rewrite omap_app. simpl. by rewrite app_nil_r.
    - split; [done |]. intros w0. rewrite list_lookup_alter_eq.
      intros Hw0. apply Hw. by destruct (nodes st !! el). }
  destruct (unload_ _ _) as [s|s]; simpl in *; [| done].
  destruct Hab as (Hs2 & Ht2 & Hc2 & Hr2 & Hw2).
  rewrite (Hw w Hw'). unfold publish. rewrite Hs2. simpl.
  split; [| done]. unfold subscribers, clear; simpl. by rewrite lookup_delete_eq.
Qed.

Lemma abandoned_signals u el fns rs more st :
  Forall (signal el) more →
  abandoned u el fns rs st → abandoned u el fns rs (steps more st).
Proof.
  intros Hmore. revert st.
  induction Hmore as [|a more Ha _ IH]; intros st Hab; [done |].
  rewrite steps_cons. apply IH.
  assert (Hon : abandoned u el fns rs (fire_onload el st)).
  { destruct (fire_onload_timers el st) as [->| ->]; [done |].
    destruct Hab as (Hs & Ht & Hc & Hr & Hw).
    split; [done |]. split; [| done]. simpl.
    apply Forall_app. split; [done |]. by constructor. }
  destruct a as [| | | | | |el'|el' rs'|]; simpl in Ha; try done; subst;
    unfold step.
  - done.
  - unfold fire_onreadystatechange. by case_if.
  - unfold tick. destruct (timers st) as [|t q] eqn:Hq; [done |].
    destruct Hab as (Hs & Ht & Hc & Hr & Hw).
    rewrite Hq in Ht. apply Forall_cons in Ht as [-> Ht]. simpl.
    by apply abandoned_load_fn.
Qed.

(** C5: unloading a url whose element is attached and not marked clears
    the pending callbacks of the url and detaches the element; when the
    completion signals of the element arrive afterwards, in any number,
    or its completion function was already queued, no function is called,
    no queue of [execute] goes on, and the channel of the url stays
    empty. *)
Theorem unload_while_loading st u el more :
  wf st →
  getElementById (script_id u) st = Some el →
  dataset_get_loaded el st = false →
  Forall (λ t, t = LoadFn el) (timers st) →
  Forall (signal el) more →
  ∃ st',
    unload u st = Normal st'
    ∧ subscribers (script_id u) st' = []
    ∧ (el ∉ document st')
    ∧ called (trace (steps more st')) = called (trace st)
    ∧ runs (steps more st') = runs st
    ∧ subscribers (script_id u) (steps more st') = [].
Proof.
  intros Hwf Hel Hl Htm Hmore.
  destruct (getElementById_Some _ _ _ Hel) as [Hin Hid].
  unfold unload. rewrite Hel. simpl.
  change (document (clear (el_id el st) st)) with (document st).
  rewrite bool_decide_eq_true_2 by done.
  eexists. split; [reflexivity |].
  set (st' := removeChild el (clear (el_id el st) st)).
  assert (Hab : abandoned u el (called (trace st)) (runs st) st').
  { split; [| split; [| split; [| split]]]; try done.
    - unfold st', subscribers; simpl. rewrite Hid. by rewrite lookup_delete_eq.
    - intros w Hw. simpl in Hw. destruct Hwf as (_ & _ & Hok).
      destruct (nodes st !! el) as [e|] eqn:He; [| done]. simpl in Hw.
      eapply Forall_lookup_1 in Hok; [| exact He].
      unfold wiring_ok in Hok. rewrite Hw in Hok. rewrite Hok.
      unfold el_id in Hid. by rewrite He in Hid. }
  pose proof (abandoned_signals _ _ _ _ _ _ Hmore Hab) as (Hs & _ & Hc & Hr & _).
  destruct Hab as (Hs' & _).
  split; [done |]. split; [| done].
  unfold st'. simpl. intros [Hne _]%list_elem_of_filter. done.
Qed.

(** *** Prefetching *)

Lemma pretty_N_go_ne_p x s s' :
  s ≠ String "p" s' → pretty_N_go x s ≠ String "p" s'.
Proof.
  revert s. induction (N.lt_wf_0 x) as [x _ IH]; intros s Hs.
  assert (x = 0 ∨ 0 < x)%N as [->|Hx] by lia.
  - by rewrite pretty_N_go_0.
  - rewrite pretty_N_go_step by done. apply IH.
    + by apply N.div_lt.
    + unfold pretty_N_char. by repeat case_match.
Qed.

(** The id of a script element is never the id of the prefetch iframe. *)
Lemma script_id_not_prefetch u : script_id u ≠ ID_PREFIX +:+ "prefetch".
Proof.
  unfold script_id, ID_PREFIX. simpl. intros [= H]. revert H.
  unfold pretty, pretty_Z. destruct (hashCode u) as [|p|p]; [done | | done].
  unfold pretty, pretty_positive, pretty, pretty_N.
  case_decide; [done |]. by apply pretty_N_go_ne_p.
Qed.

Lemma filter_has_id i st st' (d : list nat) :
  (∀ n, n ∈ d → has_id st' i n = has_id st i n) →
  filter (λ n, has_id st' i n = true) d = filter (λ n, has_id st i n = true) d.
Proof.
  intros H. induction d as [|n d IH]; [done |].
  rewrite !filter_cons, (H n) by left.
  rewrite IH; [done |]. intros m Hm. apply H. by right.
Qed.

Lemma getElementById_same i st st' :
  document st' = document st →
  (∀ n, n ∈ document st → has_id st' i n = has_id st i n) →
  getElementById i st' = getElementById i st.
Proof.
  unfold getElementById. intros -> H. f_equal. by apply filter_has_id.
Qed.

Lemma getElementById_append i st st' f :
  document st' = document st ++ [f] →
  has_id st' i f = false →
  (∀ n, n ∈ document st → has_id st' i n = has_id st i n) →
  getElementById i st' = getElementById i st.
Proof.
  unfold getElementById. intros -> Hf H. rewrite filter_app.
  rewrite filter_cons_False, filter_nil, app_nil_r by congruence.
  f_equal. by apply filter_has_id.
Qed.

Lemma has_id_prefetch_ u i f st j n :
  (n < length (nodes st))%nat →
  has_id (prefetch_ u i f st) j n = has_id st j n.
Proof.
  intros Hn. unfold has_id, prefetch_. simpl.
  assert (Hlook : ∀ l, (nodes st ++ l) !! n = nodes st !! n)
    by (intros l; by apply lookup_app_l).
  destruct (lookup_lt_is_Some_2 _ _ Hn) as [e He].
  assert (Hgoal : ∀ l o,
            match alter (appendChild o) f (nodes st ++ l) !! n with
            | Some e0 => bool_decide (id e0 = j)
            | None => false
            end = match nodes st !! n with
                  | Some e0 => bool_decide (id e0 = j)
                  | None => false
                  end).
  { intros l o. destruct (decide (f = n)) as [->|Hne].
    - by rewrite list_lookup_alter_eq, Hlook, He.
    - by rewrite list_lookup_alter_ne, Hlook. }
  destruct IS_IE; simpl; [rewrite <- (assoc_L (++)) |]; apply Hgoal.
Qed.

Lemma prefetch__primary u i f st :
  document (prefetch_ u i f st) = document st
  ∧ fetched (trace (prefetch_ u i f st)) = fetched (trace st)
  ∧ timers (prefetch_ u i f st) = timers st.
Proof.
  unfold prefetch_. simpl. unfold fetched.
  destruct IS_IE; simpl; rewrite omap_app; simpl; by rewrite app_nil_r.
Qed.

(** Prefetching a url and letting the timer fire issues no request in the
    document itself and leaves the lookup of the url's element as it
    was. *)
Lemma prefetch_tick_primary st u :
  wf st → timers st = [] →
  fetched (trace (tick (state_of (prefetch u st)))) = fetched (trace st)
  ∧ getElementById (script_id u) (tick (state_of (prefetch u st)))
    = getElementById (script_id u) st.
Proof.
  intros (Hnd & Hb & _) Htm.
  assert (Hidle : tick st = st) by (unfold tick; by rewrite Htm).
  assert (Hlt : ∀ n, n ∈ document st → (n < length (nodes st))%nat).
  { intros n Hn. by eapply Forall_forall in Hb. }
  unfold prefetch. destruct (getElementById (script_id u) st) eqn:Hs;
    [simpl; by rewrite Hidle, Hs |].
  destruct (getElementById (ID_PREFIX +:+ "prefetch") st) as [f|].
  - destruct (is_iframe f st) eqn:Hf; [| simpl; by rewrite Hidle, Hs].
    destruct (frame_getElementById _ _ _); [simpl; by rewrite Hidle, Hs |].
    simpl. unfold tick. simpl. rewrite Htm. simpl.
    change (is_iframe f (set_timers _ _)) with (is_iframe f st). rewrite Hf.
    destruct (prefetch__primary u (script_id u) f
                (set_timers (λ _, []) (setTimeout (PrefetchFn u (script_id u) f) st)))
      as (Hd & Hfe & _).
    split; [done |]. rewrite <- Hs.
    apply getElementById_same; [done |].
    intros n Hn. rewrite has_id_prefetch_; [done | by apply Hlt].
  - simpl. unfold tick. simpl. rewrite Htm. simpl.
    set (st0 := set_timers _ _).
    assert (Hif : is_iframe (length (nodes st)) st0 = true).
    { unfold is_iframe. simpl. by rewrite list_lookup_middle. }
    rewrite Hif.
    destruct (prefetch__primary u (script_id u) (length (nodes st)) st0)
      as (Hd & Hfe & _).
    split; [done |]. rewrite <- Hs.
    apply (getElementById_append _ _ _ (length (nodes st))); [done | |].
    + rewrite has_id_prefetch_ by (simpl; rewrite length_app; simpl; lia).
      unfold has_id. simpl. rewrite list_lookup_middle by done. simpl.
      apply bool_decide_eq_false_2. intros Heq.
      by apply (script_id_not_prefetch u).
    + intros n Hn. specialize (Hlt n Hn).
      rewrite has_id_prefetch_ by (simpl; rewrite length_app; simpl; lia).
      unfold has_id. simpl. by rewrite lookup_app_l.
Qed.

(** C7: prefetching a url and letting its timer fire issues no request
    in the document itself, and a request for the url that follows issues
    one there when the url had no element in the document and none when it
    had: after the prefetch the document sees at most one request for the
    url, never a second. *)
Theorem load_after_prefetch st u opt_fn opt_name :
  wf st →
  timers st = [] →
  fetched (trace (tick (state_of (prefetch u st)))) = fetched (trace st)
  ∧ fetched (trace (load call u (Fn <$> opt_fn) opt_name
                      (tick (state_of (prefetch u st)))).2)
    = fetched (trace st)
      ++ match getElementById (script_id u) st with
         | Some _ => []
         | None => [u]
         end.
Proof.
  intros Hwf Htm. destruct (prefetch_tick_primary st u Hwf Htm) as [Hf Hg].
  split; [done |]. set (st1 := tick (state_of (prefetch u st))) in *.
  rewrite <- Hg, <- Hf.
  destruct (getElementById (script_id u) st1) as [el|] eqn:Hel.
  - destruct (dataset_get_loaded el st1) eqn:Hl.
    + rewrite (load_loaded _ _ _ _ _ _ Hel Hl).
      unfold fetched. destruct opt_fn; simpl; rewrite !omap_app; simpl;
        by rewrite !app_nil_r.
    + rewrite (load_loading _ _ _ _ _ _ Hel Hl).
      unfold fetched. destruct opt_fn; simpl; rewrite !omap_app; simpl;
        by rewrite !app_nil_r.
  - destruct (load_absent_state call u (Fn <$> opt_fn) opt_name st1 Hel)
      as (_ & _ & _ & _ & _ & -> & _).
    unfold fetched. by rewrite omap_app.
Qed.

(** C8: when the url already has an element in the document, or the
    prefetch iframe is there and its own document already has an element
    for the url, [prefetch] returns with the state unchanged: no element is
    created, no timer is set and no request is issued. *)
Theorem prefetch_again st u :
  is_Some (getElementById (script_id u) st)
  ∨ (∃ f, getElementById (ID_PREFIX +:+ "prefetch") st = Some f
          ∧ is_iframe f st = true
          ∧ is_Some (frame_getElementById (script_id u) f st)) →
  prefetch u st = Normal st.
Proof.
  unfold prefetch. intros [[el ->]|(f & -> & -> & [o ->])]; [done |].
  by destruct (getElementById (script_id u) st).
Qed.

(** *** Items with a url and a text *)

Definition evals_of (t : string) (tr : list event) : list string :=
  filter (λ t', t' = t) (evaluated tr).

(** As long as no queued item without a url has the text [t], none gets
    queued and [t] is evaluated no more often than it was. *)
Definition keeps_text (t : string) (st st' : state) : Prop :=
  queues_ok (λ t', t' ≠ t) st →
  queues_ok (λ t', t' ≠ t) st'
  ∧ evals_of t (trace st') = evals_of t (trace st).

#[export] Instance keeps_text_preorder t : PreOrder (keeps_text t).
Proof.
  split.
  - by intros st.
  - intros st1 st2 st3 H1 H2 Hq.
    destruct (H1 Hq) as [Hq2 He2]. destruct (H2 Hq2) as [Hq3 He3].
    split; [done | congruence].
Qed.

Lemma keeps_text_same t st st' :
  runs st' = runs st → evaluated (trace st') = evaluated (trace st) →
  keeps_text t st st'.
Proof.
  intros Hr He. unfold keeps_text, queues_ok, evals_of. by rewrite Hr, He.
Qed.

Lemma keeps_text_log t e st :
  event_ok (λ t', t' ≠ t) e ∨ (∃ el ch, e = Completed el ch) →
  keeps_text t st (log e st).
Proof.
  intros He Hq. split; [done |]. unfold evals_of, evaluated. simpl.
  rewrite omap_app, filter_app. simpl.
  destruct e; simpl; rewrite ?filter_nil, ?app_nil_r; try done.
  rewrite filter_cons_False, filter_nil, app_nil_r; [done |].
  destruct He as [He|(el & ch & He)]; [done | discriminate].
Qed.

Lemma keeps_text_step t r st :
  keeps_text t st (advance r st).
Proof.
  unfold advance. destruct (runs st !! r) as [cr|] eqn:Hcr; [| reflexivity].
  etransitivity; [| apply keeps_text_log; by left].
  intros Hq. split; [| done]. intros c Hc. simpl in Hc.
  apply list_elem_of_lookup in Hc as [k Hk].
  destruct (decide (r = k)) as [->|Hne].
  - rewrite list_lookup_alter_eq in Hk.
    destruct (runs st !! k) as [c0|] eqn:Hc0; [| done].
    injection Hk as <-. simpl. apply Hq. by eapply list_elem_of_lookup_2.
  - rewrite list_lookup_alter_ne in Hk by done.
    apply Hq. by eapply list_elem_of_lookup_2.
Qed.

Lemma keeps_text_call t cb st : keeps_text t st (call cb st).
Proof.
  intros Hq. assert (H : keeps_text t st (call cb st)); [| by apply H].
  apply (frame_call (λ t', t' ≠ t) (keeps_text t)); [| | | | done].
  - intros e st' He. apply keeps_text_log. by left.
  - apply keeps_text_step.
  - intros i c st'. by apply keeps_text_same.
  - intros e st' _. by apply keeps_text_same.
Qed.

Lemma keeps_text_publish t i st : keeps_text t st (publish i st).
Proof.
  intros Hq. assert (H : keeps_text t st (publish i st)); [| by apply H].
  apply (frame_publish (λ t', t' ≠ t) (keeps_text t)); [| | | | | done].
  - intros e st' He. apply keeps_text_log. by left.
  - apply keeps_text_step.
  - intros j c st'. by apply keeps_text_same.
  - intros e st' _. by apply keeps_text_same.
  - intros st1 st2 H Hq1. by destruct (H Hq1).
Qed.

Lemma keeps_text_load t u opt_cb opt_name st :
  keeps_text t st (load call u opt_cb opt_name st).2.
Proof.
  apply (frame_load (λ t', t' ≠ t) (keeps_text t)).
  - intros e st' He. apply keeps_text_log. by left.
  - intros j c st'. by apply keeps_text_same.
  - intros e st' _. by apply keeps_text_same.
  - apply keeps_text_call.
Qed.

Lemma keeps_text_eval t t' opt_cb st :
  t' ≠ t → keeps_text t st (eval call t' opt_cb st).
Proof.
  intros Hne.
  apply (frame_eval (λ t', t' ≠ t) (keeps_text t));
    [| | done | apply keeps_text_call].
  - intros e st' He. apply keeps_text_log. by left.
  - intros e st' _. by apply keeps_text_same.
Qed.

Lemma keeps_text_execute t result opt_fn st :
  Forall (item_ok (λ t', t' ≠ t)) (queue result) →
  keeps_text t st (execute result opt_fn st).
Proof.
  intros Hok. unfold execute. case_bool_decide.
  - destruct opt_fn; simpl; [| reflexivity]. apply keeps_text_log. by left.
  - etransitivity; [| apply (keeps_text_call t (GetNextScript _))].
    intros Hq. split; [| done]. intros c Hc. simpl in Hc.
    apply elem_of_app in Hc as [Hc| ->%list_elem_of_singleton]; [by apply Hq | done].
Qed.

Lemma keeps_text_load_fn t el st : keeps_text t st (load_fn el st).
Proof.
  destruct (load_fn_cases el st)
    as [[_ ->]|[[_ ->]|(w & st' & _ & _ & _ & Ht & _ & Hr & Heq)]];
    [done | done |].
  assert (H : keeps_text t st st').
  { intros Hq. unfold queues_ok, evals_of, evaluated. rewrite Hr, Ht, omap_app.
    simpl. by rewrite app_nil_r. }
  destruct Heq as [-> | ->]; [done |].
  etransitivity; [exact H |].
  etransitivity; [apply keeps_text_publish | by apply keeps_text_same].
Qed.

Lemma prefetch_same u st :
  runs (state_of (prefetch u st)) = runs st
  ∧ trace (state_of (prefetch u st)) = trace st.
Proof.
  unfold prefetch. destruct (getElementById _ _); [done |].
  destruct (getElementById _ _) as [f|]; [| done].
  destruct (is_iframe f st); [| done].
  by destruct (frame_getElementById _ _ _).
Qed.

Lemma preexecute_at_same items st :
  runs (state_of (preexecute_at items st)) = runs st
  ∧ trace (state_of (preexecute_at items st)) = trace st.
Proof.
  revert st. induction items as [|it rest IH]; intros st; simpl; [done |].
  case_bool_decide; [| apply IH].
  destruct (prefetch_same (url it) st) as [Hr Ht].
  destruct (prefetch (url it) st) as [st'|st']; simpl in *; [| done].
  destruct (IH st') as [-> ->]. done.
Qed.

(** The actions that do not ask for the text [t] to be evaluated. *)
Definition action_ok (t : string) (a : action) : Prop :=
  match a with
  | DoEval t' _ => t' ≠ t
  | DoExecute result _ => Forall (item_ok (λ t', t' ≠ t)) (queue result)
  | _ => True
  end.

Lemma keeps_text_action t a st : action_ok t a → keeps_text t st (step a st).
Proof.
  destruct a; simpl; intros Ha.
  - apply keeps_text_load.
  - unfold unload. destruct (getElementById _ _) as [el|]; [| reflexivity].
    destruct (unload__same [el] st) as (_ & Ht & _ & Hr).
    apply keeps_text_same; [done | by rewrite Ht].
  - destruct (prefetch_same u st) as [Hr Ht].
    apply keeps_text_same; [done | by rewrite Ht].
  - by apply keeps_text_execute.
  - destruct (preexecute_at_same (queue result) st) as [Hr Ht].
    unfold preexecute. apply keeps_text_same; [done | by rewrite Ht].
  - by apply keeps_text_eval.
  - destruct (fire_onload_timers el st) as [->| ->];
      [reflexivity | by apply keeps_text_same].
  - unfold fire_onreadystatechange. case_if; [| reflexivity].
    destruct (fire_onload_timers el st) as [->| ->];
      [reflexivity | by apply keeps_text_same].
  - unfold tick. destruct (timers st) as [|tk q]; [reflexivity |].
    etransitivity; [apply (keeps_text_same t st (set_timers (λ _, q) st)); done |].
    destruct tk as [el|u i f]; simpl; [apply keeps_text_load_fn |].
    case_if; [| reflexivity]. apply keeps_text_same.
    + unfold prefetch_. by destruct IS_IE.
    + unfold prefetch_, evaluated. destruct IS_IE; simpl;
        rewrite omap_app; simpl; by rewrite app_nil_r.
Qed.

Lemma keeps_text_actions t l st :
  Forall (action_ok t) l → keeps_text t st (steps l st).
Proof.
  intros Hl. revert st. induction Hl as [|a l Ha _ IH]; intros st; [reflexivity |].
  rewrite steps_cons. etransitivity; [by apply keeps_text_action | apply IH].
Qed.

(** The trace only grows. *)
Definition trace_grows (st st' : state) : Prop :=
  ∃ evs, trace st' = trace st ++ evs.

#[export] Instance trace_grows_preorder : PreOrder trace_grows.
Proof.
  split.
  - intros st. exists []. by rewrite app_nil_r.
  - intros st1 st2 st3 [l1 H1] [l2 H2]. exists (l1 ++ l2).
    by rewrite H2, H1, (assoc_L (++)).
Qed.

Lemma trace_grows_same st st' : trace st' = trace st → trace_grows st st'.
Proof. intros H. exists []. by rewrite app_nil_r. Qed.

Lemma trace_grows_advance r st : trace_grows st (advance r st).
Proof. unfold advance. destruct (runs st !! r); [by eexists | reflexivity]. Qed.

Lemma trace_grows_getNextScript_at r opt_fn items st :
  trace_grows st (getNextScript_at r opt_fn items st).
Proof.
  apply (frame_getNextScript_at (λ _, True) trace_grows).
  - intros e st' _. by exists [e].
  - apply trace_grows_advance.
  - intros i c st'. by apply trace_grows_same.
  - intros e st' _. by apply trace_grows_same.
  - apply Forall_forall. by intros it _ _ _.
Qed.

Lemma load_trace k u opt_cb opt_name st :
  (∀ cb s, trace_grows s (k cb s)) →
  ∃ evs, trace (load k u opt_cb opt_name st).2 = trace st ++ LoadCall u :: evs.
Proof.
  intros Hk.
  destruct (getElementById (script_id u) st) as [el|] eqn:Hel.
  - destruct (dataset_get_loaded el st) eqn:Hl.
    + rewrite (load_loaded _ _ _ _ _ _ Hel Hl). simpl.
      destruct opt_cb as [cb|]; simpl.
      * destruct (Hk cb (log (LoadCall u) st)) as [evs ->]. simpl.
        exists evs. by rewrite <- (assoc_L (++)).
      * by exists [].
    + rewrite (load_loading _ _ _ _ _ _ Hel Hl). simpl.
      destruct opt_cb; by exists [].
  - destruct (load_absent_state k u opt_cb opt_name st Hel)
      as (_ & _ & _ & _ & _ & -> & _).
    by exists [Fetch true u].
Qed.

(** C10: an item with a url is dispatched by a call of [load] for that
    url, whatever its text; and as long as every queued item with the text
    [t] has a url and the page does not evaluate [t] itself, [t] is never
    evaluated, however the run goes on. *)
Theorem url_before_text t st l :
  queues_ok (λ t', t' ≠ t) st →
  Forall (action_ok t) l →
  evals_of t (trace (steps l st)) = evals_of t (trace st)
  ∧ ∀ r opt_fn it rest s,
      url it ≠ "" →
      getNextScript_at r opt_fn (it :: rest) s
      = (load (λ _ s', getNextScript_at r opt_fn rest (advance r s'))
           (url it) (Some (GetNextScript r)) (Some (name it)) s).2
      ∧ ∃ evs, trace (getNextScript_at r opt_fn (it :: rest) s)
               = trace s ++ LoadCall (url it) :: evs.
Proof.
  intros Hq Hl. split; [by apply (keeps_text_actions t l st Hl) |].
  intros r opt_fn it rest s Hu.
  rewrite getNextScript_at_cons. cbv zeta.
  rewrite bool_decide_eq_true_2 by done. split; [done |].
  apply load_trace. intros _ s'.
  etransitivity; [| apply trace_grows_getNextScript_at].
  apply trace_grows_advance.
Qed.

(** *** Executing a queue in order *)

(** The runs of [execute] whose closure is subscribed on a channel. *)
Definition conts (subs : gmap string (list callback)) (ch : string) : list nat :=
  omap (λ cb, match cb with GetNextScript r => Some r | Fn _ => None end)
    (default [] (subs !! ch)).


(** The item is complete by the end of the trace: a completion body ran
    for an element that carries the id of its url; or, for an item without
    a url, its text was evaluated; an empty item is complete as it is. *)
Definition done_before (tr : list event) (it : item) : Prop :=
  if bool_decide (url it ≠ "")
  then ∃ el, Completed el (script_id (url it)) ∈ tr
  else if bool_decide (text it ≠ "") then Evaluated (text it) ∈ tr
  else True.




(** The run [r] waits for the url of the item under its cursor. *)
Definition waiting_at (rs : list run) (r : nat) (ch : string) : Prop :=
  ∃ c it, rs !! r = Some c ∧ 0 ≤ index c
          ∧ run_queue c !! Z.to_nat (index c) = Some it
          ∧ url it ≠ "" ∧ script_id (url it) = ch.

(** On every channel but the one being published, a run is subscribed at
    most once, and only where it waits. *)
Definition subs_ok (ex : option string) (subs : gmap string (list callback))
    (rs : list run) : Prop :=
  ∀ ch, ex ≠ Some ch →
    NoDup (conts subs ch) ∧ ∀ r, r ∈ conts subs ch → waiting_at rs r ch.






Lemma done_before_mono tr evs it :
  done_before tr it → done_before (tr ++ evs) it.
Proof.
  unfold done_before. repeat case_bool_decide; [| | done].
  - intros [el Hel]. exists el. apply elem_of_app. by left.
  - intros Hev. apply elem_of_app. by left.
Qed.











Lemma conts_delete subs i ch :
  conts (delete i subs) ch = if decide (i = ch) then [] else conts subs ch.
Proof.
  unfold conts. rewrite lookup_delete. by destruct (decide (i = ch)).
Qed.

Lemma waiting_at_runs rs rs' r ch :
  (∀ c, rs !! r = Some c → rs' !! r = Some c) →
  waiting_at rs r ch → waiting_at rs' r ch.
Proof. intros H (c & it & Hc & ?). exists c, it. split; [by apply H | done]. Qed.

Lemma subs_ok_sub ex subs subs' rs rs' :
  subs_ok ex subs rs →
  (∀ ch, ex ≠ Some ch → conts subs' ch `sublist_of` conts subs ch) →
  (∀ ch r c, ex ≠ Some ch → r ∈ conts subs' ch →
             rs !! r = Some c → rs' !! r = Some c) →
  subs_ok ex subs' rs'.
Proof.
  intros Hok Hsub Hrs ch Hex. destruct (Hok ch Hex) as [Hnd Hw].
  specialize (Hsub ch Hex).
  split; [by eapply sublist_NoDup |].
  intros r Hr. eapply waiting_at_runs; [intros c; by apply (Hrs ch r c) |].
  apply Hw. apply sublist_submseteq in Hsub.
  by eapply elem_of_submseteq.
Qed.




Lemma subs_ok_clear ex subs rs ch :
  subs_ok ex subs rs → subs_ok ex (delete ch subs) rs.
Proof.
  intros Hok. eapply subs_ok_sub; [exact Hok | | done].
  intros ch' _. rewrite conts_delete. case_decide; [apply sublist_nil_l | done].
Qed.



(** What a call of the closure of the run [r] leaves to the other runs:
    their cursors, the trace so far, and no new subscription. *)
Definition others_kept (ex : option string) (r : nat) (st st' : state) : Prop :=
  (∀ r', r' ≠ r → runs st' !! r' = runs st !! r')
  ∧ trace st `prefix_of` trace st'
  ∧ ∀ ch r', r' ≠ r → ex ≠ Some ch →
             r' ∈ conts (subscriptions st') ch → r' ∈ conts (subscriptions st) ch.

#[export] Instance others_kept_preorder ex r : PreOrder (others_kept ex r).
Proof.
  split.
  - intros st. by repeat split.
  - intros st1 st2 st3 (Hr1 & Ht1 & Hs1) (Hr2 & Ht2 & Hs2).
    split; [| split].
    + intros r' Hr'. by rewrite Hr2, Hr1.
    + by etransitivity.
    + intros ch r' Hr' Hex Hin. by apply Hs1, Hs2.
Qed.
































Lemma called_app tr evs : called (tr ++ evs) = called tr ++ called evs.
Proof. apply omap_app. Qed.




(** ** Further properties

    What follows covers the functions and the paths that the properties
    above leave aside: the exception of [unload_], [unload] followed by a
    new [load], the invariants of the document, queues that [execute]
    runs within the call, [prefetch] and [preexecute], urls with the same
    hash, and the parser on markup in general. *)

(** *** When [unload_] raises *)

Lemma unload__normal_attached els : ∀ st st',
  unload_ els st = Normal st' →
  NoDup els ∧ Forall (λ n, n ∈ document st) els.
Proof.
  induction els as [|el els IH]; intros st st' Hu; [by split; constructor |].
  simpl in Hu. case_bool_decide as Hin; [| done].
  change (document (clear (el_id el st) st)) with (document st) in Hin.
  destruct (IH _ _ Hu) as [Hnd Hall].
  assert (Hsub : Forall (λ n, n ∈ document st ∧ n ≠ el) els).
  { eapply Forall_impl; [exact Hall |]. simpl.
    intros n [? ?]%list_elem_of_filter. by split. }
  split.
  - apply NoDup_cons. split; [| done]. intros Hel.
    eapply Forall_forall in Hsub as [_ Hne]; [| exact Hel]. done.
  - apply Forall_cons. split; [done |].
    eapply Forall_impl; [exact Hsub |]. by intros n [? _].
Qed.

Lemma unload__document els : ∀ st n,
  n ∈ document (state_of (unload_ els st)) → n ∈ document st.
Proof.
  induction els as [|el els IH]; intros st n; simpl; [done |].
  case_bool_decide; [| done]. intros Hn. apply IH in Hn. simpl in Hn.
  by apply list_elem_of_filter in Hn as [_ Hn].
Qed.

(** X1.  [unload_] returns normally exactly when the elements it is
    given are distinct and attached; otherwise it raises.  Either way the
    store of elements, the trace, the timers and the cursors are as they
    were, and the document has lost elements at most. *)
Theorem unload__raises_iff els st :
  ((∃ st', unload_ els st = Normal st')
   ↔ NoDup els ∧ Forall (λ n, n ∈ document st) els)
  ∧ nodes (state_of (unload_ els st)) = nodes st
  ∧ trace (state_of (unload_ els st)) = trace st
  ∧ timers (state_of (unload_ els st)) = timers st
  ∧ runs (state_of (unload_ els st)) = runs st
  ∧ ∀ n, n ∈ document (state_of (unload_ els st)) → n ∈ document st.
Proof.
  split; [split |].
  - intros [st' Hu]. by eapply unload__normal_attached.
  - intros [Hnd Hall].
    destruct (unload__attached els st Hnd Hall) as (st' & Hu & _). by exists st'.
  - destruct (unload__same els st) as (Hn & Ht & Htm & Hr).
    split; [done |]. split; [done |]. split; [done |]. split; [done |].
    apply unload__document.
Qed.

Lemma unload__subscribers_other els i : ∀ st,
  Forall (λ n, el_id n st ≠ i) els →
  subscribers i (state_of (unload_ els st)) = subscribers i st.
Proof.
  induction els as [|el els IH]; intros st Hall; simpl; [done |].
  apply Forall_cons in Hall as [Hel Hall].
  assert (Hc : subscribers i (clear (el_id el st) st) = subscribers i st).
  { rewrite subscribers_clear. by rewrite decide_False. }
  case_bool_decide; [| done]. rewrite IH; [done |].
  eapply Forall_impl; [exact Hall |]. done.
Qed.

(** X2.  When an element captured for removal is detached by the time
    the load completes, or was captured twice, the completion body stops
    at the exception of [unload_]: the element is marked as loaded,
    nothing is published and no function is called; the callbacks pending
    on the channel stay subscribed, and since the element is marked no
    later signal delivers them.  The captured elements are those of a
    group, none of them the element of the url itself. *)
Theorem load_fn_raises st el w :
  nodes st !! el ≫= onload = Some w →
  dataset_get_loaded el st = false →
  ¬ (NoDup (scriptElsToRemove w)
     ∧ Forall (λ n, n ∈ document st) (scriptElsToRemove w)) →
  Forall (λ n, el_id n st ≠ channel w) (scriptElsToRemove w) →
  dataset_get_loaded el (load_fn el st) = true
  ∧ trace (load_fn el st) = trace st ++ [Completed el (channel w)]
  ∧ called (trace (load_fn el st)) = called (trace st)
  ∧ subscribers (channel w) (load_fn el st) = subscribers (channel w) st
  ∧ runs (load_fn el st) = runs st
  ∧ load_fn el (load_fn el st) = load_fn el st.
Proof.
  intros Hw Hl Hbad Hids.
  assert (Hmark : dataset_get_loaded el (load_fn el st) = true).
  { apply load_fn_marks. by rewrite Hw. }
  split; [done |]. unfold load_fn. rewrite Hw, Hl.
  set (st1 := log (Completed el (channel w)) (dataset_set_loaded el st)).
  destruct (unload__same (scriptElsToRemove w) st1) as (Hn & Ht & Htm & Hr).
  pose proof (unload__subscribers_other (scriptElsToRemove w) (channel w) st1)
    as Hs.
  destruct (unload_ (scriptElsToRemove w) st1) as [st2|st2] eqn:Hu.
  - exfalso. apply Hbad. by apply (unload__normal_attached _ st1 st2).
  - simpl in *. rewrite Ht, Hr. split; [done |].
    split; [by rewrite called_app, app_nil_r |].
    split; [| split; [done |]].
    + rewrite Hs; [done |]. eapply Forall_impl; [exact Hids |].
      intros n Hne. unfold el_id in *. simpl.
      destruct (decide (el = n)) as [->|Hneq].
      * rewrite list_lookup_alter_eq. by destruct (nodes st !! n).
      * by rewrite list_lookup_alter_ne.
    + assert (Hl2 : dataset_get_loaded el st2 = true).
      { unfold dataset_get_loaded. rewrite Hn. simpl.
        rewrite list_lookup_alter_eq.
        destruct (nodes st !! el); [done | by simpl in Hw]. }
      unfold load_fn. destruct (nodes st2 !! el ≫= onload); [| done].
      by rewrite Hl2.
Qed.

(** *** Unloading, then loading again *)

Lemma unload_found st u el :
  getElementById (script_id u) st = Some el →
  unload u st = Normal (removeChild el (clear (script_id u) st)).
Proof.
  intros Hel. unfold unload. rewrite Hel.
  destruct (getElementById_Some _ _ _ Hel) as [Hin Hid]. simpl.
  change (document (clear (el_id el st) st)) with (document st).
  rewrite bool_decide_eq_true_2 by done. by rewrite Hid.
Qed.

(** X3.  [unload] never raises, although [unload_] can: the element it
    passes on is one that the lookup has just found attached.  It clears
    the channel of the url, detaches the first element that carries the id
    of the url, and leaves the store, the trace, the timers and the
    cursors alone. *)
Theorem unload_returns st u :
  ∃ st',
    unload u st = Normal st'
    ∧ nodes st' = nodes st ∧ trace st' = trace st
    ∧ timers st' = timers st ∧ runs st' = runs st
    ∧ match getElementById (script_id u) st with
      | Some el =>
          document st' = filter (λ n, n ≠ el) (document st)
          ∧ subscribers (script_id u) st' = []
      | None => st' = st
      end.
Proof.
  destruct (getElementById (script_id u) st) as [el|] eqn:Hel.
  - rewrite (unload_found st u el Hel). eexists. split; [reflexivity |].
    repeat split. unfold subscribers. simpl. by rewrite lookup_delete_eq.
  - exists st. unfold unload. by rewrite Hel.
Qed.

Lemma unload_only st u el :
  filter (λ n, has_id st (script_id u) n = true) (document st) = [el] →
  getElementById (script_id u) (removeChild el (clear (script_id u) st)) = None.
Proof.
  intros Hone. unfold getElementById.
  rewrite (filter_has_id _ st) by done. simpl. rewrite list_filter_filter.
  match goal with |- head ?l = None => destruct l as [|n l'] eqn:Hl end;
    [done |].
  assert (Hn' : n ∈ n :: l') by left. rewrite <- Hl in Hn'.
  apply list_elem_of_filter in Hn' as [[Hid Hne] Hdoc].
  assert (Hin : n ∈ filter (λ n, has_id st (script_id u) n = true)
                       (document st))
    by (by apply list_elem_of_filter).
  rewrite Hone in Hin. by apply list_elem_of_singleton in Hin.
Qed.

(** X4.  Once the only attached element of a url is unloaded, the url
    counts as absent: the next [load] creates a new element and issues a
    new request, whatever the marker of the old element says. *)
Theorem load_after_unload st u el k opt_cb opt_name :
  filter (λ n, has_id st (script_id u) n = true) (document st) = [el] →
  getElementById (script_id u) (state_of (unload u st)) = None
  ∧ (load k u opt_cb opt_name (state_of (unload u st))).1 = length (nodes st)
  ∧ fetched (trace (load k u opt_cb opt_name (state_of (unload u st))).2)
    = fetched (trace st) ++ [u]
  ∧ document (load k u opt_cb opt_name (state_of (unload u st))).2
    = length (nodes st) :: filter (λ n, n ≠ el) (document st).
Proof.
  intros Hone.
  assert (Hel : getElementById (script_id u) st = Some el).
  { unfold getElementById. by rewrite Hone. }
  rewrite (unload_found st u el Hel). simpl.
  pose proof (unload_only st u el Hone) as Habs.
  split; [done |].
  destruct (load_absent_state k u opt_cb opt_name _ Habs)
    as (-> & _ & -> & _ & _ & -> & _).
  split; [done |]. split; [| done].
  unfold fetched. by rewrite omap_app.
Qed.

(** *** Invariants of the document

    A property of the store and of the document that every update of the
    loader keeps is kept by every action.  The updates are: recording an
    action; changing cursors, subscriptions or timers; [load_] for an id
    that no attached element carries; the script element of [eval];
    removing an element; marking one; creating the prefetch iframe when
    there is none; [prefetch_]. *)
Section Invariant.

Variable I : state → Prop.

Hypothesis I_log : ∀ e st, I st → I (log e st).
Hypothesis I_runs : ∀ f st, I st → I (set_runs f st).
Hypothesis I_subscriptions : ∀ f st, I st → I (set_subscriptions f st).
Hypothesis I_timers : ∀ f st, I st → I (set_timers f st).
Hypothesis I_load_ : ∀ u cls fn st,
  getElementById (script_id u) st = None → channel fn = script_id u → I st →
  I (load_ u (script_id u) cls fn st).2.
Hypothesis I_script : ∀ t st,
  I st →
  I (insertFirst
       (createElement
          {| tag := SCRIPT; id := ""; className := ""; src := ""; body := t;
             loaded := false; onload := None; contentDocument := [] |} st).1
       (createElement
          {| tag := SCRIPT; id := ""; className := ""; src := ""; body := t;
             loaded := false; onload := None; contentDocument := [] |} st).2).
Hypothesis I_remove : ∀ n st, I st → I (removeChild n st).
Hypothesis I_mark : ∀ n st, I st → I (dataset_set_loaded n st).
Hypothesis I_iframe : ∀ st,
  getElementById (ID_PREFIX +:+ "prefetch") st = None → I st →
  I (createIframe (ID_PREFIX +:+ "prefetch") st).2.
Hypothesis I_prefetch_ : ∀ u i f st, I st → I (prefetch_ u i f st).

Lemma inv_advance r st : I st → I (advance r st).
Proof.
  intros Hi. unfold advance. destruct (runs st !! r); [| done].
  by apply I_log, I_runs.
Qed.

Lemma inv_subscribe_opt i opt_cb st : I st → I (subscribe_opt i opt_cb st).
Proof. intros Hi. destruct opt_cb; simpl; [by apply I_subscriptions | done]. Qed.

Lemma inv_load k u opt_cb opt_name st :
  (∀ cb s, I s → I (k cb s)) → I st → I (load k u opt_cb opt_name st).2.
Proof.
  intros Hk Hi.
  destruct (getElementById (script_id u) st) as [el|] eqn:Hel.
  - destruct (dataset_get_loaded el st) eqn:Hl.
    + rewrite (load_loaded _ _ _ _ _ _ Hel Hl).
      destruct opt_cb; simpl; [apply Hk |]; by apply I_log.
    + rewrite (load_loading _ _ _ _ _ _ Hel Hl). simpl.
      by apply inv_subscribe_opt, I_log.
  - rewrite (load_absent _ _ _ _ _ Hel). cbv zeta.
    apply I_load_; [by destruct opt_cb | done |].
    by apply inv_subscribe_opt, I_log.
Qed.

Lemma inv_eval k t opt_cb st :
  (∀ cb s, I s → I (k cb s)) → I st → I (eval k t opt_cb st).
Proof.
  intros Hk Hi. unfold eval.
  assert (Hs : I (if execScript then log (Evaluated t) st
                  else let '(scriptEl, st0) :=
                         createElement
                           {| tag := SCRIPT; id := ""; className := ""; src := "";
                              body := t; loaded := false; onload := None;
                              contentDocument := [] |} st in
                       log (Evaluated t) (insertFirst scriptEl st0))).
  { destruct execScript; [by apply I_log |]. simpl.
    apply I_log. by apply (I_script t st). }
  destruct opt_cb; simpl; [by apply Hk | done].
Qed.

Lemma inv_getNextScript_at r opt_fn items : ∀ st,
  I st → I (getNextScript_at r opt_fn items st).
Proof.
  induction items as [|it rest IH]; intros st Hi.
  - destruct opt_fn; simpl; [by apply I_log | done].
  - rewrite getNextScript_at_cons. cbv zeta.
    assert (Hk : ∀ (cb : callback) s,
              I s → I (getNextScript_at r opt_fn rest (advance r s))).
    { intros _ s Hs. by apply IH, inv_advance. }
    case_bool_decide; [by apply inv_load |].
    case_bool_decide; [by apply inv_eval |].
    by apply (Hk (GetNextScript r)).
Qed.

Lemma inv_call cb st : I st → I (call cb st).
Proof.
  intros Hi. destruct cb as [n|r]; simpl; [by apply I_log |].
  unfold getNextScript. destruct (runs st !! r); [| done].
  by apply inv_getNextScript_at, inv_advance.
Qed.

Lemma inv_publish i st : I st → I (publish i st).
Proof.
  unfold publish. generalize (subscribers i st). intros cbs. revert st.
  induction cbs as [|cb cbs IH]; intros st Hi; simpl; [done |].
  by apply IH, inv_call.
Qed.

Lemma inv_unload_ els : ∀ st, I st → I (state_of (unload_ els st)).
Proof.
  induction els as [|el els IH]; intros st Hi; simpl; [done |].
  assert (Hc : I (clear (el_id el st) st)) by (by apply I_subscriptions).
  case_bool_decide; [| done]. by apply IH, I_remove.
Qed.

Lemma inv_load_fn el st : I st → I (load_fn el st).
Proof.
  intros Hi. unfold load_fn. destruct (nodes st !! el ≫= onload) as [w|]; [| done].
  destruct (dataset_get_loaded el st); [done |].
  set (st1 := log (Completed el (channel w)) (dataset_set_loaded el st)).
  assert (H1 : I st1) by (by apply I_log, I_mark).
  pose proof (inv_unload_ (scriptElsToRemove w) st1 H1) as H2.
  destruct (unload_ (scriptElsToRemove w) st1) as [st2|st2]; simpl in H2; [| done].
  by apply I_subscriptions, inv_publish.
Qed.

Lemma inv_prefetch u st : I st → I (state_of (prefetch u st)).
Proof.
  intros Hi. unfold prefetch. destruct (getElementById (script_id u) st); [done |].
  destruct (getElementById (ID_PREFIX +:+ "prefetch") st) as [f|] eqn:Hf.
  - destruct (is_iframe f st); [| done].
    destruct (frame_getElementById _ _ _); [done |]. by apply I_timers.
  - pose proof (I_iframe st Hf Hi) as Hc.
    destruct (createIframe (ID_PREFIX +:+ "prefetch") st) as [f st1].
    simpl in *. by apply I_timers.
Qed.

Lemma inv_preexecute_at items : ∀ st, I st → I (state_of (preexecute_at items st)).
Proof.
  induction items as [|it rest IH]; intros st Hi; simpl; [done |].
  case_bool_decide; [| by apply IH].
  pose proof (inv_prefetch (url it) st Hi) as Hp.
  destruct (prefetch (url it) st) as [st'|st']; simpl in *; [by apply IH | done].
Qed.

Lemma inv_step a st : I st → I (step a st).
Proof.
  intros Hi.
  assert (Hon : ∀ el, I (fire_onload el st)).
  { intros el. destruct (fire_onload_timers el st) as [->| ->];
      [done | by apply I_timers]. }
  destruct a; simpl.
  - apply inv_load; [| done]. intros cb s. apply inv_call.
  - unfold unload. destruct (getElementById _ _); [| done]. by apply inv_unload_.
  - by apply inv_prefetch.
  - unfold execute. case_bool_decide.
    + destruct opt_fn; simpl; [by apply I_log | done].
    + by apply (inv_call (GetNextScript _)), I_runs.
  - by apply inv_preexecute_at.
  - apply inv_eval; [| done]. intros cb s. apply inv_call.
  - apply Hon.
  - unfold fire_onreadystatechange. case_if; [apply Hon | done].
  - unfold tick. destruct (timers st) as [|t q]; [done |].
    assert (Hi' : I (set_timers (λ _, q) st)) by (by apply I_timers).
    destruct t as [el|u i f]; simpl; [by apply inv_load_fn |].
    case_if; [by apply I_prefetch_ | done].
Qed.

Lemma inv_steps l : ∀ st, I st → I (steps l st).
Proof.
  induction l as [|a l IH]; intros st Hi; [done |].
  rewrite steps_cons. by apply IH, inv_step.
Qed.

End Invariant.

(** *** One attached element per id

    The ids of the attached elements that have one are pairwise distinct:
    [load] creates an element only when the lookup by its id finds none,
    and so does [prefetch] for the iframe; the objects of a prefetch go
    into the iframe's document, and the scripts of [eval] carry no id. *)
Definition unique_ids (st : state) : Prop :=
  Forall (λ n, Forall (λ m, el_id n st ≠ "" → el_id n st = el_id m st → n = m)
                 (document st)) (document st).

#[export] Instance unique_ids_dec st : Decision (unique_ids st).
Proof. unfold unique_ids. apply _. Defined.

Definition tidy (st : state) : Prop := wf st ∧ unique_ids st.

Lemma unique_ids_spec st :
  unique_ids st ↔
  ∀ n m, n ∈ document st → m ∈ document st →
         el_id n st ≠ "" → el_id n st = el_id m st → n = m.
Proof.
  unfold unique_ids. rewrite Forall_forall. split.
  - intros H n m Hn Hm. specialize (H n Hn). rewrite Forall_forall in H.
    by apply H.
  - intros H n Hn. rewrite Forall_forall. intros m Hm. by apply H.
Qed.

Lemma has_id_el_id st i n : has_id st i n = true → el_id n st = i.
Proof.
  unfold has_id, el_id. destruct (nodes st !! n); [| done].
  by intros ?%bool_decide_eq_true.
Qed.

Lemma el_id_has_id st n :
  (n < length (nodes st))%nat → has_id st (el_id n st) n = true.
Proof.
  intros Hn. destruct (lookup_lt_is_Some_2 _ _ Hn) as [e He].
  unfold has_id, el_id. rewrite He. by apply bool_decide_eq_true.
Qed.

Lemma el_id_more l n st :
  (n < length (nodes st))%nat →
  el_id n (set_nodes (λ ns, ns ++ l) st) = el_id n st.
Proof. intros Hn. unfold el_id. simpl. by rewrite lookup_app_l. Qed.

Lemma el_id_new e st :
  el_id (length (nodes st)) (set_nodes (λ ns, ns ++ [e]) st) = id e.
Proof. unfold el_id. simpl. by rewrite list_lookup_middle. Qed.

Lemma el_id_mark el n st : el_id n (dataset_set_loaded el st) = el_id n st.
Proof.
  unfold el_id, dataset_set_loaded. simpl.
  destruct (decide (el = n)) as [->|Hne].
  - rewrite list_lookup_alter_eq. by destruct (nodes st !! n).
  - by rewrite list_lookup_alter_ne.
Qed.

Lemma el_id_prefetch_ u i f st n :
  (n < length (nodes st))%nat → el_id n (prefetch_ u i f st) = el_id n st.
Proof.
  intros Hn. apply has_id_el_id. rewrite has_id_prefetch_ by done.
  by apply el_id_has_id.
Qed.

(** A new element with an id that no attached element carries, or with
    no id, may be attached at either end. *)
Lemma unique_ids_attach e st (d : list nat) :
  wf st → unique_ids st →
  (id e = "" ∨ getElementById (id e) st = None) →
  (∀ n, n ∈ d ↔ n = length (nodes st) ∨ n ∈ document st) →
  ∀ n m, n ∈ d → m ∈ d →
         el_id n (set_nodes (λ ns, ns ++ [e]) st) ≠ "" →
         el_id n (set_nodes (λ ns, ns ++ [e]) st)
         = el_id m (set_nodes (λ ns, ns ++ [e]) st) → n = m.
Proof.
  intros (_ & Hb & _) Hu He Hd n m Hn Hm.
  rewrite unique_ids_spec in Hu. rewrite Forall_forall in Hb.
  assert (Hold : ∀ k, k ∈ document st → el_id k st = id e → id e ≠ "" → False).
  { intros k Hk Hid Hne. destruct He as [He|He]; [done |].
    pose proof (getElementById_None _ _ _ He Hk) as Hf.
    rewrite <- Hid, el_id_has_id in Hf; [done | by apply Hb]. }
  apply Hd in Hn as [->|Hn]; apply Hd in Hm as [->|Hm]; [done | | |].
  - rewrite el_id_new, el_id_more by (by apply Hb). intros Hne Heq.
    by destruct (Hold m Hm).
  - rewrite el_id_new, el_id_more by (by apply Hb). intros Hne Heq.
    destruct (Hold n Hn); [done | by rewrite <- Heq].
  - rewrite !el_id_more by (by apply Hb). by apply Hu.
Qed.

Lemma tidy_load_ u i cls fn st :
  getElementById i st = None → channel fn = i → tidy st →
  tidy (load_ u i cls fn st).2.
Proof.
  intros Hnone Hch [Hw Hu]. split.
  - by apply (grows_insert
                {| tag := SCRIPT; id := i; className := cls; src := u;
                   body := ""; loaded := false; onload := Some fn;
                   contentDocument := [] |} st).
  - apply unique_ids_spec. simpl.
    apply (unique_ids_attach
             {| tag := SCRIPT; id := i; className := cls; src := u;
                body := ""; loaded := false; onload := Some fn;
                contentDocument := [] |} st); [done | done | by right |].
    intros n. by rewrite elem_of_cons.
Qed.

Lemma tidy_script t st :
  tidy st →
  tidy (insertFirst
          (createElement
             {| tag := SCRIPT; id := ""; className := ""; src := ""; body := t;
                loaded := false; onload := None; contentDocument := [] |} st).1
          (createElement
             {| tag := SCRIPT; id := ""; className := ""; src := ""; body := t;
                loaded := false; onload := None; contentDocument := [] |} st).2).
Proof.
  intros [Hw Hu]. split.
  - by apply grows_insert.
  - apply unique_ids_spec. simpl.
    apply (unique_ids_attach
             {| tag := SCRIPT; id := ""; className := ""; src := ""; body := t;
                loaded := false; onload := None; contentDocument := [] |} st);
      [done | done | by left |].
    intros n. by rewrite elem_of_cons.
Qed.

Lemma tidy_iframe st :
  getElementById (ID_PREFIX +:+ "prefetch") st = None → tidy st →
  tidy (createIframe (ID_PREFIX +:+ "prefetch") st).2.
Proof.
  intros Hnone [Hw Hu]. split.
  - by apply (grows_append
                {| tag := IFRAME; id := ID_PREFIX +:+ "prefetch"; className := "";
                   src := ""; body := ""; loaded := false; onload := None;
                   contentDocument := [] |} st).
  - apply unique_ids_spec. simpl.
    apply (unique_ids_attach
             {| tag := IFRAME; id := ID_PREFIX +:+ "prefetch"; className := "";
                src := ""; body := ""; loaded := false; onload := None;
                contentDocument := [] |} st); [done | done | by right |].
    intros n. rewrite elem_of_app, list_elem_of_singleton. tauto.
Qed.

Lemma wf_remove n st : wf st → wf (removeChild n st).
Proof.
  intros (Hnd & Hb & Hw).
  split; [by apply NoDup_filter | split; [| done]]. simpl.
  rewrite Forall_forall in *. intros k Hk.
  apply list_elem_of_filter in Hk as [_ Hk]. by apply Hb.
Qed.

Lemma tidy_remove n st : tidy st → tidy (removeChild n st).
Proof.
  intros [Hw Hu]. split; [by apply wf_remove |].
  rewrite unique_ids_spec in *. simpl. intros k m Hk Hm.
  apply list_elem_of_filter in Hk as [_ Hk].
  apply list_elem_of_filter in Hm as [_ Hm]. by apply Hu.
Qed.

Lemma wiring_ok_mark e : wiring_ok e → wiring_ok (mark_loaded e).
Proof. done. Qed.

Lemma wf_mark n st : wf st → wf (dataset_set_loaded n st).
Proof.
  intros (Hnd & Hb & Hw). split; [done | split]; simpl.
  - by rewrite length_alter.
  - apply Forall_alter; [done |]. intros e _. apply wiring_ok_mark.
Qed.

Lemma tidy_mark n st : tidy st → tidy (dataset_set_loaded n st).
Proof.
  intros [Hw Hu]. split; [by apply wf_mark |].
  rewrite unique_ids_spec in *. intros k m Hk Hm.
  rewrite !el_id_mark. by apply Hu.
Qed.

Lemma prefetch__length u i f st :
  (length (nodes st) ≤ length (nodes (prefetch_ u i f st)))%nat.
Proof.
  unfold prefetch_. simpl. rewrite length_alter.
  destruct IS_IE; simpl; rewrite ?length_app; lia.
Qed.

Lemma wf_prefetch_ u i f st : wf st → wf (prefetch_ u i f st).
Proof.
  intros (Hnd & Hb & Hw).
  destruct (prefetch__primary u i f st) as (Hd & _ & _).
  split; [by rewrite Hd | split].
  - rewrite Hd.
    eapply Forall_impl; [exact Hb |]. intros n Hn.
    eapply Nat.lt_le_trans; [exact Hn | apply prefetch__length].
  - unfold prefetch_. simpl. apply Forall_alter.
    + destruct IS_IE; simpl; repeat apply wiring_ok_nodes; done.
    + done.
Qed.

Lemma tidy_prefetch_ u i f st : tidy st → tidy (prefetch_ u i f st).
Proof.
  intros [Hw Hu]. split; [by apply wf_prefetch_ |].
  destruct (prefetch__primary u i f st) as (Hd & _ & _).
  destruct Hw as (_ & Hb & _).
  rewrite unique_ids_spec in *. rewrite Hd.
  rewrite Forall_forall in Hb. intros k m Hk Hm.
  rewrite !el_id_prefetch_ by (by apply Hb). by apply Hu.
Qed.

Lemma tidy_step a st : tidy st → tidy (step a st).
Proof.
  apply (inv_step tidy); try done.
  - intros u cls fn s. apply tidy_load_.
  - apply tidy_script.
  - apply tidy_remove.
  - apply tidy_mark.
  - apply tidy_iframe.
  - apply tidy_prefetch_.
Qed.

(** X5.  No two attached elements carry the same non-empty id, no
    element is attached twice, and the handlers of every element publish
    on the channel of its id: every action keeps this, and it holds of the
    empty document ([init_sound] below).  So the element that a lookup by
    id finds is the only attached element with that id. *)
Theorem one_element_per_id l st :
  wf st → unique_ids st →
  wf (steps l st) ∧ unique_ids (steps l st)
  ∧ ∀ i el n,
      i ≠ "" → getElementById i (steps l st) = Some el →
      n ∈ document (steps l st) → el_id n (steps l st) = i → n = el.
Proof.
  intros Hw Hu.
  destruct (inv_steps tidy) with (l := l) (st := st) as [Hw' Hu'];
    try done; try (intros; by apply tidy_step).
  - intros u cls fn s. apply tidy_load_.
  - apply tidy_script.
  - apply tidy_remove.
  - apply tidy_mark.
  - apply tidy_iframe.
  - apply tidy_prefetch_.
  - split; [done | split; [done |]]. intros i el n Hi Hel Hn Hid.
    apply getElementById_Some in Hel as [Hel Hid'].
    rewrite unique_ids_spec in Hu'. apply Hu'; [done | done | | ]; congruence.
Qed.

(** *** Queues of inline scripts *)

Definition inline_texts (items : list item) : list string :=
  filter (λ t, t ≠ "") (text <$> items).

Definition move (k : Z) (c : run) : run :=
  {| run_queue := run_queue c; index := index c + k;
     opt_callback := opt_callback c |}.

Lemma move_0 c : move 0 c = c.
Proof. destruct c. unfold move. simpl. f_equal. lia. Qed.

Lemma move_step k c : move k (step_index c) = move (k + 1) c.
Proof. unfold move, step_index. simpl. f_equal. lia. Qed.

Lemma getNextScript_at_inline r opt_fn items : ∀ st,
  Forall (λ it, url it = "") items →
  is_Some (runs st !! r) →
  let st' := getNextScript_at r opt_fn items st in
  evaluated (trace st') = evaluated (trace st) ++ inline_texts items
  ∧ called (trace st') = called (trace st) ++ option_list opt_fn
  ∧ fetched (trace st') = fetched (trace st)
  ∧ completed (trace st') = completed (trace st)
  ∧ subscriptions st' = subscriptions st
  ∧ timers st' = timers st
  ∧ runs st' = alter (move (Z.of_nat (length items))) r (runs st)
  ∧ length (document st')
    = (length (document st)
       + if execScript then 0 else length (inline_texts items))%nat.
Proof.
  induction items as [|it rest IH]; intros st Hurl [c Hc]; cbv zeta.
  - simpl. unfold inline_texts. simpl. rewrite !app_nil_r.
    assert (Hr : runs st = alter (move 0) r (runs st)).
    { symmetry. apply list_eq. intros k. destruct (decide (r = k)) as [->|Hne].
      - rewrite list_lookup_alter_eq, Hc. simpl. by rewrite move_0.
      - by rewrite list_lookup_alter_ne. }
    destruct opt_fn as [n|]; simpl.
    + unfold called, evaluated, fetched, completed. rewrite !omap_app. simpl.
      rewrite !app_nil_r. repeat (split; [done |]).
      destruct execScript; lia.
    + rewrite app_nil_r. repeat (split; [done |]).
      destruct execScript; lia.
  - apply Forall_cons in Hurl as [Hu Hurl].
    rewrite getNextScript_at_cons. cbv zeta.
    rewrite bool_decide_eq_false_2 by (by intros ?).
    assert (Hstep : ∀ s,
              runs s = runs st →
              let s' := getNextScript_at r opt_fn rest (advance r s) in
              evaluated (trace s') = evaluated (trace s) ++ inline_texts rest
              ∧ called (trace s') = called (trace s) ++ option_list opt_fn
              ∧ fetched (trace s') = fetched (trace s)
              ∧ completed (trace s') = completed (trace s)
              ∧ subscriptions s' = subscriptions s
              ∧ timers s' = timers s
              ∧ runs s' = alter (move (Z.of_nat (length (it :: rest)))) r (runs st)
              ∧ length (document s')
                = (length (document s)
                   + if execScript then 0 else length (inline_texts rest))%nat).
    { intros s Hs. cbv zeta.
      assert (Ha : advance r s
                   = log (Next r (index c + 1)) (set_runs (alter step_index r) s)).
      { unfold advance. by rewrite Hs, Hc. }
      destruct (IH (advance r s) Hurl) as (He & Hca & Hf & Hco & Hsu & Hti & Hru & Hd).
      { rewrite Ha. simpl. rewrite Hs, list_lookup_alter_eq, Hc. by eexists. }
      rewrite He, Hca, Hf, Hco, Hsu, Hti, Hru, Hd. rewrite Ha. simpl.
      unfold called, evaluated, fetched, completed. rewrite !omap_app. simpl.
      rewrite !app_nil_r. repeat (split; [done |]).
      split; [| done]. rewrite Hs. apply list_eq. intros j.
      destruct (decide (r = j)) as [->|Hne].
      - rewrite !list_lookup_alter_eq, Hc. simpl. rewrite move_step.
        do 2 f_equal. lia.
      - by rewrite !list_lookup_alter_ne. }
    case_bool_decide as Ht.
    + unfold eval. simpl.
      assert (Hin : inline_texts (it :: rest) = text it :: inline_texts rest).
      { unfold inline_texts. simpl. by rewrite filter_cons_True. }
      rewrite Hin.
      destruct execScript; simpl.
      * destruct (Hstep (log (Evaluated (text it)) st) eq_refl)
          as (He & Hca & Hf & Hco & Hsu & Hti & Hru & Hd).
        rewrite He, Hca, Hf, Hco, Hsu, Hti, Hru, Hd. simpl.
        unfold called, evaluated, fetched, completed. rewrite !omap_app. simpl.
        rewrite !app_nil_r, <- (assoc_L (++)). done.
      * match goal with
        | |- context [advance r ?s] =>
            destruct (Hstep s eq_refl) as (He & Hca & Hf & Hco & Hsu & Hti & Hru & Hd)
        end.
        rewrite He, Hca, Hf, Hco, Hsu, Hti, Hru, Hd. simpl.
        unfold called, evaluated, fetched, completed. rewrite !omap_app. simpl.
        rewrite !app_nil_r, <- (assoc_L (++)).
        repeat (split; [done |]). lia.
    + assert (Hin : inline_texts (it :: rest) = inline_texts rest).
      { unfold inline_texts. simpl. rewrite filter_cons_False; [done |].
        by intros ?. }
      rewrite Hin. apply (Hstep st eq_refl).
Qed.

Lemma getNextScript_at_inline_last r n items : ∀ st,
  Forall (λ it, url it = "") items →
  last (trace (getNextScript_at r (Some n) items st)) = Some (Called n).
Proof.
  induction items as [|it rest IH]; intros st Hurl.
  - simpl. by rewrite last_snoc.
  - apply Forall_cons in Hurl as [Hu Hurl].
    rewrite getNextScript_at_cons. cbv zeta.
    rewrite bool_decide_eq_false_2 by (by intros ?).
    case_bool_decide; [| by apply IH].
    unfold eval. simpl. by apply IH.
Qed.

(** X6.  A queue whose items all lack a url is executed within the call
    of [execute]: the non-empty texts are evaluated in the order of the
    queue, then the callback is called, once, as the last action; nothing
    is requested, subscribed or put off to a timer.  The cursor of the run
    ends on the length of the queue, and without [execScript] every
    evaluated text leaves one more script element in the document. *)
Theorem execute_inline result opt_fn st :
  Forall (λ it, url it = "") (queue result) →
  let st' := execute result opt_fn st in
  evaluated (trace st') = evaluated (trace st) ++ inline_texts (queue result)
  ∧ called (trace st') = called (trace st) ++ option_list opt_fn
  ∧ (∀ n, opt_fn = Some n → last (trace st') = Some (Called n))
  ∧ fetched (trace st') = fetched (trace st)
  ∧ completed (trace st') = completed (trace st)
  ∧ subscriptions st' = subscriptions st
  ∧ timers st' = timers st
  ∧ runs st'
    = runs st
      ++ match queue result with
         | [] => []
         | _ :: _ =>
             [ {| run_queue := queue result;
                  index := Z.of_nat (length (queue result));
                  opt_callback := opt_fn |} ]
         end
  ∧ length (document st')
    = (length (document st)
       + if execScript then 0 else length (inline_texts (queue result)))%nat.
Proof.
  intros Hurl. cbv zeta. unfold execute.
  destruct (queue result) as [|it rest] eqn:Hq.
  - simpl. unfold inline_texts. simpl. rewrite !app_nil_r.
    destruct opt_fn as [n|]; simpl.
    + unfold called, evaluated, fetched, completed. rewrite !omap_app. simpl.
      rewrite !app_nil_r, last_snoc. split; [done |]. split; [done |].
      split; [by intros ? [= <-] |]. repeat (split; [done |]).
      destruct execScript; lia.
    + rewrite app_nil_r. split; [done |]. split; [done |].
      split; [done |]. repeat (split; [done |]).
      destruct execScript; lia.
  - rewrite bool_decide_eq_false_2 by (simpl; lia). cbv zeta.
    set (c0 := {| run_queue := it :: rest; index := -1; opt_callback := opt_fn |}).
    set (st1 := set_runs (λ rs, rs ++ [c0]) st).
    assert (Hc0 : runs st1 !! length (runs st) = Some c0)
      by (simpl; by rewrite list_lookup_middle).
    unfold getNextScript. rewrite Hc0.
    change (drop (Z.to_nat (index c0 + 1)) (run_queue c0)) with (it :: rest).
    change (opt_callback c0) with opt_fn.
    assert (Ha : advance (length (runs st)) st1
                 = log (Next (length (runs st)) 0)
                     (set_runs (alter step_index (length (runs st))) st1)).
    { unfold advance. by rewrite Hc0. }
    assert (Hlast : ∀ n, opt_fn = Some n →
              last (trace (getNextScript_at (length (runs st)) opt_fn (it :: rest)
                             (advance (length (runs st)) st1)))
              = Some (Called n)).
    { intros n ->. by apply getNextScript_at_inline_last. }
    destruct (getNextScript_at_inline (length (runs st)) opt_fn (it :: rest)
                (advance (length (runs st)) st1) Hurl)
      as (He & Hca & Hf & Hco & Hsu & Hti & Hru & Hd).
    { rewrite Ha. simpl. rewrite list_lookup_alter_eq, list_lookup_middle by done.
      by eexists. }
    remember (getNextScript_at (length (runs st)) opt_fn (it :: rest)
                (advance (length (runs st)) st1)) as st2 eqn:Hst2.
    clear Hst2. rewrite He, Hca, Hf, Hco, Hsu, Hti, Hru, Hd, Ha. simpl.
    unfold called, evaluated, fetched, completed. rewrite !omap_app. simpl.
    rewrite !app_nil_r. split; [done |]. split; [done |]. split; [done |].
    repeat (split; [done |]). split; [| done].
    replace (length (runs st)) with (length (runs st) + 0)%nat at 1 2 by lia.
    rewrite !alter_app_r. simpl. unfold move, c0. simpl. repeat f_equal; lia.
Qed.

(** *** Prefetching twice *)

(** The requests issued in the prefetch iframe. *)
Definition prefetched (tr : list event) : list string :=
  omap (λ e, match e with Fetch false u => Some u | _ => None end) tr.

(** The two tests of [prefetch]: the url has an element in the document,
    or the prefetch iframe is there and has one for it. *)
Definition primed (u : string) (st : state) : bool :=
  match getElementById (script_id u) st with
  | Some _ => true
  | None =>
      match getElementById (ID_PREFIX +:+ "prefetch") st with
      | Some f =>
          is_iframe f st
          && bool_decide (is_Some (frame_getElementById (script_id u) f st))
      | None => false
      end
  end.

Lemma prefetch__trace u i f st :
  trace (prefetch_ u i f st) = trace st ++ [Fetch false u].
Proof. unfold prefetch_. by destruct IS_IE. Qed.

Lemma prefetch__nodes u i f st :
  ∃ l e,
    nodes (prefetch_ u i f st)
    = alter (appendChild (length (nodes st))) f (nodes st ++ e :: l)
    ∧ id e = i.
Proof.
  unfold prefetch_. simpl. destruct IS_IE; simpl.
  - eexists [_], _. split; [by rewrite <- (assoc_L (++)) | done].
  - eexists [], _. split; [reflexivity | done].
Qed.

Lemma prefetch__lookup u i f st e :
  nodes st !! f = Some e →
  nodes (prefetch_ u i f st) !! f = Some (appendChild (length (nodes st)) e).
Proof.
  intros He. destruct (prefetch__nodes u i f st) as (l & o & -> & _).
  rewrite list_lookup_alter_eq, lookup_app_l, He; [done |].
  by eapply lookup_lt_Some.
Qed.

Lemma prefetch__is_iframe u i f g st :
  is_iframe g st = true → is_iframe g (prefetch_ u i f st) = true.
Proof.
  unfold is_iframe. destruct (nodes st !! g) as [e|] eqn:He; [| done].
  intros Ht. destruct (decide (f = g)) as [->|Hne].
  - by rewrite (prefetch__lookup _ _ _ _ _ He).
  - destruct (prefetch__nodes u i f st) as (l & o & -> & _).
    rewrite list_lookup_alter_ne, lookup_app_l, He; [done | | done].
    by eapply lookup_lt_Some.
Qed.

Lemma prefetch__object u i f st :
  (f < length (nodes st))%nat →
  has_id (prefetch_ u i f st) i (length (nodes st)) = true.
Proof.
  intros Hf. unfold has_id.
  destruct (prefetch__nodes u i f st) as (l & o & -> & Hid).
  rewrite list_lookup_alter_ne, list_lookup_middle by (done || lia).
  by apply bool_decide_eq_true.
Qed.

(** Once [prefetch_] has run on the iframe, the iframe has an element for
    the url. *)
Lemma prefetch__primes u i f st :
  is_iframe f st = true →
  is_Some (frame_getElementById i f (prefetch_ u i f st)).
Proof.
  unfold is_iframe. destruct (nodes st !! f) as [e|] eqn:He; [| done].
  intros _. unfold frame_getElementById.
  rewrite (prefetch__lookup _ _ _ _ _ He). simpl.
  rewrite filter_app, filter_cons_True
    by (apply prefetch__object; by eapply lookup_lt_Some).
  destruct (filter _ (contentDocument e)); by eexists.
Qed.

Lemma primed_prefetch_ u f st :
  wf st →
  getElementById (script_id u) st = None →
  getElementById (ID_PREFIX +:+ "prefetch") st = Some f →
  is_iframe f st = true →
  primed u (prefetch_ u (script_id u) f st) = true.
Proof.
  intros (_ & Hb & _) Hs Hf Hif. rewrite Forall_forall in Hb.
  destruct (prefetch__primary u (script_id u) f st) as (Hd & _ & _).
  assert (Hsame : ∀ j, getElementById j (prefetch_ u (script_id u) f st)
                       = getElementById j st).
  { intros j. apply getElementById_same; [done |].
    intros n Hn. apply has_id_prefetch_. by apply Hb. }
  unfold primed. rewrite !Hsame, Hs, Hf, prefetch__is_iframe by done.
  simpl. apply bool_decide_eq_true. by apply prefetch__primes.
Qed.

Lemma prefetch_primed u st :
  primed u st = true → prefetch u st = Normal st.
Proof.
  unfold primed, prefetch. destruct (getElementById (script_id u) st); [done |].
  destruct (getElementById _ st) as [f|]; [| done].
  destruct (is_iframe f st); [| done]. simpl.
  intros [o ->]%bool_decide_eq_true. done.
Qed.

Lemma createIframe_found i st :
  wf st → getElementById i st = None →
  getElementById i (createIframe i st).2 = Some (length (nodes st))
  ∧ is_iframe (length (nodes st)) (createIframe i st).2 = true
  ∧ frame_getElementById i (length (nodes st)) (createIframe i st).2 = None
  ∧ ∀ j, j ≠ i →
         getElementById j (createIframe i st).2 = getElementById j st.
Proof.
  intros (_ & Hb & _) Hnone. rewrite Forall_forall in Hb.
  assert (Hold : ∀ j n, n ∈ document st →
            has_id (createIframe i st).2 j n = has_id st j n).
  { intros j n Hn. unfold has_id. simpl. rewrite lookup_app_l; [done |].
    by apply Hb. }
  assert (Hnew : ∀ j, has_id (createIframe i st).2 j (length (nodes st))
                      = bool_decide (i = j)).
  { intros j. unfold has_id. simpl. by rewrite list_lookup_middle. }
  split; [| split; [| split]].
  - unfold getElementById in *.
    change (document (createIframe i st).2)
      with (document st ++ [length (nodes st)]).
    rewrite filter_app. apply head_None in Hnone.
    rewrite (filter_has_id i st) by (intros n Hn; by apply (Hold i n)).
    rewrite Hnone, app_nil_l.
    rewrite filter_cons_True; [done |].
    rewrite (Hnew i). by apply bool_decide_eq_true.
  - unfold is_iframe. simpl. by rewrite list_lookup_middle.
  - unfold frame_getElementById. simpl. by rewrite list_lookup_middle.
  - intros j Hj.
    apply (getElementById_append _ _ _ (length (nodes st))); [done | |].
    + rewrite Hnew. apply bool_decide_eq_false_2. congruence.
    + intros n Hn. by apply Hold.
Qed.

Lemma prefetched_prefetch_ u i f st :
  prefetched (trace (prefetch_ u i f st)) = prefetched (trace st) ++ [u].
Proof. rewrite prefetch__trace. unfold prefetched. by rewrite omap_app. Qed.

(** X7.  Once the timer of a prefetch has fired, the url counts as
    prefetched: a second [prefetch] of it returns with nothing changed.
    The first one issues one request in the iframe, unless the url had an
    element already. *)
Theorem prefetch_after_timer st u st0 :
  wf st → timers st = [] → prefetch u st = Normal st0 →
  primed u (tick st0) = true
  ∧ prefetch u (tick st0) = Normal (tick st0)
  ∧ prefetched (trace (tick st0))
    = prefetched (trace st) ++ (if primed u st then [] else [u])
  ∧ timers (tick st0) = [].
Proof.
  intros Hwf Htm Hp.
  assert (Hidle : tick st = st) by (unfold tick; by rewrite Htm).
  assert (Hgoal : primed u (tick st0) = true
                  ∧ prefetched (trace (tick st0))
                    = prefetched (trace st) ++ (if primed u st then [] else [u])
                  ∧ timers (tick st0) = []).
  { revert Hp. unfold prefetch, primed.
    destruct (getElementById (script_id u) st) as [el|] eqn:Hs.
    { intros [= <-]. rewrite Hidle, Hs, app_nil_r. done. }
    destruct (getElementById (ID_PREFIX +:+ "prefetch") st) as [f|] eqn:Hf.
    - destruct (is_iframe f st) eqn:Hif; [| done].
      destruct (frame_getElementById (script_id u) f st) as [o|] eqn:Ho.
      { intros [= <-]. rewrite Hidle, Hs, Hf, Hif, Ho, app_nil_r. done. }
      intros [= <-]. unfold tick. simpl. rewrite Htm. simpl.
      change (is_iframe f (set_timers _ _)) with (is_iframe f st). rewrite Hif.
      set (st1 := set_timers _ _).
      split; [by apply (primed_prefetch_ u f st1) |].
      split; [| by destruct (prefetch__primary u (script_id u) f st1) as (_ & _ & ->)].
      by rewrite prefetched_prefetch_.
    - intros [= <-]. unfold tick. simpl. rewrite Htm. simpl.
      set (st1 := set_timers _ _).
      destruct (createIframe_found (ID_PREFIX +:+ "prefetch") st Hwf Hf)
        as (Hf1 & Hif1 & _ & Hother).
      assert (Hif : is_iframe (length (nodes st)) st1 = true) by exact Hif1.
      rewrite Hif.
      split.
      + apply (primed_prefetch_ u (length (nodes st)) st1); [| | done | done].
        * by apply (grows_append
                      {| tag := IFRAME; id := ID_PREFIX +:+ "prefetch";
                         className := ""; src := ""; body := ""; loaded := false;
                         onload := None; contentDocument := [] |} st).
        * rewrite <- Hs. apply Hother. apply script_id_not_prefetch.
      + split; [by rewrite prefetched_prefetch_ |].
        by destruct (prefetch__primary u (script_id u) (length (nodes st)) st1)
          as (_ & _ & ->). }
  destruct Hgoal as (H1 & H2 & H3).
  split; [done |]. split; [by apply prefetch_primed | done].
Qed.

Lemma tick_prefetch u i f q st :
  timers st = PrefetchFn u i f :: q → is_iframe f st = true →
  tick st = prefetch_ u i f (set_timers (λ _, q) st).
Proof.
  intros Ht Hf. unfold tick. rewrite Ht. simpl.
  change (is_iframe f (set_timers _ st)) with (is_iframe f st). by rewrite Hf.
Qed.

Lemma two_timers u i f st :
  timers st = [PrefetchFn u i f; PrefetchFn u i f] → is_iframe f st = true →
  prefetched (trace (tick (tick st))) = prefetched (trace st) ++ [u; u]
  ∧ timers (tick (tick st)) = [].
Proof.
  intros Ht Hf. rewrite (tick_prefetch u i f [PrefetchFn u i f] st Ht Hf).
  set (st1 := prefetch_ u i f _).
  assert (Ht1 : timers st1 = [PrefetchFn u i f]).
  { unfold st1. by destruct (prefetch__primary u i f
                              (set_timers (λ _, [PrefetchFn u i f]) st))
      as (_ & _ & ->). }
  assert (Hf1 : is_iframe f st1 = true) by (by apply prefetch__is_iframe).
  rewrite (tick_prefetch u i f [] st1 Ht1 Hf1). split.
  - rewrite prefetched_prefetch_.
    change (trace (set_timers (λ _, []) st1)) with (trace st1). unfold st1.
    rewrite prefetched_prefetch_.
    change (trace (set_timers (λ _, [PrefetchFn u i f]) st)) with (trace st).
    by rewrite <- (assoc_L (++)).
  - by destruct (prefetch__primary u i f (set_timers (λ _, []) st1))
      as (_ & _ & ->).
Qed.

(** X8.  The test of [prefetch] looks at elements, and the element of a
    prefetch is created by its timer: a second [prefetch] of the same url
    before the timer has fired sets a second timer, and the url is
    requested twice in the iframe. *)
Theorem prefetch_before_timer st u st0 :
  wf st → timers st = [] → primed u st = false →
  prefetch u st = Normal st0 →
  ∃ f st1,
    timers st0 = [PrefetchFn u (script_id u) f]
    ∧ prefetch u st0 = Normal st1
    ∧ timers st1 = [PrefetchFn u (script_id u) f; PrefetchFn u (script_id u) f]
    ∧ prefetched (trace (tick (tick st1))) = prefetched (trace st) ++ [u; u]
    ∧ timers (tick (tick st1)) = [].
Proof.
  intros Hwf Htm. unfold primed, prefetch at 1.
  destruct (getElementById (script_id u) st) as [el|] eqn:Hs; [done |].
  destruct (getElementById (ID_PREFIX +:+ "prefetch") st) as [f|] eqn:Hf.
  - destruct (is_iframe f st) eqn:Hif; [| done].
    destruct (frame_getElementById (script_id u) f st) as [o|] eqn:Ho.
    { simpl. by intros [=]. }
    intros _ [= <-]. exists f. eexists.
    split; [simpl; by rewrite Htm |]. split.
    { unfold prefetch.
      change (getElementById (script_id u) (setTimeout _ st))
        with (getElementById (script_id u) st). rewrite Hs.
      change (getElementById (ID_PREFIX +:+ "prefetch") (setTimeout _ st))
        with (getElementById (ID_PREFIX +:+ "prefetch") st). rewrite Hf.
      change (is_iframe f (setTimeout _ st)) with (is_iframe f st). rewrite Hif.
      change (frame_getElementById (script_id u) f (setTimeout _ st))
        with (frame_getElementById (script_id u) f st). rewrite Ho. done. }
    assert (Ht : timers (setTimeout (PrefetchFn u (script_id u) f)
                           (setTimeout (PrefetchFn u (script_id u) f) st))
                 = [PrefetchFn u (script_id u) f; PrefetchFn u (script_id u) f])
      by (simpl; by rewrite Htm).
    split; [done |].
    exact (two_timers u (script_id u) f
             (setTimeout (PrefetchFn u (script_id u) f)
                (setTimeout (PrefetchFn u (script_id u) f) st)) Ht Hif).
  - intros _ [= <-].
    destruct (createIframe_found (ID_PREFIX +:+ "prefetch") st Hwf Hf)
      as (Hf1 & Hif1 & Ho1 & Hother).
    exists (length (nodes st)). eexists.
    split; [simpl; by rewrite Htm |]. split.
    { unfold prefetch.
      set (st0 := setTimeout _ _).
      assert (H1 : getElementById (script_id u) st0 = None).
      { rewrite <- Hs. apply Hother. apply script_id_not_prefetch. }
      assert (H2 : getElementById (ID_PREFIX +:+ "prefetch") st0
                   = Some (length (nodes st))) by exact Hf1.
      assert (H3 : is_iframe (length (nodes st)) st0 = true) by exact Hif1.
      assert (H4 : frame_getElementById (script_id u) (length (nodes st)) st0
                   = None).
      { unfold frame_getElementById. simpl. by rewrite list_lookup_middle. }
      rewrite H1, H2, H3, H4. done. }
    set (st1 := setTimeout _ (setTimeout _ _)).
    assert (Ht : timers st1
                 = [PrefetchFn u (script_id u) (length (nodes st));
                    PrefetchFn u (script_id u) (length (nodes st))])
      by (simpl; by rewrite Htm).
    split; [done |].
    exact (two_timers u (script_id u) (length (nodes st)) st1 Ht Hif1).
Qed.

(** *** The prefetch iframe

    [prefetch] reads [contentWindow] of whatever element carries the id of
    the prefetch iframe.  The loader gives that id to the iframe only: the
    id of a script comes from a number, and the scripts of [eval] have
    none. *)
Definition iframe_ok (st : state) : Prop :=
  Forall (λ n, has_id st (ID_PREFIX +:+ "prefetch") n = true →
               is_iframe n st = true) (document st).

#[export] Instance iframe_ok_dec st : Decision (iframe_ok st).
Proof. unfold iframe_ok. apply _. Defined.

Definition sound (st : state) : Prop := wf st ∧ iframe_ok st.

Lemma iframe_ok_attach e st (d : list nat) :
  wf st → iframe_ok st →
  (id e = ID_PREFIX +:+ "prefetch" → tag e = IFRAME) →
  (∀ n, n ∈ d → n = length (nodes st) ∨ n ∈ document st) →
  Forall (λ n, has_id (set_nodes (λ ns, ns ++ [e]) st)
                 (ID_PREFIX +:+ "prefetch") n = true →
               is_iframe n (set_nodes (λ ns, ns ++ [e]) st) = true) d.
Proof.
  intros (_ & Hb & _) Hi He Hd. unfold iframe_ok in Hi.
  rewrite Forall_forall in *. intros n Hn.
  unfold has_id, is_iframe. simpl.
  destruct (Hd n Hn) as [->|Hin].
  - rewrite list_lookup_middle by done.
    intros Hid%bool_decide_eq_true. apply bool_decide_eq_true. by apply He.
  - rewrite lookup_app_l by (by apply Hb). by apply Hi.
Qed.

Lemma sound_load_ u cls fn st :
  channel fn = script_id u → sound st →
  sound (load_ u (script_id u) cls fn st).2.
Proof.
  intros Hch [Hw Hi]. split.
  - by apply (grows_insert
                {| tag := SCRIPT; id := script_id u; className := cls; src := u;
                   body := ""; loaded := false; onload := Some fn;
                   contentDocument := [] |} st).
  - apply (iframe_ok_attach
             {| tag := SCRIPT; id := script_id u; className := cls; src := u;
                body := ""; loaded := false; onload := Some fn;
                contentDocument := [] |} st); [done | done | |].
    + simpl. intros Hid. by destruct (script_id_not_prefetch u).
    + intros n. simpl. by rewrite elem_of_cons.
Qed.

Lemma sound_script t st :
  sound st →
  sound (insertFirst
           (createElement
              {| tag := SCRIPT; id := ""; className := ""; src := ""; body := t;
                 loaded := false; onload := None; contentDocument := [] |} st).1
           (createElement
              {| tag := SCRIPT; id := ""; className := ""; src := ""; body := t;
                 loaded := false; onload := None; contentDocument := [] |} st).2).
Proof.
  intros [Hw Hi]. split.
  - by apply grows_insert.
  - apply (iframe_ok_attach
             {| tag := SCRIPT; id := ""; className := ""; src := ""; body := t;
                loaded := false; onload := None; contentDocument := [] |} st);
      [done | done | done |].
    intros n. simpl. by rewrite elem_of_cons.
Qed.

Lemma sound_iframe st :
  sound st → sound (createIframe (ID_PREFIX +:+ "prefetch") st).2.
Proof.
  intros [Hw Hi]. split.
  - by apply (grows_append
                {| tag := IFRAME; id := ID_PREFIX +:+ "prefetch"; className := "";
                   src := ""; body := ""; loaded := false; onload := None;
                   contentDocument := [] |} st).
  - apply (iframe_ok_attach
             {| tag := IFRAME; id := ID_PREFIX +:+ "prefetch"; className := "";
                src := ""; body := ""; loaded := false; onload := None;
                contentDocument := [] |} st); [done | done | done |].
    intros n. simpl. rewrite elem_of_app, list_elem_of_singleton. tauto.
Qed.

Lemma sound_remove n st : sound st → sound (removeChild n st).
Proof.
  intros [Hw Hi]. split; [by apply wf_remove |].
  unfold iframe_ok in *. rewrite Forall_forall in *. simpl. intros k Hk.
  apply list_elem_of_filter in Hk as [_ Hk]. by apply Hi.
Qed.

Lemma sound_mark n st : sound st → sound (dataset_set_loaded n st).
Proof.
  intros [Hw Hi]. split; [by apply wf_mark |].
  unfold iframe_ok in *. rewrite Forall_forall in *. intros k Hk.
  specialize (Hi k Hk). revert Hi.
  unfold has_id, is_iframe, dataset_set_loaded. simpl.
  destruct (decide (n = k)) as [->|Hne].
  - rewrite list_lookup_alter_eq. by destruct (nodes st !! k).
  - by rewrite list_lookup_alter_ne.
Qed.

Lemma sound_prefetch_ u i f st : sound st → sound (prefetch_ u i f st).
Proof.
  intros [Hw Hi]. split; [by apply wf_prefetch_ |].
  destruct (prefetch__primary u i f st) as (Hd & _ & _).
  destruct Hw as (_ & Hb & _).
  unfold iframe_ok in *. rewrite Hd. rewrite Forall_forall in *. intros k Hk.
  rewrite has_id_prefetch_ by (by apply Hb). intros Hid.
  apply prefetch__is_iframe. by apply Hi.
Qed.

Lemma prefetch_sound u st : sound st → ∃ st', prefetch u st = Normal st'.
Proof.
  intros [_ Hi]. unfold prefetch.
  destruct (getElementById (script_id u) st); [by eexists |].
  destruct (getElementById (ID_PREFIX +:+ "prefetch") st) as [f|] eqn:Hf.
  - unfold getElementById in Hf. apply head_Some_elem_of in Hf.
    apply list_elem_of_filter in Hf as [Hid Hin].
    unfold iframe_ok in Hi. rewrite Forall_forall in Hi.
    rewrite (Hi f Hin Hid).
    destruct (frame_getElementById _ _ _); by eexists.
  - destruct (createIframe _ st). by eexists.
Qed.

Lemma init_sound : wf init ∧ unique_ids init ∧ iframe_ok init.
Proof. repeat split; constructor. Qed.

(** X9.  In a document where only the prefetch iframe carries its id,
    as in the empty document, this stays so whatever happens, and neither
    [prefetch] nor [preexecute] ever raises. *)
Theorem prefetch_never_raises l st u result :
  wf st → iframe_ok st →
  iframe_ok (steps l st)
  ∧ (∃ st', prefetch u (steps l st) = Normal st')
  ∧ (∃ st', preexecute result (steps l st) = Normal st').
Proof.
  intros Hw Hi.
  assert (Hinv : ∀ a s, sound s → sound (step a s)).
  { intros a s. apply (inv_step sound); try done.
    - intros ? ? ? ? _. apply sound_load_.
    - apply sound_script.
    - apply sound_remove.
    - apply sound_mark.
    - intros ? _. apply sound_iframe.
    - apply sound_prefetch_. }
  assert (Hs : sound (steps l st)).
  { revert st Hw Hi. induction l as [|a l IH]; intros st Hw Hi; [done |].
    rewrite steps_cons. destruct (Hinv a st (conj Hw Hi)). by apply IH. }
  split; [apply Hs | split; [by apply prefetch_sound |]].
  assert (Hp : ∀ v s, sound s → sound (state_of (prefetch v s))).
  { intros v s. change (state_of (prefetch v s)) with (step (DoPrefetch v) s).
    apply Hinv. }
  unfold preexecute. generalize (queue result). intros items.
  revert Hs. generalize (steps l st). clear -Hp.
  induction items as [|it rest IH]; intros s Hs; simpl; [by eexists |].
  case_bool_decide; [| by apply IH].
  destruct (prefetch_sound (url it) s Hs) as [s' Hs'].
  rewrite Hs'. apply IH. specialize (Hp (url it) s Hs). by rewrite Hs' in Hp.
Qed.

(** *** The timers of [preexecute] *)

(** The iframe that [prefetch] uses: the one in the document, or the one
    it is about to create. *)
Definition iframe_of (st : state) : nat :=
  default (length (nodes st)) (getElementById (ID_PREFIX +:+ "prefetch") st).

(** The element that [spf.dom.createIframe] creates. *)
Definition prefetch_iframe : element :=
  {| tag := IFRAME; id := ID_PREFIX +:+ "prefetch"; className := ""; src := "";
     body := ""; loaded := false; onload := None; contentDocument := [] |}.

(** [prefetch] creates the iframe: the url passes its first test and no
    element carries the id of the iframe. *)
Definition creates (u : string) (st : state) : bool :=
  match getElementById (script_id u) st,
        getElementById (ID_PREFIX +:+ "prefetch") st with
  | None, None => true
  | _, _ => false
  end.

Lemma creates_primed u st : creates u st = true → primed u st = false.
Proof.
  unfold creates, primed. destruct (getElementById (script_id u) st); [done |].
  by destruct (getElementById (ID_PREFIX +:+ "prefetch") st).
Qed.

Lemma prefetch_effect u st :
  sound st →
  ∃ st',
    prefetch u st = Normal st'
    ∧ sound st'
    ∧ timers st'
      = timers st
        ++ (if primed u st then []
            else [PrefetchFn u (script_id u) (iframe_of st)])
    ∧ (∀ v, primed v st' = primed v st)
    ∧ iframe_of st' = iframe_of st
    ∧ trace st' = trace st ∧ runs st' = runs st
    ∧ subscriptions st' = subscriptions st
    ∧ (∀ v, getElementById (script_id v) st' = getElementById (script_id v) st)
    ∧ nodes st' = nodes st ++ (if creates u st then [prefetch_iframe] else [])
    ∧ document st'
      = document st ++ (if creates u st then [length (nodes st)] else [])
    ∧ (if creates u st
       then is_Some (getElementById (ID_PREFIX +:+ "prefetch") st')
       else getElementById (ID_PREFIX +:+ "prefetch") st'
            = getElementById (ID_PREFIX +:+ "prefetch") st).
Proof.
  intros Hs. pose proof Hs as [Hw Hi].
  unfold prefetch, primed at 1, iframe_of at 1, creates.
  destruct (getElementById (script_id u) st) as [el|] eqn:Hel.
  { eexists. split; [done |]. by rewrite !app_nil_r. }
  destruct (getElementById (ID_PREFIX +:+ "prefetch") st) as [f|] eqn:Hf.
  - assert (Hif : is_iframe f st = true).
    { unfold getElementById in Hf. apply head_Some_elem_of in Hf.
      apply list_elem_of_filter in Hf as [Hid Hin].
      unfold iframe_ok in Hi. rewrite Forall_forall in Hi. by apply Hi. }
    rewrite Hif.
    destruct (frame_getElementById (script_id u) f st) as [o|] eqn:Ho.
    { eexists. split; [done |]. simpl. by rewrite !app_nil_r. }
    eexists. split; [done |]. simpl. by rewrite !app_nil_r.
  - destruct (createIframe_found (ID_PREFIX +:+ "prefetch") st Hw Hf)
      as (Hf1 & Hif1 & Ho1 & Hother).
    pose proof (sound_iframe st Hs) as Hs1.
    change (createIframe (ID_PREFIX +:+ "prefetch") st)
      with (length (nodes st), (createIframe (ID_PREFIX +:+ "prefetch") st).2).
    cbv beta iota.
    set (st1 := (createIframe (ID_PREFIX +:+ "prefetch") st).2) in *.
    eexists. split; [done |]. split; [exact Hs1 |].
    split; [done |].
    assert (Hsid : ∀ v, getElementById (script_id v)
                          (setTimeout (PrefetchFn u (script_id u)
                                         (length (nodes st))) st1)
                        = getElementById (script_id v) st).
    { intros v. apply (Hother (script_id v)). apply script_id_not_prefetch. }
    split; [| split; [| split; [| split; [| split; [| split; [| split;
      [| split]]]]]]]; try done.
    + intros v. unfold primed. rewrite Hsid.
      destruct (getElementById (script_id v) st); [done |].
      change (getElementById (ID_PREFIX +:+ "prefetch") (setTimeout _ st1))
        with (getElementById (ID_PREFIX +:+ "prefetch") st1).
      rewrite Hf1, Hf.
      change (is_iframe (length (nodes st)) (setTimeout _ st1))
        with (is_iframe (length (nodes st)) st1). rewrite Hif1. simpl.
      apply bool_decide_eq_false_2. intros [o Ho].
      revert Ho. unfold frame_getElementById. simpl.
      by rewrite list_lookup_middle.
    + unfold iframe_of.
      change (getElementById (ID_PREFIX +:+ "prefetch") (setTimeout _ st1))
        with (getElementById (ID_PREFIX +:+ "prefetch") st1).
      by rewrite Hf1, Hf.
Qed.

Definition to_prefetch (st : state) (items : list item) : list string :=
  filter (λ u, u ≠ "" ∧ primed u st = false) (url <$> items).

(** [preexecute] creates the iframe: some url of the queue is to be
    prefetched and no element carries the id of the iframe. *)
Definition needs_iframe (st : state) (items : list item) : bool :=
  match to_prefetch st items, getElementById (ID_PREFIX +:+ "prefetch") st with
  | _ :: _, None => true
  | _, _ => false
  end.

Lemma to_prefetch_ext st st' items :
  (∀ v, primed v st' = primed v st) →
  to_prefetch st' items = to_prefetch st items.
Proof.
  intros H. unfold to_prefetch. apply list_filter_iff. intros u.
  by rewrite H.
Qed.

Lemma to_prefetch_cons st it rest :
  to_prefetch st (it :: rest)
  = (if bool_decide (url it ≠ "") && negb (primed (url it) st)
     then [url it] else [])
    ++ to_prefetch st rest.
Proof.
  unfold to_prefetch. rewrite fmap_cons.
  case_bool_decide as Hu; simpl.
  - destruct (primed (url it) st) eqn:Hp; simpl.
    + rewrite filter_cons_False by (intros [_ ?]; congruence). done.
    + by rewrite filter_cons_True.
  - rewrite filter_cons_False; [done |]. by intros [? _].
Qed.

(** X10.  [preexecute] sets timers and, for the first of them, creates
    the prefetch iframe when the document has none; it does nothing else.
    There is one timer for every item of the queue with a url that has no
    element in the document and none in the iframe, in the order of the
    queue, a url that occurs twice getting two.  The iframe, when created,
    is the one new element and is attached last; otherwise the elements
    and the document are as they were.  Nothing is requested or
    evaluated, nothing called or subscribed, and the lookup of every
    script is as it was. *)
Theorem preexecute_timers result st :
  wf st → iframe_ok st →
  ∃ st',
    preexecute result st = Normal st'
    ∧ timers st'
      = timers st
        ++ ((λ u, PrefetchFn u (script_id u) (iframe_of st))
              <$> to_prefetch st (queue result))
    ∧ nodes st'
      = nodes st
        ++ (if needs_iframe st (queue result) then [prefetch_iframe] else [])
    ∧ document st'
      = document st
        ++ (if needs_iframe st (queue result) then [length (nodes st)] else [])
    ∧ trace st' = trace st ∧ runs st' = runs st
    ∧ subscriptions st' = subscriptions st
    ∧ ∀ v, getElementById (script_id v) st' = getElementById (script_id v) st.
Proof.
  intros Hw Hi. unfold preexecute. generalize (queue result). intros items.
  assert (Hs : sound st) by done. clear Hw Hi. revert st Hs.
  induction items as [|it rest IH]; intros st Hs.
  - exists st. simpl. by rewrite !app_nil_r.
  - simpl.
    destruct (IH st Hs)
      as (st2 & Hp2 & Ht2 & Hn2 & Hd2 & Htr2 & Hr2 & Hsu2 & Hg2).
    case_bool_decide as Hu.
    + destruct (prefetch_effect (url it) st Hs)
        as (st1 & -> & Hs1 & Ht1 & Hpr1 & Hf1 & Htr1 & Hr1 & Hsu1 & Hg1
            & Hn1 & Hd1 & Hi1).
      destruct (IH st1 Hs1)
        as (st3 & -> & Ht3 & Hn3 & Hd3 & Htr3 & Hr3 & Hsu3 & Hg3).
      exists st3. split; [done |].
      rewrite Ht3, Ht1, Hf1, Hn3, Hd3, Hn1, Hd1.
      unfold needs_iframe. rewrite (to_prefetch_ext st st1) by done.
      rewrite to_prefetch_cons, bool_decide_eq_true_2 by done. simpl.
      split; [| split; [| split; [| split; [congruence | split;
        [congruence | split; [congruence |]]]]]].
      * rewrite <- (assoc_L (++)). f_equal.
        by destruct (primed (url it) st).
      * destruct (creates (url it) st) eqn:Hc.
        -- rewrite (creates_primed _ _ Hc). simpl. destruct Hi1 as [f ->].
           unfold creates in Hc.
           destruct (getElementById (script_id (url it)) st); [done |].
           destruct (getElementById (ID_PREFIX +:+ "prefetch") st); [done |].
           by destruct (to_prefetch st rest); rewrite app_nil_r.
        -- rewrite Hi1, app_nil_r.
           destruct (primed (url it) st) eqn:Hp; simpl; [done |].
           unfold creates, primed in Hc, Hp.
           destruct (getElementById (script_id (url it)) st); [done |].
           destruct (getElementById (ID_PREFIX +:+ "prefetch") st); [| done].
           by destruct (to_prefetch st rest).
      * destruct (creates (url it) st) eqn:Hc.
        -- rewrite (creates_primed _ _ Hc). simpl. destruct Hi1 as [f ->].
           unfold creates in Hc.
           destruct (getElementById (script_id (url it)) st); [done |].
           destruct (getElementById (ID_PREFIX +:+ "prefetch") st); [done |].
           by destruct (to_prefetch st rest); rewrite app_nil_r.
        -- rewrite Hi1, !app_nil_r.
           destruct (primed (url it) st) eqn:Hp; simpl; [done |].
           unfold creates, primed in Hc, Hp.
           destruct (getElementById (script_id (url it)) st); [done |].
           destruct (getElementById (ID_PREFIX +:+ "prefetch") st); [| done].
           by destruct (to_prefetch st rest).
      * intros v. by rewrite Hg3, Hg1.
    + exists st2. split; [done |].
      unfold needs_iframe. rewrite to_prefetch_cons.
      rewrite bool_decide_eq_false_2 by (by intros ?). simpl.
      done.
Qed.

(** *** The completion of an unloaded element *)

Lemma load_fn_plain el st w fns :
  nodes st !! el ≫= onload = Some w →
  scriptElsToRemove w = [] →
  dataset_get_loaded el st = false →
  subscribers (channel w) st = Fn <$> fns →
  load_fn el st
  = clear (channel w)
      (foldl (λ st n, log (Called n) st)
         (log (Completed el (channel w)) (dataset_set_loaded el st)) fns).
Proof.
  intros Hw Hrm Hl Hs. unfold load_fn. rewrite Hw, Hl, Hrm. simpl.
  unfold publish.
  change (subscribers (channel w)
            (log (Completed el (channel w)) (dataset_set_loaded el st)))
    with (subscribers (channel w) st).
  by rewrite Hs, foldl_call_Fn.
Qed.

(** X14.  [unload] detaches the element of a pending request but leaves
    its handlers in place.  When the url is requested again and the old
    element completes first, the completion body of the old element
    publishes the channel of the url: the callback of the new request is
    called although the new element has not loaded, and when the new
    element does complete no callback is left to call. *)
Theorem completion_of_unloaded st u el w n :
  wf st →
  filter (λ m, has_id st (script_id u) m = true) (document st) = [el] →
  dataset_get_loaded el st = false →
  nodes st !! el ≫= onload = Some w →
  scriptElsToRemove w = [] →
  let st1 := state_of (unload u st) in
  let el' := (load call u (Some (Fn n)) None st1).1 in
  let st2 := (load call u (Some (Fn n)) None st1).2 in
  let st3 := load_fn el st2 in
  el' ≠ el
  ∧ getElementById (script_id u) st2 = Some el'
  ∧ called (trace st2) = called (trace st)
  ∧ called (trace st3) = called (trace st) ++ [n]
  ∧ dataset_get_loaded el' st3 = false
  ∧ subscribers (script_id u) st3 = []
  ∧ called (trace (load_fn el' st3)) = called (trace st3).
Proof.
  intros Hwf Hone Hl Hw Hrm. cbv zeta.
  assert (Hel : getElementById (script_id u) st = Some el).
  { unfold getElementById. by rewrite Hone. }
  destruct (getElementById_Some _ _ _ Hel) as [Hin Hid].
  destruct Hwf as (_ & Hb & Hok). rewrite Forall_forall in Hb.
  pose proof (Hb el Hin) as Hlt.
  destruct (nodes st !! el) as [e|] eqn:He; [| done]. simpl in Hw.
  assert (Hch : channel w = script_id u).
  { eapply Forall_lookup_1 in Hok; [| exact He].
    unfold wiring_ok in Hok. rewrite Hw in Hok. rewrite Hok.
    unfold el_id in Hid. by rewrite He in Hid. }
  rewrite (unload_found st u el Hel). simpl.
  set (st1 := removeChild el (clear (script_id u) st)).
  pose proof (unload_only st u el Hone) as Habs. fold st1 in Habs.
  destruct (load_absent_state call u (Some (Fn n)) None st1 Habs)
    as (H1 & Hn2 & Hd2 & _ & _ & Ht2 & Hs2).
  rewrite H1.
  set (st2 := (load call u (Some (Fn n)) None st1).2) in *.
  change (nodes st1) with (nodes st) in *.
  change (trace st1) with (trace st) in *.
  assert (Hne : length (nodes st) ≠ el) by lia.
  assert (Hsub : subscribers (script_id u) st2 = Fn <$> [n]).
  { rewrite Hs2. simpl. rewrite subscribers_subscribe, decide_True by done.
    unfold st1. change (subscribers (script_id u) (removeChild el ?s))
      with (subscribers (script_id u) s).
    by rewrite subscribers_clear, decide_True. }
  assert (Hw2 : nodes st2 !! el ≫= onload = Some w).
  { by rewrite Hn2, lookup_app_l, He. }
  assert (Hl2 : dataset_get_loaded el st2 = false).
  { unfold dataset_get_loaded in *. by rewrite Hn2, lookup_app_l. }
  rewrite <- Hch in Hsub.
  rewrite (load_fn_plain el st2 w [n] Hw2 Hrm Hl2 Hsub). simpl.
  set (st3 := clear (channel w) _).
  assert (Hn3 : nodes st3 = alter mark_loaded el (nodes st ++ [new_script u None st1])).
  { unfold st3. simpl. by rewrite Hn2. }
  assert (Hnew : nodes st3 !! length (nodes st) = Some (new_script u None st1)).
  { rewrite Hn3, list_lookup_alter_ne, list_lookup_middle; done. }
  assert (Hs3 : subscribers (script_id u) st3 = []).
  { unfold st3. by rewrite subscribers_clear, decide_True. }
  assert (Hc3 : called (trace st3) = called (trace st) ++ [n]).
  { unfold st3. simpl. rewrite Ht2. unfold called. rewrite !omap_app. simpl.
    by rewrite !app_nil_r. }
  split; [done |]. split.
  { unfold getElementById. rewrite Hd2, filter_cons_True; [done |].
    unfold has_id. rewrite Hn2, list_lookup_middle by done. simpl.
    by apply bool_decide_eq_true. }
  split.
  { rewrite Ht2. unfold called. rewrite omap_app. simpl. by rewrite app_nil_r. }
  split; [done |]. split.
  { unfold dataset_get_loaded. by rewrite Hnew. }
  split; [done |].
  rewrite (load_fn_plain (length (nodes st)) st3
             {| scriptElsToRemove := []; channel := script_id u |} []).
  - simpl. unfold called. rewrite omap_app. simpl. by rewrite app_nil_r.
  - by rewrite Hnew.
  - done.
  - unfold dataset_get_loaded. by rewrite Hnew.
  - simpl. by rewrite Hs3.
Qed.

(** *** Urls with the same hash *)

(** X15.  The element of a url is found by the hash of the url alone, so
    while the element of a url is attached, a request for another url
    with the same hash is taken for a request of the first: it returns
    that element, creates none, and the other url is not requested. *)
Theorem load_same_hash st u v el opt_fn opt_name :
  hashCode v = hashCode u →
  getElementById (script_id u) st = Some el →
  (load call v (Fn <$> opt_fn) opt_name st).1 = el
  ∧ fetched (trace (load call v (Fn <$> opt_fn) opt_name st).2)
    = fetched (trace st)
  ∧ nodes (load call v (Fn <$> opt_fn) opt_name st).2 = nodes st
  ∧ document (load call v (Fn <$> opt_fn) opt_name st).2 = document st.
Proof.
  intros Hh Hel.
  assert (Hid : script_id v = script_id u) by (unfold script_id; by rewrite Hh).
  rewrite <- Hid in Hel.
  destruct (dataset_get_loaded el st) eqn:Hl.
  - rewrite (load_loaded _ _ _ _ _ _ Hel Hl).
    destruct opt_fn; simpl; unfold fetched; rewrite !omap_app; simpl;
      by rewrite !app_nil_r.
  - rewrite (load_loading _ _ _ _ _ _ Hel Hl).
    destruct opt_fn; simpl; unfold fetched; rewrite !omap_app; simpl;
      by rewrite !app_nil_r.
Qed.

(** *** Elements are never rewritten *)

Definition kept (e e' : element) : Prop :=
  tag e' = tag e ∧ id e' = id e ∧ className e' = className e
  ∧ src e' = src e ∧ body e' = body e ∧ onload e' = onload e
  ∧ (loaded e = true → loaded e' = true).

Definition store_kept (st st' : state) : Prop :=
  ∀ n e, nodes st !! n = Some e → ∃ e', nodes st' !! n = Some e' ∧ kept e e'.

Lemma kept_refl e : kept e e.
Proof. by repeat split. Qed.

Lemma kept_trans e1 e2 e3 : kept e1 e2 → kept e2 e3 → kept e1 e3.
Proof.
  intros (? & ? & ? & ? & ? & ? & ?) (? & ? & ? & ? & ? & ? & ?).
  repeat split; try congruence. auto.
Qed.

#[export] Instance store_kept_preorder : PreOrder store_kept.
Proof.
  split.
  - intros st n e He. exists e. split; [done | apply kept_refl].
  - intros s1 s2 s3 H1 H2 n e He.
    destruct (H1 n e He) as (e2 & He2 & Hk2).
    destruct (H2 n e2 He2) as (e3 & He3 & Hk3).
    exists e3. split; [done | by eapply kept_trans].
Qed.

Lemma store_kept_same st st' : nodes st' = nodes st → store_kept st st'.
Proof.
  intros Hn n e He. exists e. rewrite Hn. split; [done | apply kept_refl].
Qed.

Lemma store_kept_more l st : store_kept st (set_nodes (λ ns, ns ++ l) st).
Proof.
  intros n e He. exists e. simpl. split; [| apply kept_refl].
  by apply lookup_app_l_Some.
Qed.

Lemma store_kept_alter f k st :
  (∀ e, kept e (f e)) → store_kept st (set_nodes (alter f k) st).
Proof.
  intros Hf n e He. simpl. destruct (decide (k = n)) as [->|Hne].
  - exists (f e). by rewrite list_lookup_alter_eq, He.
  - exists e. rewrite list_lookup_alter_ne by done. split; [done | apply kept_refl].
Qed.

Lemma store_kept_prefetch_ u i f st : store_kept st (prefetch_ u i f st).
Proof.
  destruct (prefetch__nodes u i f st) as (l & o & Hn & _).
  transitivity (set_nodes (λ ns, ns ++ o :: l) st);
    [apply store_kept_more |].
  intros n e He. simpl in He. rewrite Hn.
  destruct (decide (f = n)) as [->|Hne].
  - exists (appendChild (length (nodes st)) e).
    rewrite list_lookup_alter_eq, He. split; [done | by repeat split].
  - exists e. rewrite list_lookup_alter_ne by done. split; [done | apply kept_refl].
Qed.

(** X16.  Whatever happens, an element keeps the tag, the id, the group
    name, the url, the text and the handlers it was created with, and its
    loaded marker, once set, stays set. *)
Theorem elements_kept l st :
  store_kept st (steps l st)
  ∧ ∀ el, dataset_get_loaded el st = true →
          dataset_get_loaded el (steps l st) = true.
Proof.
  assert (Hk : store_kept st (steps l st)).
  { apply (inv_steps (store_kept st)); try done.
    - intros u cls fn s _ _ Hs. etransitivity; [exact Hs |].
      apply (store_kept_more [_]).
    - intros t s Hs. etransitivity; [exact Hs |]. apply (store_kept_more [_]).
    - intros n s Hs. etransitivity; [exact Hs |].
      apply store_kept_alter. intros e. by repeat split.
    - intros s _ Hs. etransitivity; [exact Hs |]. apply (store_kept_more [_]).
    - intros u i f s Hs. etransitivity; [exact Hs |]. apply store_kept_prefetch_. }
  split; [done |]. intros el. unfold dataset_get_loaded.
  destruct (nodes st !! el) as [e|] eqn:He; [| done]. intros Hl.
  destruct (Hk el e He) as (e' & -> & Hke). by apply Hke.
Qed.

(** *** Queues whose scripts are loaded *)

(** The url of the item needs no request: the item has none, or the
    element of the url is attached and marked as loaded. *)
Definition ready (st : state) (it : item) : bool :=
  bool_decide (url it = "")
  || match getElementById (script_id (url it)) st with
     | Some el => dataset_get_loaded el st
     | None => false
     end.

Definition load_calls (tr : list event) : list string :=
  omap (λ e, match e with LoadCall u => Some u | _ => None end) tr.

(** The texts that [execute] evaluates: those of the items without a
    url. *)
Definition texts_of (items : list item) : list string :=
  omap (λ it, if bool_decide (url it = "" ∧ text it ≠ "")
              then Some (text it) else None) items.

Lemma script_id_ne_empty u : script_id u ≠ "".
Proof. unfold script_id, ID_PREFIX. by intros [=]. Qed.

Lemma ready_script t st it :
  wf st → ready st it = true →
  ready (insertFirst (length (nodes st))
           (set_nodes (λ ns, ns ++ [ {| tag := SCRIPT; id := ""; className := "";
                                        src := ""; body := t; loaded := false;
                                        onload := None; contentDocument := [] |} ])
              st)) it = true.
Proof.
  intros (_ & Hb & _) Hr. rewrite Forall_forall in Hb. revert Hr.
  unfold ready. case_bool_decide as Hu; [done |]. simpl.
  set (st' := insertFirst _ _).
  assert (Hg : getElementById (script_id (url it)) st'
               = getElementById (script_id (url it)) st).
  { unfold getElementById. simpl. rewrite filter_cons_False.
    - apply f_equal, filter_has_id. intros n Hn. unfold has_id. simpl.
      rewrite lookup_app_l; [done | by apply Hb].
    - unfold has_id. simpl. rewrite list_lookup_middle by done. simpl.
      done. }
  rewrite Hg. destruct (getElementById _ st) as [el|] eqn:Hel; [| done].
  apply getElementById_Some in Hel as [Hin _].
  unfold dataset_get_loaded. simpl. rewrite lookup_app_l; [done | by apply Hb].
Qed.

Lemma getNextScript_at_ready r opt_fn items : ∀ st,
  wf st →
  Forall (λ it, ready st it = true) items →
  is_Some (runs st !! r) →
  ∃ evs,
    trace (getNextScript_at r opt_fn items st) = trace st ++ evs
    ∧ evaluated evs = texts_of items
    ∧ load_calls evs = filter (λ u, u ≠ "") (url <$> items)
    ∧ called evs = option_list opt_fn
    ∧ fetched evs = [] ∧ completed evs = []
    ∧ (∀ n, opt_fn = Some n → last evs = Some (Called n))
    ∧ subscriptions (getNextScript_at r opt_fn items st) = subscriptions st
    ∧ timers (getNextScript_at r opt_fn items st) = timers st.
Proof.
  induction items as [|it rest IH]; intros st Hwf Hready [c Hc].
  - destruct opt_fn as [n|]; simpl.
    + exists [Called n]. repeat split; try done. by intros ? [= <-].
    + exists []. rewrite app_nil_r. by repeat split.
  - apply Forall_cons in Hready as [Hit Hready].
    rewrite getNextScript_at_cons. cbv zeta.
    assert (Hstep : ∀ s pre,
              runs s = runs st → wf s →
              Forall (λ it, ready s it = true) rest →
              trace s = trace st ++ pre →
              subscriptions s = subscriptions st → timers s = timers st →
              ∃ evs,
                trace (getNextScript_at r opt_fn rest (advance r s))
                = trace st ++ pre ++ Next r (index c + 1) :: evs
                ∧ evaluated evs = texts_of rest
                ∧ load_calls evs = filter (λ u, u ≠ "") (url <$> rest)
                ∧ called evs = option_list opt_fn
                ∧ fetched evs = [] ∧ completed evs = []
                ∧ (∀ n, opt_fn = Some n → last evs = Some (Called n))
                ∧ subscriptions (getNextScript_at r opt_fn rest (advance r s))
                  = subscriptions st
                ∧ timers (getNextScript_at r opt_fn rest (advance r s))
                  = timers st).
    { intros s pre Hs Hws Hrs Hts Hsu Hti.
      assert (Ha : advance r s
                   = log (Next r (index c + 1)) (set_runs (alter step_index r) s)).
      { unfold advance. by rewrite Hs, Hc. }
      destruct (IH (advance r s))
        as (evs & Ht & He & Hlc & Hca & Hf & Hco & Hla & Hsu' & Hti').
      - rewrite Ha. exact Hws.
      - rewrite Ha. exact Hrs.
      - rewrite Ha. simpl. rewrite Hs, list_lookup_alter_eq, Hc. by eexists.
      - exists evs. split.
        { rewrite Ht, Ha. simpl. by rewrite Hts, <- !(assoc_L (++)). }
        do 6 (split; [done |]). split.
        + rewrite Hsu', Ha. exact Hsu.
        + rewrite Hti', Ha. exact Hti. }
    assert (Hwrap : ∀ pre evs (tr : list event),
              tr = trace st ++ pre ++ Next r (index c + 1) :: evs →
              tr = trace st ++ (pre ++ Next r (index c + 1) :: evs)) by done.
    unfold ready in Hit.
    destruct (decide (url it ≠ "")) as [Hu|Hu];
      [rewrite bool_decide_eq_true_2 by done
      | rewrite bool_decide_eq_false_2 by done].
    + (* an item with a url: its element is attached and loaded *)
      rewrite bool_decide_eq_false_2 in Hit by done. simpl in Hit.
      destruct (getElementById (script_id (url it)) st) as [el|] eqn:Hel;
        [| done].
      rewrite (load_loaded _ _ _ _ _ _ Hel Hit). simpl.
      destruct (Hstep (log (LoadCall (url it)) st) [LoadCall (url it)])
        as (evs & Ht & He & Hlc & Hca & Hf & Hco & Hla & Hsu & Hti);
        try done.
      exists (LoadCall (url it) :: Next r (index c + 1) :: evs).
      split; [exact Ht |]. unfold texts_of. simpl.
      rewrite bool_decide_eq_false_2 by (by intros [? _]).
      rewrite filter_cons_True by done.
      unfold evaluated, load_calls, called, fetched, completed in *. simpl.
      repeat split; try done; try (f_equal; assumption).
      intros n Hn. specialize (Hla n Hn). by destruct evs.
    + clear Hit. rewrite fmap_cons, filter_cons_False by done.
      assert (Hu' : url it = "") by (by destruct (decide (url it = ""))).
      case_bool_decide as Ht.
      * (* an item with a text only *)
        assert (Htx : texts_of (it :: rest) = text it :: texts_of rest).
        { unfold texts_of. simpl. by rewrite bool_decide_eq_true_2. }
        rewrite Htx. unfold eval. cbn [call_opt].
        destruct execScript.
        -- destruct (Hstep (log (Evaluated (text it)) st) [Evaluated (text it)])
             as (evs & Htr & He & Hlc & Hca & Hf & Hco & Hla & Hsu & Hti);
             try done.
           exists (Evaluated (text it) :: Next r (index c + 1) :: evs).
           split; [exact Htr |].
           unfold evaluated, load_calls, called, fetched, completed in *. simpl.
      repeat split; try done; try (f_equal; assumption).
           intros n Hn. specialize (Hla n Hn). by destruct evs.
        -- match goal with
           | |- context [advance r ?s] =>
               destruct (Hstep s [Evaluated (text it)])
                 as (evs & Htr & He & Hlc & Hca & Hf & Hco & Hla & Hsu & Hti)
           end; try done.
           { by apply (grows_insert
                         {| tag := SCRIPT; id := ""; className := ""; src := "";
                            body := text it; loaded := false; onload := None;
                            contentDocument := [] |} st). }
           { eapply Forall_impl; [exact Hready |]. intros it' Hit'.
             by apply (ready_script (text it) st it'). }
           exists (Evaluated (text it) :: Next r (index c + 1) :: evs).
           split; [exact Htr |].
           unfold evaluated, load_calls, called, fetched, completed in *. simpl.
      repeat split; try done; try (f_equal; assumption).
           intros n Hn. specialize (Hla n Hn). by destruct evs.
      * (* an item with neither *)
        assert (Htx : texts_of (it :: rest) = texts_of rest).
        { unfold texts_of. simpl. rewrite bool_decide_eq_false_2; [done |].
          by intros [_ ?]. }
        rewrite Htx.
        destruct (Hstep st [])
          as (evs & Htr & He & Hlc & Hca & Hf & Hco & Hla & Hsu & Hti);
          try done; [by rewrite app_nil_r |].
        exists (Next r (index c + 1) :: evs).
        split; [exact Htr |].
        unfold evaluated, load_calls, called, fetched, completed in *. simpl.
      repeat split; try done; try (f_equal; assumption).
        intros n Hn. specialize (Hla n Hn). by destruct evs.
Qed.

(** X17.  A queue whose urls all have an attached element that is marked
    as loaded is executed within the call of [execute], as a queue of
    inline scripts is: [load] is called for the urls in the order of the
    queue and calls back at once, the texts of the items without a url are
    evaluated in between, and the callback is called once, as the last
    action; nothing is requested, subscribed or put off to a timer. *)
Theorem execute_ready result opt_fn st :
  wf st →
  Forall (λ it, ready st it = true) (queue result) →
  ∃ evs,
    trace (execute result opt_fn st) = trace st ++ evs
    ∧ evaluated evs = texts_of (queue result)
    ∧ load_calls evs = filter (λ u, u ≠ "") (url <$> queue result)
    ∧ called evs = option_list opt_fn
    ∧ fetched evs = [] ∧ completed evs = []
    ∧ (∀ n, opt_fn = Some n → last evs = Some (Called n))
    ∧ subscriptions (execute result opt_fn st) = subscriptions st
    ∧ timers (execute result opt_fn st) = timers st.
Proof.
  intros Hwf Hready. unfold execute.
  destruct (queue result) as [|it rest] eqn:Hq.
  - simpl. destruct opt_fn as [n|]; simpl.
    + exists [Called n]. repeat split; try done. by intros ? [= <-].
    + exists []. rewrite app_nil_r. by repeat split.
  - rewrite bool_decide_eq_false_2 by (simpl; lia). cbv zeta.
    set (c0 := {| run_queue := it :: rest; index := -1; opt_callback := opt_fn |}).
    set (st1 := set_runs (λ rs, rs ++ [c0]) st).
    assert (Hc0 : runs st1 !! length (runs st) = Some c0)
      by (simpl; by rewrite list_lookup_middle).
    unfold getNextScript. rewrite Hc0.
    change (drop (Z.to_nat (index c0 + 1)) (run_queue c0)) with (it :: rest).
    change (opt_callback c0) with opt_fn.
    assert (Ha : advance (length (runs st)) st1
                 = log (Next (length (runs st)) 0)
                     (set_runs (alter step_index (length (runs st))) st1)).
    { unfold advance. by rewrite Hc0. }
    destruct (getNextScript_at_ready (length (runs st)) opt_fn (it :: rest)
                (advance (length (runs st)) st1))
      as (evs & Ht & He & Hlc & Hca & Hf & Hco & Hla & Hsu & Hti).
    + rewrite Ha. exact Hwf.
    + rewrite Ha. exact Hready.
    + rewrite Ha. simpl. rewrite list_lookup_alter_eq, list_lookup_middle by done.
      by eexists.
    + exists (Next (length (runs st)) 0 :: evs).
      split; [rewrite Ht, Ha; simpl; by rewrite <- (assoc_L (++)) |].
      split; [exact He |]. split; [exact Hlc |]. split; [exact Hca |].
      split; [exact Hf |]. split; [exact Hco |]. split.
      { intros n Hn. specialize (Hla n Hn). by destruct evs. }
      split; [by rewrite Hsu, Ha | by rewrite Hti, Ha].
Qed.

(** *** The queue parser on markup with script tags *)

Fixpoint all_chars (P : ascii → bool) (s : string) : bool :=
  match s with
  | EmptyString => true
  | String c s' => P c && all_chars P s'
  end.

Definition is_not (a c : ascii) : bool := bool_decide (c ≠ a).

(** [differs ci a c]: the code unit [c] does not match [a]. *)
Definition differs (ci : bool) (a c : ascii) : bool :=
  bool_decide ((if ci then lower a else a) ≠ (if ci then lower c else c)).

(** A script tag with the attribute text [attr] and the body [t]. *)
Definition script_tag (attr t : string) : string :=
  "<script" +:+ attr +:+ ">" +:+ t +:+ "</script>".

Lemma append_nil (b : string) : "" +:+ b = b.
Proof. reflexivity. Qed.

Lemma append_cons x (a b : string) : String x a +:+ b = String x (a +:+ b).
Proof. reflexivity. Qed.

Lemma append_assoc (a b c : string) : (a +:+ b) +:+ c = a +:+ b +:+ c.
Proof.
  induction a as [|x a IH]; [done |]. rewrite !append_cons. by f_equal.
Qed.

Lemma length_append (a b : string) :
  String.length (a +:+ b) = (String.length a + String.length b)%nat.
Proof.
  induction a as [|x a IH]; [done |]. rewrite append_cons. simpl. by f_equal.
Qed.

Lemma strip_here ci p s : strip ci p (p +:+ s) = Some s.
Proof.
  induction p as [|a p IH]; [by destruct s |].
  rewrite append_cons. simpl. by rewrite bool_decide_eq_true_2.
Qed.

Lemma strip_cons (ci : bool) a p c s :
  strip ci (String a p) (String c s)
  = if differs ci a c then None else strip ci p s.
Proof.
  unfold differs. simpl. case_bool_decide as H1; case_bool_decide as H2; done.
Qed.

(** A match of [p] cannot begin in [x] and end beyond it when the code
    unit that follows [x] matches none of [p]. *)
Lemma strip_straddle ci p a w : ∀ x,
  all_chars (λ b, differs ci b a) p = true →
  strip ci p x = None → strip ci p (x +:+ String a w) = None.
Proof.
  induction p as [|b p IH]; intros x Hp Hx; [by destruct x |].
  simpl in Hp. apply andb_true_iff in Hp as [Hb Hp].
  destruct x as [|c x].
  - rewrite append_nil, strip_cons. by rewrite Hb.
  - rewrite append_cons, strip_cons. rewrite strip_cons in Hx.
    destruct (differs ci b c); [done |]. by apply IH.
Qed.

Lemma cut_cons ci p c s :
  cut ci p (String c s)
  = match strip ci p (String c s) with
    | Some rest => Some (EmptyString, rest)
    | None =>
        match cut ci p s with
        | Some (before, after) => Some (String c before, after)
        | None => None
        end
    end.
Proof. reflexivity. Qed.

Lemma cut_None ci p s :
  cut ci p s = None →
  strip ci p s = None
  ∧ match s with EmptyString => True | String _ s' => cut ci p s' = None end.
Proof.
  destruct s as [|c s].
  - simpl. by destruct (strip ci p "").
  - rewrite cut_cons. destruct (strip ci p (String c s)); [done |].
    by destruct (cut ci p s) as [[? ?]|].
Qed.

Lemma cut_here ci p s : cut ci p (p +:+ s) = Some (EmptyString, s).
Proof.
  destruct (p +:+ s) eqn:Heq; simpl; rewrite <- ?Heq, strip_here; done.
Qed.

(** The first occurrence of [a p] in [x] followed by [a p] is the one that
    follows [x], when [x] has none and [a] matches no later code unit of
    the pattern. *)
Lemma cut_after ci a p x s :
  all_chars (λ b, differs ci b a) p = true →
  cut ci (String a p) x = None →
  cut ci (String a p) (x +:+ String a p +:+ s) = Some (x, s).
Proof.
  intros Hp. induction x as [|c x IH]; intros Hx.
  - apply (cut_here ci (String a p) s).
  - apply cut_None in Hx as [Hs Hx]. rewrite (append_cons c x), cut_cons.
    rewrite strip_cons in Hs. rewrite strip_cons.
    destruct (differs ci a c); [by rewrite IH |].
    assert (Hst : strip ci p (x +:+ String a p +:+ s) = None)
      by (by apply (strip_straddle ci p a (p +:+ s) x)).
    by rewrite Hst, IH.
Qed.

Lemma cut_char a x s :
  all_chars (is_not a) x = true →
  cut false (String a "") (x +:+ String a "" +:+ s) = Some (x, s).
Proof.
  intros Hx. apply cut_after; [done |].
  induction x as [|c x IH]; [done |].
  simpl in Hx. apply andb_true_iff in Hx as [Hc%bool_decide_eq_true Hx].
  rewrite cut_cons, strip_cons. unfold differs.
  rewrite bool_decide_eq_true_2 by congruence. by rewrite IH.
Qed.

Lemma match_script_tag_here attr t rest :
  all_chars (is_not ">") attr = true →
  cut true "</script>" t = None →
  match_script_tag (script_tag attr t +:+ rest)
  = Some (attr, t, String.length (script_tag attr t)).
Proof.
  intros Ha Ht. unfold match_script_tag, script_tag.
  rewrite !append_assoc, strip_here.
  rewrite (cut_char ">" attr) by done.
  rewrite (cut_after true "<" "/script>" t) by done.
  do 2 f_equal. rewrite !length_append. simpl. rewrite ?length_append. simpl. lia.
Qed.

Lemma replace_script_tags_skip x : ∀ rest,
  replace_script_tags (x +:+ rest) (String.length x)
  = replace_script_tags rest 0.
Proof.
  induction x as [|c x IH]; intros rest; [done |].
  rewrite append_cons. simpl. apply IH.
Qed.

Lemma replace_script_tags_cons c s :
  match_script_tag (String c s) = None →
  replace_script_tags (String c s) 0
  = (String c (replace_script_tags s 0).1, (replace_script_tags s 0).2).
Proof.
  intros Hm. cbn [replace_script_tags]. rewrite Hm.
  by destruct (replace_script_tags s 0).
Qed.

Lemma match_script_tag_None s :
  strip true "<script" s = None → match_script_tag s = None.
Proof. intros H. unfold match_script_tag. by rewrite H. Qed.

(** Text with no [<script] in it is kept up to a [<] that follows. *)
Lemma replace_script_tags_plain pre w :
  cut true "<script" pre = None →
  replace_script_tags (pre +:+ String "<" w) 0
  = (pre +:+ (replace_script_tags (String "<" w) 0).1,
     (replace_script_tags (String "<" w) 0).2).
Proof.
  induction pre as [|c pre IH]; intros Hp.
  - rewrite !append_nil. by destruct (replace_script_tags _ 0).
  - apply cut_None in Hp as [Hs Hp]. rewrite !(append_cons c).
    rewrite replace_script_tags_cons.
    + by rewrite IH.
    + apply match_script_tag_None.
      change "<script" with (String "<" "script") in *.
      rewrite strip_cons in Hs. rewrite strip_cons.
      destruct (differs true "<" c); [done |]. by apply strip_straddle.
Qed.

Lemma replace_script_tags_tag attr t rest :
  all_chars (is_not ">") attr = true →
  cut true "</script>" t = None →
  replace_script_tags (script_tag attr t +:+ rest) 0
  = ((replace_script_tags rest 0).1,
     script_item attr t :: (replace_script_tags rest 0).2).
Proof.
  intros Ha Ht.
  pose proof (match_script_tag_here attr t rest Ha Ht) as Hm.
  revert Hm. unfold script_tag.
  change ("<script" +:+ attr +:+ ">" +:+ t +:+ "</script>")
    with (String "<" ("script" +:+ attr +:+ ">" +:+ t +:+ "</script>")).
  set (tag := "script" +:+ attr +:+ ">" +:+ t +:+ "</script>").
  rewrite (append_cons "<" tag). intros Hm.
  cbn [replace_script_tags]. rewrite Hm.
  change (String.length (String "<" tag) - 1)%nat
    with (String.length tag - 0)%nat.
  rewrite Nat.sub_0_r, replace_script_tags_skip.
  by destruct (replace_script_tags rest 0).
Qed.

(** X11.  Markup that starts with text without [<script], followed by a
    script tag whose attribute text has no [>] and whose body has no
    [</script>], in whatever case: [parse] keeps the text, drops the tag,
    queues the item of the tag first, and goes on with what follows the
    tag.  So the items of the queue are in the order of the tags, and the
    text around the tags stays as it is. *)
Theorem parse_script_tag pre attr t rest :
  cut true "<script" pre = None →
  all_chars (is_not ">") attr = true →
  cut true "</script>" t = None →
  parse (Some (pre +:+ script_tag attr t +:+ rest))
  = {| original := pre +:+ script_tag attr t +:+ rest;
       parsed := pre +:+ parsed (parse (Some rest));
       queue := script_item attr t :: queue (parse (Some rest)) |}.
Proof.
  intros Hp Ha Ht.
  assert (Hrest : replace_script_tags rest 0
                  = (parsed (parse (Some rest)), queue (parse (Some rest)))).
  { unfold parse. destruct rest as [|c rest]; [done |].
    by destruct (replace_script_tags (String c rest) 0). }
  assert (Htag : script_tag attr t +:+ rest
                 = String "<" (("script" +:+ attr +:+ ">" +:+ t +:+ "</script>")
                               +:+ rest)) by done.
  unfold parse at 1.
  destruct (pre +:+ script_tag attr t +:+ rest) as [|c s] eqn:Hs.
  { rewrite Htag in Hs. by destruct pre. }
  rewrite <- Hs. rewrite Htag, (replace_script_tags_plain pre) by done.
  rewrite <- Htag, replace_script_tags_tag, Hrest by done. done.
Qed.

Lemma strip_Some_suffix ci p : ∀ x r,
  strip ci p x = Some r → ∃ y, x = y +:+ r.
Proof.
  induction p as [|a p IH]; intros x r.
  - destruct x; intros [= <-]; by exists "".
  - destruct x as [|c x]; [done |]. rewrite strip_cons.
    destruct (differs ci a c); [done |]. intros [y ->]%IH.
    by exists (String c y).
Qed.

Lemma cut_Some_suffix ci p : ∀ x b a,
  cut ci p x = Some (b, a) → ∃ y, x = y +:+ a.
Proof.
  induction x as [|c x IH]; intros b a.
  - simpl. destruct (strip ci p "") eqn:Hs; [| done].
    intros [= _ <-]. by apply strip_Some_suffix in Hs.
  - rewrite cut_cons. destruct (strip ci p (String c x)) eqn:Hs.
    + intros [= _ <-]. by apply strip_Some_suffix in Hs.
    + destruct (cut ci p x) as [[b' a']|] eqn:Hc; [| done].
      intros [= _ <-]. destruct (IH _ _ eq_refl) as [y ->].
      by exists (String c y).
Qed.

Lemma cut_None_suffix ci p y : ∀ x,
  cut ci p (y +:+ x) = None → cut ci p x = None.
Proof.
  induction y as [|c y IH]; intros x; [done |].
  rewrite append_cons. intros [_ H]%cut_None. by apply IH.
Qed.

Lemma match_script_tag_unclosed x :
  cut true "</script>" x = None → match_script_tag x = None.
Proof.
  intros Hx. unfold match_script_tag.
  destruct (strip true "<script" x) as [s1|] eqn:H1; [| done].
  destruct (cut false ">" s1) as [[attr s2]|] eqn:H2; [| done].
  apply strip_Some_suffix in H1 as [y1 ->].
  apply cut_Some_suffix in H2 as [y2 ->].
  apply cut_None_suffix in Hx. apply cut_None_suffix in Hx. by rewrite Hx.
Qed.

(** X12.  Markup without [<script], or without [</script>], in whatever
    case, has no script tag: [parse] returns it as it is, with an empty
    queue. *)
Theorem parse_plain s :
  cut true "<script" s = None ∨ cut true "</script>" s = None →
  parse (Some s) = {| original := s; parsed := s; queue := [] |}.
Proof.
  intros H.
  assert (Hr : replace_script_tags s 0 = (s, [])).
  { induction s as [|c s IH]; [done |].
    rewrite replace_script_tags_cons.
    - rewrite IH; [done |].
      destruct H as [H|H]; apply cut_None in H as [_ H]; auto.
    - destruct H as [H|H].
      + apply match_script_tag_None. by apply cut_None in H as [H _].
      + by apply match_script_tag_unclosed. }
  unfold parse. destruct s as [|c s]; [done |]. by rewrite Hr.
Qed.

(** *** The attribute expressions *)

Lemma attr_match_unfold key attr :
  attr_match key attr
  = match
      match strip false (key +:+ "=" +:+ String dquote EmptyString) attr with
      | Some rest =>
          match before_last_quote (non_space_run rest) with
          | Some (String c p) => Some (String c p)
          | _ => None
          end
      | None => None
      end
    with
    | Some v => Some v
    | None =>
        match attr with
        | EmptyString => None
        | String _ attr' => attr_match key attr'
        end
    end.
Proof. by destruct attr. Qed.

Lemma all_chars_append P (a b : string) :
  all_chars P (a +:+ b) = all_chars P a && all_chars P b.
Proof.
  induction a as [|x a IH]; [done |]. rewrite append_cons. simpl.
  by rewrite IH, andb_assoc.
Qed.

Lemma get_strip k a q : ∀ w r,
  strip false (k +:+ String a q) w = Some r →
  String.get (String.length k) w = Some a.
Proof.
  induction k as [|b k IH]; intros w r.
  - rewrite append_nil. destruct w as [|c w]; [done |]. rewrite strip_cons.
    unfold differs. case_bool_decide as Hc; [done |]. intros _. simpl.
    f_equal. symmetry. by destruct (decide (a = c)).
  - rewrite append_cons. destruct w as [|c w]; [done |]. rewrite strip_cons.
    destruct (differs false b c); [done |]. simpl. apply IH.
Qed.

Lemma get_free a x y : ∀ n,
  all_chars (is_not a) x = true → (n < String.length x)%nat →
  String.get n (x +:+ y) ≠ Some a.
Proof.
  induction x as [|c x IH]; intros n Hx Hn; simpl in Hn; [lia |].
  simpl in Hx. apply andb_true_iff in Hx as [Hc%bool_decide_eq_true Hx].
  rewrite append_cons. destruct n as [|n]; simpl.
  - congruence.
  - apply IH; [done | lia].
Qed.

Lemma non_space_run_value v post :
  all_chars (λ c, negb (is_space c)) v = true →
  non_space_run post = "" →
  non_space_run (v +:+ String dquote post) = v +:+ String dquote "".
Proof.
  intros Hv Hp. induction v as [|c v IH].
  - rewrite !append_nil. simpl. by rewrite Hp.
  - simpl in Hv. apply andb_true_iff in Hv as [Hc%negb_true_iff Hv].
    rewrite !append_cons. simpl. by rewrite Hc, IH.
Qed.

Lemma before_last_quote_value v :
  before_last_quote (v +:+ String dquote "") = Some v.
Proof.
  induction v as [|c v IH]; [done |].
  rewrite append_cons. simpl. by rewrite IH.
Qed.

(** X13.  The value that [SRC_ATTR_REGEXP] and [CLASS_ATTR_REGEXP] find:
    when nothing before the key has an equals sign, it is all that stands
    between the double quote after the equals sign and the last double
    quote before the next white space, double quotes within included. *)
Theorem attr_match_value key pre v post :
  all_chars (is_not "=") pre = true →
  all_chars (is_not "=") key = true →
  v ≠ "" →
  all_chars (λ c, negb (is_space c)) v = true →
  non_space_run post = "" →
  attr_match key
    (pre +:+ key +:+ "=" +:+ String dquote v +:+ String dquote post)
  = Some v.
Proof.
  intros Hpre Hkey Hv Hns Hpost.
  assert (Hsplit : key +:+ "=" +:+ String dquote v +:+ String dquote post
                   = (key +:+ "=" +:+ String dquote EmptyString)
                     +:+ v +:+ String dquote post).
  { by rewrite !append_assoc. }
  induction pre as [|c pre IH].
  - rewrite append_nil, attr_match_unfold, Hsplit, strip_here.
    rewrite non_space_run_value, before_last_quote_value by done.
    by destruct v.
  - simpl in Hpre. apply andb_true_iff in Hpre as [Hc Hpre].
    rewrite append_cons, attr_match_unfold.
    destruct (strip false (key +:+ "=" +:+ String dquote "") _) as [r|] eqn:Hs;
      [| by apply IH].
    apply get_strip in Hs. exfalso. revert Hs.
    rewrite <- (append_cons c pre), <- append_assoc.
    apply get_free.
    + rewrite all_chars_append. simpl. by rewrite Hc, Hpre, Hkey.
    + rewrite length_append. simpl. lia.
Qed.

End Loader.

(** ** Concrete runs

    The statements above hold for every hash function and every browser.
    Here they are applied to runs over the empty document, with a
    polynomial hash of the url on 32 bits, outside Internet Explorer. *)

Fixpoint hash_from (h : Z) (u : string) : Z :=
  match u with
  | EmptyString => h
  | String c u' =>
      hash_from ((31 * h + Z.of_nat (nat_of_ascii c)) mod 2 ^ 32) u'
  end.

Definition hash0 (u : string) : Z := hash_from 0 u.

Definition run0 (l : list action) : state := steps hash0 false false l init.

Definition loaded_a : state :=
  run0 [DoLoad "a.js" None None; Onload 0; Tick].

Lemma load_already_loaded_witness :
  getElementById (script_id hash0 "a.js") loaded_a = Some 0%nat
  ∧ dataset_get_loaded 0 loaded_a = true
  ∧ (load hash0 (call hash0 false) "a.js" (Some (Fn 7)) None loaded_a).1 = 0%nat
  ∧ trace (load hash0 (call hash0 false) "a.js" (Some (Fn 7)) None loaded_a).2
    = trace loaded_a ++ [LoadCall "a.js"; Called 7].
Proof.
  pose proof (load_already_loaded hash0 false loaded_a "a.js"
                (Some (Fn 7)) (Some 7%nat) None 0%nat) as H.
  split; [vm_compute; reflexivity |].
  split; [vm_compute; reflexivity |].
  destruct H as (_ & H1 & _ & _ & _ & _ & _ & H2);
    [vm_compute; reflexivity | vm_compute; reflexivity |].
  split; [exact H1 | exact H2].
Defined.

Ltac by_computation := apply (bool_decide_unpack _); vm_compute; exact I.

Definition loading_a : state := run0 [DoLoad "a.js" (Some 1%nat) None].

Definition wiring_a : wiring :=
  {| scriptElsToRemove := []; channel := script_id hash0 "a.js" |}.

Definition signals_a : list action :=
  [Onreadystatechange 0 "complete"; Tick; Onload 0; Tick].





Lemma completed_once_init : completed_once init.
Proof.
  split; [constructor |]. intros el Hin. by apply elem_of_nil in Hin.
Qed.

(** The browser raises every completion event it has for the one element,
    some of them twice. *)
Definition redundant_signals : list action :=
  [DoLoad "a.js" (Some 1%nat) None; Onload 0;
   Onreadystatechange 0 "loaded"; Onreadystatechange 0 "complete";
   Tick; Tick; Tick; Onload 0; Tick].

Lemma completion_body_once_witness :
  completed_once init
  ∧ NoDup (completed (trace (run0 redundant_signals)))
  ∧ completed (trace (run0 redundant_signals)) = [0%nat]
  ∧ called (trace (run0 redundant_signals)) = [1%nat].
Proof.
  pose proof (completion_body_once hash0 false false init redundant_signals
                completed_once_init) as (_ & H & _).
  split; [exact completed_once_init |]. split; [exact H |].
  split; vm_compute; reflexivity.
Defined.

Lemma unload_while_loading_witness :
  wf loading_a
  ∧ getElementById (script_id hash0 "a.js") loading_a = Some 0%nat
  ∧ dataset_get_loaded 0 loading_a = false
  ∧ Forall (λ t, t = LoadFn 0) (timers loading_a)
  ∧ Forall (signal 0) signals_a
  ∧ subscribers (script_id hash0 "a.js") loading_a = [Fn 1]
  ∧ ∃ st',
      unload hash0 "a.js" loading_a = Normal st'
      ∧ called (trace (steps hash0 false false signals_a st')) = [].
Proof.
  assert (H1 : wf loading_a) by by_computation.
  assert (H2 : getElementById (script_id hash0 "a.js") loading_a = Some 0%nat)
    by (vm_compute; reflexivity).
  assert (H3 : dataset_get_loaded 0 loading_a = false) by (vm_compute; reflexivity).
  assert (H4 : Forall (λ t, t = LoadFn 0) (timers loading_a)) by by_computation.
  assert (H5 : Forall (signal 0) signals_a) by by_computation.
  destruct (unload_while_loading hash0 false false loading_a "a.js" 0%nat
              signals_a H1 H2 H3 H4 H5) as (st' & Hu & _ & _ & Hc & _).
  split; [exact H1 |]. split; [exact H2 |]. split; [exact H3 |].
  split; [exact H4 |]. split; [exact H5 |].
  split; [vm_compute; reflexivity |].
  exists st'. split; [exact Hu | exact Hc].
Defined.

Definition prefetched_a : state := run0 [DoPrefetch "a.js"; Tick].

Lemma load_after_prefetch_witness :
  wf init
  ∧ timers init = []
  ∧ trace (load hash0 (call hash0 false) "a.js" (Some (Fn 1)) None
             (tick hash0 false false (state_of (prefetch hash0 "a.js" init)))).2
    = [Fetch false "a.js"; LoadCall "a.js"; Fetch true "a.js"]
  ∧ fetched (trace (load hash0 (call hash0 false) "a.js" (Some (Fn 1)) None
                      (tick hash0 false false
                         (state_of (prefetch hash0 "a.js" init)))).2)
    = ["a.js"].
Proof.
  assert (H1 : wf init) by by_computation.
  assert (H2 : timers init = []) by reflexivity.
  pose proof (load_after_prefetch hash0 false false init "a.js"
                (Some 1%nat) None H1 H2) as [_ H].
  split; [exact H1 |]. split; [exact H2 |].
  split; [vm_compute; reflexivity | exact H].
Defined.

Lemma prefetch_again_witness :
  (∃ f, getElementById (ID_PREFIX +:+ "prefetch") prefetched_a = Some f
        ∧ is_iframe f prefetched_a = true
        ∧ is_Some (frame_getElementById (script_id hash0 "a.js") f prefetched_a))
  ∧ length (nodes prefetched_a) = 2%nat
  ∧ prefetch hash0 "a.js" prefetched_a = Normal prefetched_a.
Proof.
  assert (H : ∃ f, getElementById (ID_PREFIX +:+ "prefetch") prefetched_a = Some f
                   ∧ is_iframe f prefetched_a = true
                   ∧ is_Some (frame_getElementById (script_id hash0 "a.js") f
                                prefetched_a)).
  { exists 0%nat. split; [vm_compute; reflexivity |].
    split; [vm_compute; reflexivity |]. exists 1%nat. vm_compute; reflexivity. }
  split; [exact H |]. split; [vm_compute; reflexivity |].
  exact (prefetch_again hash0 prefetched_a "a.js" (or_intror H)).
Defined.

(** A queue of one item that has both a url and a text. *)
Definition both : ParseResult :=
  {| original := ""; parsed := "";
     queue := [ {| url := "a.js"; text := "alert"; name := "" |} ] |}.

Definition run_both : list action :=
  [DoExecute both (Some 9%nat); Onload 0; Tick].

Definition markup_both : string :=
  "<script src=" +:+ String dquote "a.js" +:+ String dquote ">alert</script>".

Lemma url_before_text_witness :
  queue (parse (Some markup_both)) = queue both
  ∧ queues_ok (λ t', t' ≠ "alert") init
  ∧ Forall (action_ok "alert") run_both
  ∧ evals_of "alert" (trace (run0 run_both)) = []
  ∧ trace (run0 run_both)
    = [Next 0 0; LoadCall "a.js"; Fetch true "a.js";
       Completed 0 (script_id hash0 "a.js"); Next 0 1; Called 9].
Proof.
  assert (H1 : queues_ok (λ t', t' ≠ "alert") init).
  { intros c Hc. by apply elem_of_nil in Hc. }
  assert (H2 : Forall (action_ok "alert") run_both).
  { repeat constructor. intros Hu. discriminate Hu. }
  pose proof (url_before_text hash0 false false "alert" init run_both H1 H2)
    as [H _].
  split; [vm_compute; reflexivity |].
  split; [exact H1 |]. split; [exact H2 |].
  split; [exact H | vm_compute; reflexivity].
Defined.

(** The queue of the three items a, x and b. *)
Definition three : ParseResult :=
  {| original := ""; parsed := "";
     queue := [ {| url := "a"; text := ""; name := "" |};
                {| url := ""; text := "x"; name := "" |};
                {| url := "b"; text := ""; name := "" |} ] |}.



(** When an element captured for removal is gone by the time the load
    completes, [unload_] raises on it: here a.js of the group main is
    unloaded while bb.js of the same group is being loaded.  The completion
    body of bb.js marks its element and stops there: the callback 3 stays
    subscribed and is not called. *)
Definition unloaded_in_between : list action :=
  [DoLoad "a.js" None (Some "main"); Onload 0; Tick;
   DoLoad "bb.js" (Some 3%nat) (Some "main");
   DoUnload "a.js"; Onload 1; Tick].

Example completion_after_unload :
  trace (run0 unloaded_in_between)
  = [LoadCall "a.js"; Fetch true "a.js"; Completed 0 (script_id hash0 "a.js");
     LoadCall "bb.js"; Fetch true "bb.js"; Completed 1 (script_id hash0 "bb.js")]
  ∧ dataset_get_loaded 1 (run0 unloaded_in_between) = true
  ∧ subscribers (script_id hash0 "bb.js") (run0 unloaded_in_between) = [Fn 3].
Proof. repeat split; vm_compute; reflexivity. Qed.

(** ** Runs on which the properties as first stated fail *)








(** C7, as stated, fails on this run: a.js is prefetched and the timer of
    the prefetch fires, which requests it in the iframe; the request for
    a.js that follows creates its element and requests it in the
    document. *)
Lemma load_after_prefetch_counterexample :
  timers prefetched_a = []
  ∧ trace prefetched_a = [Fetch false "a.js"]
  ∧ trace (load hash0 (call hash0 false) "a.js" None None prefetched_a).2
    = [Fetch false "a.js"; LoadCall "a.js"; Fetch true "a.js"]
  ∧ fetched (trace (load hash0 (call hash0 false) "a.js" None None
                      prefetched_a).2) = ["a.js"].
Proof. repeat split; vm_compute; reflexivity. Qed.

(** ** Concrete runs for the further properties *)

Definition unloaded_a : state :=
  run0 [DoLoad "a.js" None (Some "main"); Onload 0; Tick;
        DoLoad "bb.js" (Some 3%nat) (Some "main"); DoUnload "a.js"].

Definition wiring_bb : wiring :=
  {| scriptElsToRemove := [0%nat]; channel := script_id hash0 "bb.js" |}.

Lemma load_fn_raises_witness :
  nodes unloaded_a !! 1%nat ≫= onload = Some wiring_bb
  ∧ dataset_get_loaded 1 unloaded_a = false
  ∧ ¬ (NoDup (scriptElsToRemove wiring_bb)
       ∧ Forall (λ n, n ∈ document unloaded_a) (scriptElsToRemove wiring_bb))
  ∧ Forall (λ n, el_id n unloaded_a ≠ channel wiring_bb)
      (scriptElsToRemove wiring_bb)
  ∧ called (trace (load_fn hash0 false 1 unloaded_a)) = []
  ∧ subscribers (script_id hash0 "bb.js") (load_fn hash0 false 1 unloaded_a)
    = [Fn 3].
Proof.
  assert (H1 : nodes unloaded_a !! 1%nat ≫= onload = Some wiring_bb)
    by (vm_compute; reflexivity).
  assert (H2 : dataset_get_loaded 1 unloaded_a = false) by (vm_compute; reflexivity).
  assert (H3 : ¬ (NoDup (scriptElsToRemove wiring_bb)
                  ∧ Forall (λ n, n ∈ document unloaded_a)
                      (scriptElsToRemove wiring_bb))) by by_computation.
  assert (H4 : Forall (λ n, el_id n unloaded_a ≠ channel wiring_bb)
                 (scriptElsToRemove wiring_bb)) by by_computation.
  pose proof (load_fn_raises hash0 false unloaded_a 1%nat wiring_bb H1 H2 H3 H4)
    as (_ & _ & Hc & Hs & _).
  split; [exact H1 |]. split; [exact H2 |]. split; [exact H3 |].
  split; [exact H4 |]. split; [exact Hc | exact Hs].
Defined.

Lemma load_after_unload_witness :
  filter (λ n, has_id loaded_a (script_id hash0 "a.js") n = true)
    (document loaded_a) = [0%nat]
  ∧ dataset_get_loaded 0 (state_of (unload hash0 "a.js" loaded_a)) = true
  ∧ fetched (trace (load hash0 (call hash0 false) "a.js" None None
                      (state_of (unload hash0 "a.js" loaded_a))).2)
    = ["a.js"; "a.js"].
Proof.
  assert (H1 : filter (λ n, has_id loaded_a (script_id hash0 "a.js") n = true)
                 (document loaded_a) = [0%nat]) by (vm_compute; reflexivity).
  pose proof (load_after_unload hash0 loaded_a "a.js" 0%nat (call hash0 false)
                None None H1) as (_ & _ & H & _).
  split; [exact H1 |]. split; [vm_compute; reflexivity | exact H].
Defined.

Definition busy : list action :=
  [DoLoad "a.js" None (Some "main"); DoPrefetch "c.js"; DoEval "x" None;
   DoLoad "bb.js" (Some 1%nat) (Some "main"); Tick; Onload 0; Tick;
   DoPrefetch "d.js"; DoLoad "a.js" (Some 2%nat) None; Tick; DoUnload "bb.js";
   DoLoad "bb.js" None None].

Lemma one_element_per_id_witness :
  wf loaded_a ∧ unique_ids loaded_a
  ∧ wf (steps hash0 false false busy loaded_a)
  ∧ unique_ids (steps hash0 false false busy loaded_a).
Proof.
  assert (H1 : wf loaded_a) by by_computation.
  assert (H2 : unique_ids loaded_a) by by_computation.
  pose proof (one_element_per_id hash0 false false busy loaded_a H1 H2)
    as (Hw & Hu & _).
  split; [exact H1 |]. split; [exact H2 |]. split; [exact Hw | exact Hu].
Defined.

Definition inline_result : ParseResult :=
  {| original := ""; parsed := "";
     queue := [ {| url := ""; text := "x"; name := "" |};
                {| url := ""; text := ""; name := "" |};
                {| url := ""; text := "y"; name := "" |} ] |}.

Lemma execute_inline_witness :
  Forall (λ it, url it = "") (queue inline_result)
  ∧ evaluated (trace (execute hash0 false inline_result (Some 7%nat) loaded_a))
    = evaluated (trace loaded_a) ++ ["x"; "y"]
  ∧ called (trace (execute hash0 false inline_result (Some 7%nat) loaded_a))
    = called (trace loaded_a) ++ [7%nat].
Proof.
  assert (H1 : Forall (λ it, url it = "") (queue inline_result)) by by_computation.
  pose proof (execute_inline hash0 false inline_result (Some 7%nat) loaded_a H1)
    as (He & Hc & _).
  split; [exact H1 |]. split; [exact He | exact Hc].
Defined.

Definition prefetching_c : state := state_of (prefetch hash0 "c.js" loaded_a).

Lemma prefetch_after_timer_witness :
  wf loaded_a ∧ timers loaded_a = []
  ∧ prefetch hash0 "c.js" loaded_a = Normal prefetching_c
  ∧ prefetch hash0 "c.js" (tick hash0 false false prefetching_c)
    = Normal (tick hash0 false false prefetching_c)
  ∧ prefetched (trace (tick hash0 false false prefetching_c)) = ["c.js"].
Proof.
  assert (H1 : wf loaded_a) by by_computation.
  assert (H2 : timers loaded_a = []) by (vm_compute; reflexivity).
  assert (H3 : prefetch hash0 "c.js" loaded_a = Normal prefetching_c)
    by (vm_compute; reflexivity).
  pose proof (prefetch_after_timer hash0 false false loaded_a "c.js"
                prefetching_c H1 H2 H3) as (_ & Hp & Ht & _).
  split; [exact H1 |]. split; [exact H2 |]. split; [exact H3 |].
  split; [exact Hp | exact Ht].
Defined.

Lemma prefetch_before_timer_witness :
  wf loaded_a ∧ timers loaded_a = [] ∧ primed hash0 "c.js" loaded_a = false
  ∧ prefetch hash0 "c.js" loaded_a = Normal prefetching_c
  ∧ ∃ f st1,
      timers prefetching_c = [PrefetchFn "c.js" (script_id hash0 "c.js") f]
      ∧ prefetch hash0 "c.js" prefetching_c = Normal st1
      ∧ timers st1 = [PrefetchFn "c.js" (script_id hash0 "c.js") f;
                      PrefetchFn "c.js" (script_id hash0 "c.js") f]
      ∧ prefetched (trace (tick hash0 false false (tick hash0 false false st1)))
        = prefetched (trace loaded_a) ++ ["c.js"; "c.js"]
      ∧ timers (tick hash0 false false (tick hash0 false false st1)) = [].
Proof.
  assert (H1 : wf loaded_a) by by_computation.
  assert (H2 : timers loaded_a = []) by (vm_compute; reflexivity).
  assert (H3 : primed hash0 "c.js" loaded_a = false) by (vm_compute; reflexivity).
  assert (H4 : prefetch hash0 "c.js" loaded_a = Normal prefetching_c)
    by (vm_compute; reflexivity).
  split; [exact H1 |]. split; [exact H2 |]. split; [exact H3 |].
  split; [exact H4 |].
  exact (prefetch_before_timer hash0 false false loaded_a "c.js" prefetching_c
           H1 H2 H3 H4).
Defined.

Lemma prefetch_never_raises_witness :
  wf loaded_a ∧ iframe_ok loaded_a
  ∧ iframe_ok (steps hash0 false false busy loaded_a)
  ∧ (∃ st', prefetch hash0 "c.js" (steps hash0 false false busy loaded_a)
            = Normal st')
  ∧ (∃ st', preexecute hash0 three (steps hash0 false false busy loaded_a)
            = Normal st').
Proof.
  assert (H1 : wf loaded_a) by by_computation.
  assert (H2 : iframe_ok loaded_a) by by_computation.
  split; [exact H1 |]. split; [exact H2 |].
  exact (prefetch_never_raises hash0 false false busy loaded_a "c.js"
           three H1 H2).
Defined.

Definition to_prime : ParseResult :=
  {| original := ""; parsed := "";
     queue := [ {| url := "c.js"; text := ""; name := "" |};
                {| url := "a.js"; text := ""; name := "" |};
                {| url := ""; text := "x"; name := "" |};
                {| url := "c.js"; text := ""; name := "" |} ] |}.

Lemma preexecute_timers_witness :
  wf loaded_a ∧ iframe_ok loaded_a
  ∧ to_prefetch hash0 loaded_a (queue to_prime) = ["c.js"; "c.js"]
  ∧ needs_iframe hash0 loaded_a (queue to_prime) = true
  ∧ ∃ st',
      preexecute hash0 to_prime loaded_a = Normal st'
      ∧ timers st'
        = timers loaded_a
          ++ ((λ u, PrefetchFn u (script_id hash0 u) (iframe_of loaded_a))
                <$> to_prefetch hash0 loaded_a (queue to_prime))
      ∧ nodes st'
        = nodes loaded_a
          ++ (if needs_iframe hash0 loaded_a (queue to_prime)
              then [prefetch_iframe] else [])
      ∧ document st'
        = document loaded_a
          ++ (if needs_iframe hash0 loaded_a (queue to_prime)
              then [length (nodes loaded_a)] else [])
      ∧ trace st' = trace loaded_a ∧ runs st' = runs loaded_a
      ∧ subscriptions st' = subscriptions loaded_a
      ∧ ∀ v, getElementById (script_id hash0 v) st'
             = getElementById (script_id hash0 v) loaded_a.
Proof.
  assert (H1 : wf loaded_a) by by_computation.
  assert (H2 : iframe_ok loaded_a) by by_computation.
  split; [exact H1 |]. split; [exact H2 |].
  split; [vm_compute; reflexivity |]. split; [vm_compute; reflexivity |].
  exact (preexecute_timers hash0 to_prime loaded_a H1 H2).
Defined.

(** ** Markup for the parser *)

Definition attr_a : string := " src=" +:+ String dquote "a.js" +:+ String dquote "".

Lemma parse_script_tag_witness :
  cut true "<script" "<p>hi</p>" = None
  ∧ all_chars (is_not ">") attr_a = true
  ∧ cut true "</script>" "alert(1 < 2)" = None
  ∧ parse (Some ("<p>hi</p>" +:+ script_tag attr_a "alert(1 < 2)" +:+ "<b>x</b>"))
    = {| original := "<p>hi</p>" +:+ script_tag attr_a "alert(1 < 2)" +:+ "<b>x</b>";
         parsed := "<p>hi</p><b>x</b>";
         queue := [ {| url := "a.js"; text := "alert(1 < 2)"; name := "" |} ] |}.
Proof.
  assert (H1 : cut true "<script" "<p>hi</p>" = None) by (vm_compute; reflexivity).
  assert (H2 : all_chars (is_not ">") attr_a = true) by (vm_compute; reflexivity).
  assert (H3 : cut true "</script>" "alert(1 < 2)" = None)
    by (vm_compute; reflexivity).
  split; [exact H1 |]. split; [exact H2 |]. split; [exact H3 |].
  exact (parse_script_tag "<p>hi</p>" attr_a "alert(1 < 2)" "<b>x</b>" H1 H2 H3).
Defined.

Lemma parse_plain_witness :
  (cut true "<script" "<script>alert(1)" = None
   ∨ cut true "</script>" "<script>alert(1)" = None)
  ∧ parse (Some "<script>alert(1)")
    = {| original := "<script>alert(1)"; parsed := "<script>alert(1)";
         queue := [] |}.
Proof.
  assert (H : cut true "<script" "<script>alert(1)" = None
              ∨ cut true "</script>" "<script>alert(1)" = None)
    by (right; vm_compute; reflexivity).
  split; [exact H | exact (parse_plain "<script>alert(1)" H)].
Defined.

(** Two attributes with no white space between them. *)
Definition glued : string :=
  "a.js" +:+ String dquote ("class=" +:+ String dquote "main").

Lemma attr_match_value_witness :
  all_chars (is_not "=") " " = true
  ∧ all_chars (is_not "=") "src" = true
  ∧ glued ≠ ""
  ∧ all_chars (λ c, negb (is_space c)) glued = true
  ∧ non_space_run "" = ""
  ∧ attr_match "src"
      (" " +:+ "src" +:+ "=" +:+ String dquote glued +:+ String dquote "")
    = Some glued.
Proof.
  assert (H1 : all_chars (is_not "=") " " = true) by (vm_compute; reflexivity).
  assert (H2 : all_chars (is_not "=") "src" = true) by (vm_compute; reflexivity).
  assert (H3 : glued ≠ "") by (vm_compute; discriminate).
  assert (H4 : all_chars (λ c, negb (is_space c)) glued = true)
    by (vm_compute; reflexivity).
  assert (H5 : non_space_run "" = "") by reflexivity.
  split; [exact H1 |]. split; [exact H2 |]. split; [exact H3 |].
  split; [exact H4 |]. split; [exact H5 |].
  exact (attr_match_value "src" " " glued "" H1 H2 H3 H4 H5).
Defined.

(** ** A request that is unloaded and made again *)

Definition reloading_a : state :=
  (load hash0 (call hash0 false) "a.js" (Some (Fn 2)) None
     (state_of (unload hash0 "a.js" loading_a))).2.

Lemma completion_of_unloaded_witness :
  wf loading_a
  ∧ filter (λ m, has_id loading_a (script_id hash0 "a.js") m = true)
      (document loading_a) = [0%nat]
  ∧ dataset_get_loaded 0 loading_a = false
  ∧ nodes loading_a !! 0%nat ≫= onload = Some wiring_a
  ∧ scriptElsToRemove wiring_a = []
  ∧ getElementById (script_id hash0 "a.js") reloading_a = Some 1%nat
  ∧ called (trace (load_fn hash0 false 0 reloading_a)) = [2%nat]
  ∧ dataset_get_loaded 1 (load_fn hash0 false 0 reloading_a) = false.
Proof.
  assert (H1 : wf loading_a) by by_computation.
  assert (H2 : filter (λ m, has_id loading_a (script_id hash0 "a.js") m = true)
                 (document loading_a) = [0%nat]) by (vm_compute; reflexivity).
  assert (H3 : dataset_get_loaded 0 loading_a = false) by (vm_compute; reflexivity).
  assert (H4 : nodes loading_a !! 0%nat ≫= onload = Some wiring_a)
    by (vm_compute; reflexivity).
  assert (H5 : scriptElsToRemove wiring_a = []) by reflexivity.
  pose proof (completion_of_unloaded hash0 false loading_a "a.js" 0%nat wiring_a
                2%nat H1 H2 H3 H4 H5) as (_ & Hg & _ & Hc & Hl & _).
  split; [exact H1 |]. split; [exact H2 |]. split; [exact H3 |].
  split; [exact H4 |]. split; [exact H5 |].
  split; [exact Hg |]. split; [exact Hc | exact Hl].
Defined.

(** ** Two urls with the same hash *)

Lemma load_same_hash_witness :
  hash0 "BB" = hash0 "Aa"
  ∧ getElementById (script_id hash0 "Aa")
      (run0 [DoLoad "Aa" None None]) = Some 0%nat
  ∧ (load hash0 (call hash0 false) "BB" (Fn <$> Some 4%nat) None
       (run0 [DoLoad "Aa" None None])).1 = 0%nat
  ∧ fetched (trace (load hash0 (call hash0 false) "BB" (Fn <$> Some 4%nat) None
                      (run0 [DoLoad "Aa" None None])).2) = ["Aa"].
Proof.
  assert (H1 : hash0 "BB" = hash0 "Aa") by (vm_compute; reflexivity).
  assert (H2 : getElementById (script_id hash0 "Aa")
                 (run0 [DoLoad "Aa" None None]) = Some 0%nat)
    by (vm_compute; reflexivity).
  pose proof (load_same_hash hash0 false (run0 [DoLoad "Aa" None None])
                "Aa" "BB" 0%nat (Some 4%nat) None H1 H2) as (Hr & Hf & _).
  split; [exact H1 |]. split; [exact H2 |]. split; [exact Hr | exact Hf].
Defined.

(** ** A queue whose scripts are loaded *)

Definition cached : ParseResult :=
  {| original := ""; parsed := "";
     queue := [ {| url := "a.js"; text := "ignored"; name := "" |};
                {| url := ""; text := "x"; name := "" |};
                {| url := "a.js"; text := ""; name := "" |} ] |}.

Lemma execute_ready_witness :
  wf loaded_a
  ∧ Forall (λ it, ready hash0 loaded_a it = true) (queue cached)
  ∧ ∃ evs,
      trace (execute hash0 false cached (Some 5%nat) loaded_a)
      = trace loaded_a ++ evs
      ∧ evaluated evs = ["x"]
      ∧ load_calls evs = ["a.js"; "a.js"]
      ∧ called evs = [5%nat]
      ∧ fetched evs = [] ∧ completed evs = []
      ∧ (∀ n, Some 5%nat = Some n → last evs = Some (Called n))
      ∧ subscriptions (execute hash0 false cached (Some 5%nat) loaded_a)
        = subscriptions loaded_a
      ∧ timers (execute hash0 false cached (Some 5%nat) loaded_a)
        = timers loaded_a.
Proof.
  assert (H1 : wf loaded_a) by by_computation.
  assert (H2 : Forall (λ it, ready hash0 loaded_a it = true) (queue cached))
    by by_computation.
  split; [exact H1 |]. split; [exact H2 |].
  exact (execute_ready hash0 false cached (Some 5%nat) loaded_a H1 H2).
Defined.
